(** * dbsync: operation compression and the push and pull handlers

    A shallow embedding of [dbsync/client/compression.py] and
    [dbsync/server/handlers.py].

    Conventions.
    - A Python exception is the [Raise] branch of the [result] monad.
    - A database table is the list of its rows in order of creation;
      [session.delete] removes a row by its primary key.
    - The [dict] built by [group_by] is an association list kept in
      insertion order, and [compressed_operations_iter] takes the order in
      which [itervalues] reads it as a parameter: the code is Python 2,
      where that is the order of the slots of a hash table, modelled by
      [PyDict.hash_order].  [compressed_operations] reads it in insertion
      order.  The only consumer whose result could depend on that order is
      the final stable sort of [compressed_operations]; lemma
      [PureFacts.compressed_operations_any_iteration_order] shows
      that every iteration order gives the same result whenever the [order]
      column is a key, as it is in the operations table. *)

From Stdlib Require Import ZArith Lia Sorted Permutation.
From stdpp Require Import base list sorting gmap strings.

#[local] Open Scope Z_scope.

(** ** Exceptions as results *)

Inductive result (E A : Type) : Type :=
| Return (a : A)
| Raise (e : E).
Arguments Return {E A} a.
Arguments Raise {E A} e.

#[global] Instance result_ret {E} : MRet (result E) := λ A a, Return a.
#[global] Instance result_bind {E} : MBind (result E) := λ A B f m,
  match m with
  | Return a => f a
  | Raise e => Raise e
  end.

(** A [for] loop whose body may raise and that threads one accumulator. *)
Fixpoint for_each {E A S : Type} (body : S → A → result E S) (s : S) (col : list A)
  : result E S :=
  match col with
  | [] => Return s
  | x :: col' => s' ← body s x; for_each body s' col'
  end.

(** ** dbsync.lang *)

Module Lang.

(** Modelled from the spec: the helpers of [dbsync.lang], which is not among
    the sources, as the compression code uses them.  [andmap(fn, col)] holds
    when [fn] holds of every element of [col]. *)
Definition andmap {A : Type} (fn : A → bool) (col : list A) : bool := forallb fn col.

Section group_by.
Context {K A : Type} `{EqDecision K}.

(** Modelled from the spec: [group_by(fn, col)] of [dbsync.lang] collects
    the elements of [col] that share a key, here the operations of one
    [(row_id, content_type_id)] as in section 4.1, each group in the order
    of [col].  One step looks the key up and either starts a group with [e]
    or appends [e] to the group of its key. *)
Fixpoint group_add (key : K) (e : A) (groups : list (K * list A)) : list (K * list A) :=
  match groups with
  | [] => [(key, [e])]
  | (k, subcol) :: groups' =>
      if decide (key = k) then (k, subcol ++ [e]) :: groups'
      else (k, subcol) :: group_add key e groups'
  end.

Definition group_into (fn : A → K) (groups : list (K * list A)) (col : list A)
  : list (K * list A) :=
  fold_left (λ groups e, group_add (fn e) e groups) col groups.

Definition group_by (fn : A → K) (col : list A) : list (K * list A) :=
  group_into fn [] col.

Definition itervalues (groups : list (K * list A)) : list (list A) := map snd groups.

(** [groups.get(k)]. *)
Fixpoint get (k : K) (groups : list (K * list A)) : option (list A) :=
  match groups with
  | [] => None
  | (k', subcol) :: groups' => if decide (k = k') then Some subcol else get k groups'
  end.

(** The members of [col] whose key is [k], in the order of [col]. *)
Definition members (fn : A → K) (k : K) (col : list A) : list A :=
  List.filter (λ e, bool_decide (fn e = k)) col.
End group_by.

(** [sorted(col, key=...)] on integer keys.  Python's sort is stable, and so
    is insertion from the right that stops at the first element whose key is
    not smaller. *)
Section sorted.
Context {A : Type} (key : A → Z).

Fixpoint insert_sorted (x : A) (l : list A) : list A :=
  match l with
  | [] => [x]
  | y :: l' => if key x <=? key y then x :: y :: l' else y :: insert_sorted x l'
  end.

Definition sorted (col : list A) : list A := foldr insert_sorted [] col.

(** The orders on elements induced by the key. *)
Definition key_le (x y : A) : Prop := key x ≤ key y.
Definition key_lt (x y : A) : Prop := key x < key y.
End sorted.

End Lang.

(** ** dbsync.models *)

Module Models.

(** Modelled from the spec: the data model of section 3; the classes of
    [dbsync.models] are not among the sources.  The [command] column holds
    one of ['i'], ['u'], ['d']. *)
Inductive Command := Insert | Update | Delete.

#[global] Instance Command_eq_dec : EqDecision Command.
Proof. solve_decision. Defined.

(** A row of the operations table; [order] is its primary key. *)
Record Operation := mkOperation {
  order : Z;
  row_id : Z;
  content_type_id : Z;
  command : Command;
  version_id : option Z
}.

#[global] Instance Operation_eq_dec : EqDecision Operation.
Proof. solve_decision. Defined.

(** The grouping key [(op.row_id, op.content_type_id)]. *)
Definition subject (op : Operation) : Z * Z := (row_id op, content_type_id op).

(** [attr('command') == c], and [op.command == c]. *)
Definition is_command (c : Command) (op : Operation) : bool :=
  bool_decide (command op = c).

(** The two kinds of Python value that meet in the comparisons of
    [_assert_operation_sequence]: a string and a mapped [Operation]
    instance. *)
Inductive pyval :=
| PyStr (s : string)
| PyOperation (op : Operation).

(** [a != b].  Strings compare by content, mapped instances with each other
    by identity (rows are told apart by their primary key); an instance and
    a string are never equal. *)
Definition py_ne (a b : pyval) : bool :=
  match a, b with
  | PyStr s, PyStr t => negb (bool_decide (s = t))
  | PyOperation x, PyOperation y => negb (bool_decide (order x = order y))
  | _, _ => true
  end.

(** Modelled from the spec: the rows of the versions, nodes and content
    types tables, section 3.  Timestamps are integers. *)
Module Version.
Record t := mk {
  version_id : Z;
  created : Z;
  node_id : Z
}.
End Version.

Module Node.
Record t := mk {
  node_id : Z;
  registered : Z;
  registry_user_id : option Z;
  secret : string
}.
End Node.

Module ContentType.
Record t := mk {
  content_type_id : Z;
  model_name : string
}.
End ContentType.

End Models.

(** ** dbsync.client.compression *)

Module Compression.
Import Lang Models.

Inductive exn :=
| IndexError
| AssertionError (row content_type : Z) (old_to_new : list Command).

(** [seq[0]] and [seq[-1]]. *)
Definition first_item (seq : list Operation) : result exn Operation :=
  match head seq with
  | Some op => Return op
  | None => Raise IndexError
  end.

Definition last_item (seq : list Operation) : result exn Operation :=
  match last seq with
  | Some op => Return op
  | None => Raise IndexError
  end.

(** [assert cond, message]. *)
Definition assert (cond : bool) (message : exn) : result exn unit :=
  if cond then Return () else Raise message.

(** [seq] is sorted from newest to oldest.  The slice [seq[1:-1]] is
    [removelast (tail seq)]. *)
Definition _assert_operation_sequence (seq : list Operation) : result exn unit :=
  seq0 ← first_item seq;
  let message :=
    AssertionError (row_id seq0) (content_type_id seq0) (rev (map command seq)) in
  _ ← assert (forallb (is_command Update) (removelast (tail seq))) message;
  if bool_decide (1 < length seq)%nat then
    seq_1 ← last_item seq;
    _ ← assert (py_ne (PyOperation seq_1) (PyStr "d")) message;
    assert (py_ne (PyOperation seq0) (PyStr "i")) message
  else Return ().

(** The body of the second loop of [compress], for one [seq] of more than
    one element: [deleted] collects the rows given to [session.delete]. *)
Definition compress_step (deleted : list Operation) (seq : list Operation)
  : result exn (list Operation) :=
  seq_1 ← last_item seq;
  if is_command Insert seq_1 then
    if andmap (is_command Update) (removelast seq) then
      Return (deleted ++ removelast seq)
    else
      seq0 ← first_item seq;
      if is_command Delete seq0 then Return (deleted ++ seq) else Return deleted
  else if is_command Update seq_1 then
    if andmap (is_command Update) (removelast seq) then
      Return (deleted ++ tail seq)
    else
      seq0 ← first_item seq;
      if is_command Delete seq0 then Return (deleted ++ tail seq) else Return deleted
  else Return deleted.

(** [query(Operation).filter(version_id == None).order_by(order.desc())]:
    the rows without a version in descending [order], which is a key. *)
Definition unversioned (table : list Operation) : list Operation :=
  rev (sorted order (List.filter (λ op, bool_decide (version_id op = None)) table)).

(** [session.commit()] after the deletions: the rows whose primary key was
    given to [session.delete] are gone. *)
Definition commit (table deleted : list Operation) : list Operation :=
  List.filter (λ row, negb (bool_decide (order row ∈ map order deleted))) table.

(** [compress()], as a function of the operations table. *)
Definition compress (table : list Operation) : result exn (list Operation) :=
  let seqs := group_by subject (unversioned table) in
  _ ← for_each (λ _ seq, _assert_operation_sequence seq) () (itervalues seqs);
  deleted ← for_each compress_step []
              (List.filter (λ seq, bool_decide (1 < length seq)%nat) (itervalues seqs));
  Return (commit table deleted).

(** The per-row sequences that [compress] iterates over, each from newest
    to oldest, and the sequence of one subject. *)
Definition sequences (table : list Operation) : list (list Operation) :=
  itervalues (group_by subject (unversioned table)).

Definition sequence_of (k : Z * Z) (table : list Operation) : list Operation :=
  members subject k (unversioned table).

(** The rows of one sequence that the second loop of [compress] gives to
    [session.delete]. *)
Definition superfluous (seq : list Operation) : list Operation :=
  match compress_step [] seq with
  | Return deleted => deleted
  | Raise _ => []
  end.

(** What [session.delete] of the superfluous rows leaves of a sequence. *)
Definition remaining (seq : list Operation) : list Operation :=
  List.filter (λ op, negb (bool_decide (op ∈ superfluous seq))) seq.

Definition all_updates (seq : list Operation) : Prop :=
  Forall (λ op, command op = Update) seq.

(** The shapes of a sequence, from newest to oldest, that [compress]
    shortens: an Insert with Updates after it, an Insert with a Delete as
    the newest operation, Updates only, an Update with a Delete as the
    newest operation. *)
Inductive shape : list Operation → Prop :=
| insert_updates newer i :
    newer ≠ [] → command i = Insert → all_updates newer → shape (newer ++ [i])
| insert_delete d middle i :
    command i = Insert → command d = Delete → shape (d :: middle ++ [i])
| updates_only u older :
    older ≠ [] → all_updates (u :: older) → shape (u :: older)
| update_delete d middle u :
    command u = Update → command d = Delete → shape (d :: middle ++ [u]).

(** Modelled from the spec: the contract of section 4.1 on a sequence given
    from newest to oldest.  Every interior operation is an Update and, when
    there is more than one operation, the oldest is not a Delete and the
    newest is not an Insert. *)
Definition legal (seq : list Operation) : bool :=
  forallb (is_command Update) (removelast (tail seq)) &&
  match head seq, last seq with
  | Some newest, Some oldest =>
      bool_decide (length seq ≤ 1)%nat ||
      negb (is_command Delete oldest) && negb (is_command Insert newest)
  | _, _ => true
  end.

(** The body of the loop of [compressed_operations]. *)
Definition compressed_step (compressed : list Operation) (seq : list Operation)
  : result exn (list Operation) :=
  seq0 ← first_item seq;
  if is_command Insert seq0 && andmap (is_command Update) (tail seq) then
    Return (compressed ++ [seq0])
  else if is_command Update seq0 then
    if andmap (is_command Update) (tail seq) then
      Return (compressed ++ [seq0])
    else
      seq_1 ← last_item seq;
      if is_command Delete seq_1 then Return (compressed ++ [seq_1])
      else Return compressed
  else if bool_decide (length seq = 1%nat) then
    Return (compressed ++ [seq0])
  else Return compressed.

(** [compressed_operations], with the iteration order of the dictionary as a
    parameter. *)
Definition compressed_operations_iter
    (iteration : list (Z * Z * list Operation) → list (Z * Z * list Operation))
    (operations : list Operation) : result exn (list Operation) :=
  let seqs := group_by subject (sorted order operations) in
  compressed ← for_each compressed_step [] (itervalues (iteration seqs));
  Return (sorted order compressed).

Definition compressed_operations (operations : list Operation)
  : result exn (list Operation) :=
  compressed_operations_iter id operations.

(** The per-row runs that [compressed_operations] iterates over, each in
    ascending order. *)
Definition runs (operations : list Operation) : list (list Operation) :=
  itervalues (group_by subject (sorted order operations)).

(** What the loop body of [compressed_operations] appends for one run. *)
Definition contribution (seq : list Operation) : list Operation :=
  match compressed_step [] seq with
  | Return compressed => compressed
  | Raise _ => []
  end.

(** The shapes of a run for which [compressed_operations] keeps an
    operation: an Insert followed by Updates only, Updates only, a leading
    Update with a trailing Delete, a single operation. *)
Definition handled (run : list Operation) : Prop :=
  (∃ i updates, run = i :: updates ∧ command i = Insert ∧ all_updates updates) ∨
  (run ≠ [] ∧ all_updates run) ∨
  (∃ u middle d, run = u :: middle ++ [d] ∧ command u = Update ∧ command d = Delete) ∨
  length run = 1%nat.

End Compression.

(** ** dbsync.server.handlers *)

Module Handlers.
Import Lang Models.

(** The server database seen through the session: the three synchronization
    tables, the content types, and the rows of the tracked models, keyed by
    [(row_id, content_type_id)]. *)
Module Database.
Record t (Row : Type) := mk {
  versions : list Version.t;
  operations : list Operation;
  nodes : list Node.t;
  content_types : list ContentType.t;
  objects : gmap (Z * Z) Row
}.
Arguments mk {Row}.
Arguments versions {Row}.
Arguments operations {Row}.
Arguments nodes {Row}.
Arguments content_types {Row}.
Arguments objects {Row}.
End Database.

(** Modelled from the spec: the message envelopes of section 3; the classes
    of [dbsync.messages] are not among the sources.  A push carries the rows
    that back its operations, a pull the rows of the subjects of its
    operations. *)
Module PushMessage.
Record t (Row : Type) := mk {
  node_id : Z;
  latest_version_id : option Z;
  operations : list Operation;
  payload : gmap (Z * Z) Row;
  signature : string
}.
Arguments mk {Row}.
Arguments node_id {Row}.
Arguments latest_version_id {Row}.
Arguments operations {Row}.
Arguments payload {Row}.
Arguments signature {Row}.
End PushMessage.

Module PullMessage.
Record t (Row Value : Type) := mk {
  versions : list Version.t;
  operations : list Operation;
  payload : gmap (Z * Z) Row;
  extra : gmap string Value
}.
Arguments mk {Row Value}.
Arguments versions {Row Value}.
Arguments operations {Row Value}.
Arguments payload {Row Value}.
Arguments extra {Row Value}.
End PullMessage.

(** The reasons given to [PushRejected], one per [raise] of [handle_push]. *)
Inductive push_rejection (Data Arg : Type) :=
| NotAPushMessage (data : Data)
| NotLatestVersion (given : Z)
| NoOperations
| NotProperlySigned
| OperationFailed (args : list Arg).
Arguments NotAPushMessage {Data Arg}.
Arguments NotLatestVersion {Data Arg}.
Arguments NoOperations {Data Arg}.
Arguments NotProperlySigned {Data Arg}.
Arguments OperationFailed {Data Arg}.

Inductive exn (Data Arg : Type) :=
| PushRejected (reason : push_rejection Data Arg)
| PullRejected (data : Data)
| TypeError.
Arguments PushRejected {Data Arg}.
Arguments PullRejected {Data Arg}.
Arguments TypeError {Data Arg}.

(** An entry written by [core.save_log(source, node_id, errors)]. *)
Definition LogEntry : Type := string * Z * list string.

(** The largest of a list of keys, [None] for the empty list. *)
Definition max_key (keys : list Z) : option Z :=
  foldr (λ k acc, Some (match acc with Some m => Z.max k m | None => k end)) None keys.

(** Modelled from the spec: the persistence layer, which is not part of the
    sources, gives a new row an integer primary key larger than every key of
    its table, without gaps. *)
Definition next_key (keys : list Z) : Z :=
  match max_key keys with
  | Some m => m + 1
  | None => 1
  end.

Section handlers.
Context {Data Value Row Arg : Type}.

(** [PushMessage(data)]; [None] stands for its [KeyError]. *)
Variable parse_push : Data → option (PushMessage.t Row).
(** [message.islegit(session)]: the signature check against the secret
    stored for the sending node. *)
Variable islegit : PushMessage.t Row → Database.t Row → bool.
(** [op.perform(content_types, synched_models, message, session, log)]: the
    calls it makes to its logging callback, and either the tracked rows
    after the command or the arguments of its [OperationError]. *)
Variable perform :
  Operation → list ContentType.t → PushMessage.t Row → gmap (Z * Z) Row →
  list (string * list string) * result (list Arg) (gmap (Z * Z) Row).
(** [repr(arg)]. *)
Variable repr : Arg → string.
(** [int(value)]; [None] stands for its [ValueError] and [TypeError]. *)
Variable py_int : Value → option Z.
(** [datetime.datetime.now()]. *)
Variable now : Z.

(** Modelled from the spec: [core.get_latest_version_id], the largest
    version id of the ledger, or none when the ledger is empty. *)
Definition get_latest_version_id (db : Database.t Row) : option Z :=
  max_key (map Version.version_id (Database.versions db)).

(** Modelled from the spec: [core.with_transaction] commits what the
    procedure did to the session when it returns and rolls all of it back
    when it raises; the exception is raised again.  The log written by
    [core.save_log] is not part of the session. *)
Definition with_transaction {A : Type}
    (proc : Database.t Row → list LogEntry →
            result (exn Data Arg) (A * Database.t Row) * list LogEntry)
    (db : Database.t Row) (log : list LogEntry)
  : result (exn Data Arg) A * Database.t Row * list LogEntry :=
  match proc db log with
  | (Return (a, db'), log') => (Return a, db', log')
  | (Raise e, log') => (Raise e, db, log')
  end.

(** The loop [for op in message.operations: op.perform(...)], in the order
    of the message; it stops at the first [OperationError]. *)
Fixpoint perform_all (message : PushMessage.t Row) (content_types : list ContentType.t)
    (ops : list Operation) (objects : gmap (Z * Z) Row)
  : list (string * list string) * result (list Arg) (gmap (Z * Z) Row) :=
  match ops with
  | [] => ([], Return objects)
  | op :: ops' =>
      match perform op content_types message objects with
      | (calls, Raise args) => (calls, Raise args)
      | (calls, Return objects') =>
          let '(calls', r) := perform_all message content_types ops' objects' in
          (calls ++ calls', r)
      end
  end.

(** The entries that [lambda s, errs: core.save_log(s, message.node_id, errs)]
    writes for the calls made to it. *)
Definition logged (message : PushMessage.t Row) (calls : list (string * list string))
  : list LogEntry :=
  map (λ call, (call.1, PushMessage.node_id message, call.2)) calls.

(** One iteration of the last loop of [handle_push]: every column but
    [order] is copied, the new row is linked to [version], and the flush
    gives it its primary key. *)
Definition add_operation (version : Version.t) (db : Database.t Row) (op : Operation)
  : Database.t Row :=
  let new_op :=
    {| order := next_key (map order (Database.operations db));
       row_id := row_id op;
       content_type_id := content_type_id op;
       command := command op;
       version_id := Some (Version.version_id version) |} in
  Database.mk (Database.versions db) (Database.operations db ++ [new_op])
    (Database.nodes db) (Database.content_types db) (Database.objects db).

(** The body of [handle_push], inside its transaction. *)
Definition handle_push_proc (data : Data) (db : Database.t Row) (log : list LogEntry)
  : result (exn Data Arg) (Z * Database.t Row) * list LogEntry :=
  match parse_push data with
  | None => (Raise (PushRejected (NotAPushMessage data)), log)
  | Some message =>
      let latest_version_id := get_latest_version_id db in
      if negb (bool_decide (latest_version_id = PushMessage.latest_version_id message)) then
        (* "given: %d" % message.latest_version_id *)
        match PushMessage.latest_version_id message with
        | Some given => (Raise (PushRejected (NotLatestVersion given)), log)
        | None => (Raise TypeError, log)
        end
      else if bool_decide (PushMessage.operations message = []) then
        (Raise (PushRejected NoOperations), log)
      else if negb (islegit message db) then
        (Raise (PushRejected NotProperlySigned), log)
      else
        let node_id := PushMessage.node_id message in
        let content_types := Database.content_types db in
        let '(calls, performed) :=
          perform_all message content_types (PushMessage.operations message)
            (Database.objects db) in
        let log := log ++ logged message calls in
        match performed with
        | Raise args =>
            (Raise (PushRejected (OperationFailed args)),
             log ++ [("handlers.push.OperationError"%string, node_id, map repr args)])
        | Return objects =>
            let version :=
              Version.mk (next_key (map Version.version_id (Database.versions db)))
                now node_id in
            let db :=
              Database.mk (Database.versions db ++ [version]) (Database.operations db)
                (Database.nodes db) content_types objects in
            let db :=
              fold_left (add_operation version)
                (sorted order (PushMessage.operations message)) db in
            (Return (Version.version_id version, db), log)
        end
  end.

(** [handle_push]: the new version id, or the exception, with the database
    and the log it leaves. *)
Definition handle_push (data : Data) (db : Database.t Row) (log : list LogEntry)
  : result (exn Data Arg) Z * Database.t Row * list LogEntry :=
  with_transaction (handle_push_proc data) db log.

(** One of the four checks that [handle_push] makes before it performs any
    operation fails. *)
Definition admission_failure (data : Data) (db : Database.t Row) : Prop :=
  parse_push data = None ∨
  ∃ message, parse_push data = Some message ∧
    (get_latest_version_id db ≠ PushMessage.latest_version_id message ∨
     PushMessage.operations message = [] ∨
     islegit message db = false).

(** Some operation of the message cannot be performed. *)
Definition operation_failure (data : Data) (db : Database.t Row) : Prop :=
  ∃ message args, parse_push data = Some message ∧
    (perform_all message (Database.content_types db) (PushMessage.operations message)
       (Database.objects db)).2 = Raise args.

(** The operations of a version, and the current row of the subject of an
    operation added to a payload when there is one. *)
Definition operations_of (db : Database.t Row) (v : Version.t) : list Operation :=
  List.filter (λ op, bool_decide (version_id op = Some (Version.version_id v)))
    (Database.operations db).

Definition add_object (db : Database.t Row) (payload : gmap (Z * Z) Row) (op : Operation)
  : gmap (Z * Z) Row :=
  match Database.objects db !! subject op with
  | Some row => <[subject op := row]> payload
  | None => payload
  end.

(** Modelled from the spec: [PullMessage.add_version], which attaches the
    operations of the version and, when [swell] is set, the current row of
    the subject of each of them. *)
Definition add_version (swell : bool) (db : Database.t Row)
    (message : PullMessage.t Row Value) (v : Version.t) : PullMessage.t Row Value :=
  let ops := operations_of db v in
  PullMessage.mk (PullMessage.versions message ++ [v])
    (PullMessage.operations message ++ ops)
    (if swell then fold_left (add_object db) ops (PullMessage.payload message)
     else PullMessage.payload message)
    (PullMessage.extra message).

(** The keys that [handle_pull] drops from [extra_data]. *)
Definition reserved : list string :=
  ["operations"; "created"; "payload"; "versions"]%string.

(** [handle_pull]; the query on [Version] carries no [order_by] and is read
    in table order. *)
Definition handle_pull (data : gmap string Value) (extra_data : option (gmap string Value))
    (db : Database.t Row) : result (exn Data Arg) (PullMessage.t Row Value) :=
  let extra :=
    match extra_data with
    | Some d => filter (λ kv, kv.1 ∉ reserved) d
    | None => ∅
    end in
  let latest_version_id :=
    match data !! "latest_version_id"%string with
    | Some value => py_int value
    | None => None (* [int(None)] raises [TypeError] *)
    end in
  let swell := negb (bool_decide (is_Some (data !! "fast_forward"%string))) in
  let versions :=
    match latest_version_id with
    | Some given =>
        List.filter (λ v, given <? Version.version_id v) (Database.versions db)
    | None => Database.versions db
    end in
  Return (fold_left (add_version swell db) versions (PullMessage.mk [] [] ∅ extra)).

End handlers.

(** Modelled from the spec: [Operation.perform], which is not among the
    sources, as section 4.4 describes it.  The target row is looked up by
    [(row_id, content_type_id)]; an Insert on a row that exists, and an
    Update or a Delete on a row that does not, are conflicts, and so is a
    write for which the message carries no row.  A conflict raises an
    [OperationError] that carries the operation.  Nothing is logged. *)
Definition perform_spec {Row : Type} (op : Operation) (content_types : list ContentType.t)
    (message : PushMessage.t Row) (objects : gmap (Z * Z) Row)
  : list (string * list string) * result (list Operation) (gmap (Z * Z) Row) :=
  match command op, objects !! subject op, PushMessage.payload message !! subject op with
  | Insert, None, Some row => ([], Return (<[subject op := row]> objects))
  | Update, Some _, Some row => ([], Return (<[subject op := row]> objects))
  | Delete, Some _, _ => ([], Return (delete (subject op) objects))
  | _, _, _ => ([], Raise [op])
  end.

End Handlers.

(** ** Replaying operations on a row *)

Module Replay.
Import Models.

Section replay.
Context {Row : Type}.
(** The content of the row at the time the operations are serialized: an
    operation carries no values of its own. *)
Variable live : Row.

(** Modelled from the spec: applying one command to the row it names,
    section 4.4.  This is the part of [Operation.perform], which is not
    among the sources, that concerns a single row.  The row is absent
    ([None]) or present with its content; an Insert needs the row absent, an
    Update and a Delete need it present, anything else is a conflict, and
    every write stores the live content. *)
Definition apply_command (state : option Row) (c : Command) : option (option Row) :=
  match c, state with
  | Insert, None => Some (Some live)
  | Update, Some _ => Some (Some live)
  | Delete, Some _ => Some None
  | _, _ => None
  end.

(** Replaying a sequence given from oldest to newest; [None] is a conflict. *)
Fixpoint replay (state : option Row) (old_to_new : list Operation) : option (option Row) :=
  match old_to_new with
  | [] => Some state
  | op :: ops => state' ← apply_command state (command op); replay state' ops
  end.

(** The compacted sequence has the net effect of the original one: from a
    fresh row, which is absent, both end in the same state or both end in a
    conflict, and wherever the original applies cleanly the compacted one
    applies cleanly to the same final state. *)
Definition same_effect (original compacted : list Operation) : Prop :=
  replay None compacted = replay None original ∧
  ∀ state final, replay state original = Some final → replay state compacted = Some final.
End replay.

End Replay.

(** ** Sample data *)

Module Examples.
Import Models Handlers.

(** An unversioned operation on row [row] of content type 1. *)
Definition op (o row : Z) (c : Command) : Operation := mkOperation o row 1 c None.

(** An operations table of a client: a row inserted and updated twice, a
    row updated and deleted, a row inserted, updated and deleted, a row
    updated twice, a row deleted, and an operation of version 1. *)
Definition table : list Operation :=
  [ op 1 1 Insert; op 2 1 Update; op 3 2 Update; op 4 3 Insert; op 5 1 Update;
    op 6 3 Update; op 7 2 Delete; op 8 4 Update; op 9 3 Delete; op 10 4 Update;
    op 11 5 Delete; mkOperation 12 6 1 Update (Some 1) ].

Definition compressed_table : list Operation :=
  [ op 1 1 Insert; op 7 2 Delete; op 10 4 Update; op 11 5 Delete;
    mkOperation 12 6 1 Update (Some 1) ].

(** The history of one row: inserted, updated, deleted. *)
Definition history : list Operation := [ op 2 1 Update; op 1 1 Insert; op 3 1 Delete ].

(** A server whose ledger holds versions 1 to 3, with one operation each,
    and the rows 1 and 2 of content type 1. *)
Definition server : Database.t Z :=
  Database.mk
    [ Version.mk 1 100 1; Version.mk 2 200 2; Version.mk 3 300 1 ]
    [ mkOperation 1 1 1 Insert (Some 1); mkOperation 2 2 1 Insert (Some 2);
      mkOperation 3 1 1 Update (Some 3) ]
    [ Node.mk 1 10 None "secret one"; Node.mk 2 20 None "secret two" ]
    [ ContentType.mk 1 "A" ]
    {[ (1, 1) := 41; (2, 1) := 42 ]}.

(** Pushes of node 2 against version 3: an update of row 2 with the insert
    of row 3, and an update of row 9, which the server does not have. *)
Definition good_push : PushMessage.t Z :=
  PushMessage.mk 2 (Some 3) [ op 8 3 Insert; op 5 2 Update ]
    {[ (2, 1) := 52; (3, 1) := 53 ]} "signed by two".

Definition bad_push : PushMessage.t Z :=
  PushMessage.mk 2 (Some 3) [ op 5 2 Update; op 6 9 Update ]
    {[ (2, 1) := 52; (9, 1) := 59 ]} "signed by two".

(** The parameters of the handlers: the input is the parsed message or
    nothing, every signature is taken to be right, operations are performed
    as the spec says, and the values of a request are integers. *)
Definition parse_push (data : option (PushMessage.t Z)) : option (PushMessage.t Z) := data.
Definition islegit (message : PushMessage.t Z) (db : Database.t Z) : bool := true.
Definition repr (arg : Operation) : string := "<Operation>".
Definition py_int (value : Z) : option Z := Some value.
Definition now : Z := 400.

Definition push (data : option (PushMessage.t Z))
  : result (exn (option (PushMessage.t Z)) Operation) Z * Database.t Z * list LogEntry :=
  handle_push parse_push islegit perform_spec repr now data server [].

End Examples.

(** ** The rest of dbsync.client.compression *)

Module Maintenance.
Import Lang Models Compression Handlers.

(** Modelled from the spec: [lookup] and [maybe] of [dbsync.lang], which is
    not among the sources, as [unsynched_objects] uses them.
    [lookup(predicate, collection)] is the first element that satisfies the
    predicate, or [None]; [maybe(value, fn, default)] applies [fn] to a value
    that is not [None] and gives [default] otherwise. *)
Definition lookup {A : Type} (predicate : A → bool) (collection : list A) : option A :=
  find predicate collection.

Definition maybe {A B : Type} (value : option A) (fn : A → B) (default : B) : B :=
  match value with
  | Some x => fn x
  | None => default
  end.

Section unsynched.
Context {Class : Type}.
(** [core.synched_models], the registry of tracked classes by model name. *)
Variable synched_models : gmap string Class.

(** [getclass(ct_id)]; [synched_models.get(None, None)] is [None]. *)
Definition getclass (cts : list ContentType.t) (ct_id : Z) : option Class :=
  name ← maybe (lookup (λ ct, bool_decide (ContentType.content_type_id ct = ct_id)) cts)
           (λ ct, Some (ContentType.model_name ct)) None;
  synched_models !! name.

(** The triad of an operation whose class is tracked. *)
Definition triad (cts : list ContentType.t) (op : Operation) : option (Class * Z * Command) :=
  c ← getclass cts (content_type_id op);
  Some (c, row_id op, command op).

(** [unsynched_objects()], as a function of the content types and of the
    operations table: the table is compressed first, and the operations
    without a version are read in table order. *)
Definition unsynched_objects (cts : list ContentType.t) (table : list Operation)
  : result Compression.exn (list (Class * Z * Command)) :=
  table ← compress table;
  let ops := List.filter (λ op, bool_decide (version_id op = None)) table in
  Return (omap (triad cts) ops).
End unsynched.

(** [trim]: every operation that has a version is deleted, and every version
    but the latest.  [Operation.version_id != None] selects the rows whose
    version is not null; [Version.version_id != last_id] selects the rows
    whose id differs from the latest one, all of them when there is none. *)
Definition trim {Row : Type} (db : Database.t Row) : Database.t Row :=
  let last_id := get_latest_version_id db in
  Database.mk
    (List.filter (λ v, bool_decide (Some (Version.version_id v) = last_id))
       (Database.versions db))
    (List.filter (λ op, bool_decide (version_id op = None)) (Database.operations db))
    (Database.nodes db) (Database.content_types db) (Database.objects db).

(** The command that sums up a sequence given from newest to oldest: none
    for a row inserted and deleted, Insert for a row inserted, and otherwise
    the newest command. *)
Definition net_command (seq : list Operation) : option Command :=
  match head seq, last seq with
  | Some newest, Some oldest =>
      if is_command Insert oldest then
        if bool_decide (1 < length seq)%nat && is_command Delete newest then None
        else Some Insert
      else Some (command newest)
  | _, _ => None
  end.

End Maintenance.

(** ** The state of a server between requests *)

Module Ledger.
Import Models Handlers.

(** The versions are in ascending order of their id, [order] is a key of
    the operations table, and every operation that has a version has one of
    the ledger. *)
Definition consistent {Row : Type} (db : Database.t Row) : Prop :=
  StronglySorted Z.lt (map Version.version_id (Database.versions db)) ∧
  NoDup (map order (Database.operations db)) ∧
  ∀ op v, op ∈ Database.operations db → version_id op = Some v →
          v ∈ map Version.version_id (Database.versions db).

(** The rows that a push of [message] accepted as version [v] adds to the
    operations table: the operations in ascending order of the [order] the
    client gave them, under new consecutive keys. *)
Definition filed {Row : Type} (db : Database.t Row) (message : PushMessage.t Row) (v : Z)
  : list Operation :=
  imap (λ i op,
          mkOperation (next_key (map order (Database.operations db)) + Z.of_nat i)
            (row_id op) (content_type_id op) (command op) (Some v))
    (Lang.sorted order (PushMessage.operations message)).

End Ledger.

(** ** The query and repair handlers *)

Module Query.
Import Models Handlers.

(** A tracked class: its [__name__], and the names that [column_properties]
    of [dbsync.utils], which is not among the sources, gives for it. *)
Record Model := mkModel {
  __name__ : string;
  column_properties : list string
}.

(** [s.startswith(prefix)] and the slice [s[n:]]. *)
Fixpoint startswith (s prefix : string) : bool :=
  match prefix, s with
  | EmptyString, _ => true
  | String a prefix', String b s' => bool_decide (a = b) && startswith s' prefix'
  | String _ _, EmptyString => false
  end.

Fixpoint slice_from (n : nat) (s : string) : string :=
  match n, s with
  | O, _ => s
  | S n', String _ s' => slice_from n' s'
  | S _, EmptyString => EmptyString
  end.

Section query.
Context {Row Obj : Type}.
(** [core.synched_models]. *)
Variable synched_models : gmap string Model.
(** [query_model(session, model)]: the rows of the model. *)
Variable query_model : Model → list Obj.
(** [q.filter_by] with the filters as keyword arguments. *)
Variable filter_by : gmap string string → list Obj → list Obj.

(** The filter that one request parameter gives: its key without the prefix
    [mname + '_'], when what is left is not empty and names a column. *)
Definition query_filter (model : Model) (parameter : string * string)
  : option (string * string) :=
  let mname := __name__ model in
  let '(k, v) := parameter in
  if startswith k (mname +:+ "_") then
    let k := slice_from (String.length mname + 1) k in
    if negb (bool_decide (k = ""%string)) && bool_decide (k ∈ column_properties model)
    then Some (k, v)
    else None
  else None.

(** The dictionary [filters] of [handle_query]. *)
Definition query_filters (model : Model) (data : gmap string string) : gmap string string :=
  list_to_map (omap (query_filter model) (map_to_list data)).

(** [handle_query]: [None], or the objects added to the message. *)
Definition handle_query (data : gmap string string) : option (list Obj) :=
  match data !! "model"%string ≫= (synched_models !!.) with
  | None => None
  | Some model =>
      let filters := query_filters model data in
      let q := query_model model in
      let q := if bool_decide (filters = ∅) then q else filter_by filters q in
      Some q
  end.

(** [handle_repair]: the objects of every tracked class, and the latest
    version id. *)
Definition handle_repair (db : Database.t Row) : list Obj * option Z :=
  (flat_map query_model (map snd (map_to_list synched_models)),
   get_latest_version_id db).
End query.

End Query.

(** ** The dictionary of the interpreter *)

Module PyDict.
Import Lang Models Compression.

(** The code is Python 2 ([itervalues], [iteritems]), where a [dict] is a
    hash table and [itervalues] reads its slots in index order.  This is
    the table of CPython 2.7 on a 64-bit platform ([Objects/dictobject.c],
    [Objects/tupleobject.c], [Objects/intobject.c]), for the keys that
    [group_by] is given here: pairs of integers.  A key is never deleted,
    so a slot is either free or holds the hash and the key of an entry. *)

(** A C [long]: 64 bits, two's complement. *)
Definition long (x : Z) : Z := (x + 2 ^ 63) mod 2 ^ 64 - 2 ^ 63.

(** The same bits as a [size_t]. *)
Definition size_t (x : Z) : Z := x mod 2 ^ 64.

(** [int_hash]: the integer itself, and -2 for -1. *)
Definition int_hash (n : Z) : Z := if bool_decide (n = -1) then -2 else n.

(** [tuplehash] on a tuple of two integers. *)
Definition tuplehash (key : Z * Z) : Z :=
  let x := 3430008 (* 0x345678 *) in
  let mult := 1000003 in
  let x := long (Z.lxor x (int_hash key.1) * mult) in
  let mult := long (mult + (82520 + 1 + 1)) in
  let x := long (Z.lxor x (int_hash key.2) * mult) in
  let x := long (x + 97531) in
  if bool_decide (x = -1) then -2 else x.

Definition entry : Type := Z * (Z * Z).
Definition slots : Type := list (option entry).

Definition PyDict_MINSIZE : nat := 8.
Definition PERTURB_SHIFT : Z := 5.

(** A slot ends the search for [key] when it is free or holds [key]. *)
Definition found (key : Z * Z) (table : slots) (i : Z) : bool :=
  match table !! Z.to_nat i with
  | Some None => true
  | Some (Some (_, key')) => bool_decide (key' = key)
  | None => false
  end.

(** The probe loop of [lookdict].  The table always has a free slot, and
    the recurrence visits every slot once [perturb] is zero, which it is
    after 13 shifts: [lookdict] gives fuel for 64 probes and one more round
    of the table. *)
Fixpoint probe (fuel : nat) (key : Z * Z) (table : slots) (mask i perturb : Z) : option Z :=
  match fuel with
  | O => None
  | S fuel =>
      let i := size_t (Z.shiftl i 2 + i + perturb + 1) in
      if found key table (Z.land i mask) then Some (Z.land i mask)
      else probe fuel key table mask i (Z.shiftr perturb PERTURB_SHIFT)
  end.

Definition lookdict (key : Z * Z) (hash : Z) (table : slots) : option Z :=
  let mask := Z.of_nat (length table) - 1 in
  let i := Z.land (size_t hash) mask in
  if found key table i then Some i
  else probe (length table + 64) key table mask i (size_t hash).

Definition insertdict (table : slots) (e : entry) : slots :=
  match lookdict e.2 e.1 table with
  | Some i => <[Z.to_nat i := Some e]> table
  | None => table
  end.

(** [ma_used], which is [ma_fill] as well when nothing is deleted. *)
Definition ma_used (table : slots) : nat := length (omap id table).

Fixpoint newsize (fuel size minused : nat) : nat :=
  match fuel with
  | O => size
  | S fuel => if (size <=? minused)%nat then newsize fuel (2 * size) minused else size
  end.

(** [dictresize]: the entries are inserted into the new table in the order
    of their slots in the old one. *)
Definition dictresize (table : slots) (minused : nat) : slots :=
  fold_left insertdict (omap id table) (replicate (newsize 64 PyDict_MINSIZE minused) None).

(** [PyDict_SetItem]: the table grows to four times its entries (twice,
    above 50000 entries) when an insertion fills two thirds of it. *)
Definition PyDict_SetItem (table : slots) (key : Z * Z) : slots :=
  let n_used := ma_used table in
  let table := insertdict table (tuplehash key, key) in
  if bool_decide (n_used < ma_used table)%nat &&
     bool_decide (length table * 2 ≤ ma_used table * 3)%nat
  then dictresize table ((if bool_decide (50000 < Z.of_nat (ma_used table))%Z
                          then 2 else 4) * ma_used table)%nat
  else table.

(** The keys in the order of the slots. *)
Definition iterkeys (table : slots) : list (Z * Z) := map snd (omap id table).

(** The order in which CPython 2.7 iterates the dictionary that [group_by]
    built: the keys enter the table in the order of their first
    occurrence, which is the order of the groups of [Lang.group_by]. *)
Definition hash_order {V : Type} (groups : list (Z * Z * list V)) : list (Z * Z * list V) :=
  let table := fold_left PyDict_SetItem (map fst groups) (replicate PyDict_MINSIZE None) in
  omap (λ key, subcol ← get key groups; Some (key, subcol)) (iterkeys table).

(** [compressed_operations] as CPython 2.7 runs it. *)
Definition compressed_operations_cpython (operations : list Operation)
  : result exn (list Operation) :=
  compressed_operations_iter hash_order operations.

End PyDict.

(** ** Sample data of the maintenance routines and of the queries *)

Module Samples.
Import Models Handlers Query Examples.

(** What [compressed_operations] keeps of the sample table, and of its
    operations without a version. *)
Definition compressed_list : list Operation :=
  [ op 1 1 Insert; op 7 2 Delete; op 8 4 Update; op 11 5 Delete;
    mkOperation 12 6 1 Update (Some 1) ].

Definition compressed_unversioned : list Operation :=
  [ op 1 1 Insert; op 7 2 Delete; op 8 4 Update; op 11 5 Delete ].

(** Operations of which two share their [order]: the rows 1 and 2 updated,
    both at 5, and the rows 3 to 6 inserted and deleted. *)
Definition tied : list Operation :=
  [ op 5 1 Update; op 5 2 Update; op 1 3 Insert; op 2 3 Delete; op 3 4 Insert;
    op 4 4 Delete; op 6 5 Insert; op 7 5 Delete; op 8 6 Insert; op 9 6 Delete ].

(** The registry of a client that tracks the class of content type 1. *)
Definition classes : gmap string string := {[ "A"%string := "class A"%string ]}.

(** A tracked class with two columns, and its rows: an id and a name. *)
Definition city : Model := mkModel "City" ["id"; "name"]%string.

Definition registry : gmap string Model := {[ "City"%string := city ]}.

Definition cities (model : Model) : list (string * string) :=
  if bool_decide (__name__ model = "City"%string)
  then [("1", "Oslo"); ("2", "Rome"); ("3", "Rome")]%string
  else [].

Definition column (obj : string * string) (name : string) : option string :=
  if bool_decide (name = "id"%string) then Some obj.1
  else if bool_decide (name = "name"%string) then Some obj.2
  else None.

(** The rows whose columns have the values of the filters. *)
Definition select (filters : gmap string string) (q : list (string * string))
  : list (string * string) :=
  List.filter
    (λ obj, forallb (λ kv, bool_decide (column obj kv.1 = Some kv.2)) (map_to_list filters))
    q.

(** A query for the cities named Rome, with a parameter that is no filter,
    and the same query without it. *)
Definition request : gmap string string :=
  {[ "model" := "City"; "City_name" := "Rome"; "page" := "2" ]}%string.

Definition plain_request : gmap string string :=
  {[ "model" := "City"; "City_name" := "Rome" ]}%string.

End Samples.

(** * Facts *)

(** ** Loops *)

Lemma for_each_app {E A S : Type} (body : S → A → result E S) (s : S) (l1 l2 : list A) :
  for_each body s (l1 ++ l2) = (s' ← for_each body s l1; for_each body s' l2).
Proof.
  revert s. induction l1 as [|x l1 IH]; intros s; simpl; [done|].
  destruct (body s x) as [s'|e]; simpl; [apply IH|done].
Qed.

(** A loop whose body appends a list that depends on the element only. *)
Lemma for_each_appends {E A B : Type} (body : list B → A → result E (list B))
    (out : A → list B) (col : list A) (acc : list B) :
  Forall (λ x, ∀ acc, body acc x = Return (acc ++ out x)) col →
  for_each body acc col = Return (acc ++ flat_map out col).
Proof.
  revert acc. induction col as [|x col IH]; intros acc Hall; simpl.
  - by rewrite app_nil_r.
  - inversion Hall as [|? ? Hx Hcol]; subst.
    rewrite Hx. simpl. rewrite IH by done. by rewrite app_assoc.
Qed.

(** ** Stable sorting *)

Module SortedFacts.
Import Lang.

Section sorted.
Context {A : Type} (key : A → Z).

Lemma insert_sorted_perm (x : A) (l : list A) : insert_sorted key x l ≡ₚ x :: l.
Proof.
  induction l as [|y l IH]; simpl; [done|].
  destruct (key x <=? key y); [done|].
  rewrite IH. apply perm_swap.
Qed.

Lemma sorted_perm (l : list A) : sorted key l ≡ₚ l.
Proof.
  induction l as [|x l IH]; simpl; [done|].
  by rewrite insert_sorted_perm, IH.
Qed.

Lemma insert_sorted_StronglySorted (x : A) (l : list A) :
  StronglySorted (key_le key) l → StronglySorted (key_le key) (insert_sorted key x l).
Proof.
  induction 1 as [|y l Hl IH Hy]; simpl.
  - repeat constructor.
  - destruct (Z.leb_spec (key x) (key y)) as [Hxy|Hxy].
    + constructor; [by constructor|].
      constructor; [done|].
      eapply Forall_impl; [exact Hy|]. unfold key_le. intros z Hz. lia.
    + constructor; [done|].
      rewrite insert_sorted_perm. constructor; [|done]. unfold key_le. lia.
Qed.

Lemma sorted_StronglySorted (l : list A) : StronglySorted (key_le key) (sorted key l).
Proof.
  induction l as [|x l IH]; simpl; [constructor|].
  by apply insert_sorted_StronglySorted.
Qed.

Lemma insert_sorted_least (x : A) (l : list A) :
  Forall (key_le key x) l → insert_sorted key x l = x :: l.
Proof.
  destruct 1 as [|y l Hy _]; simpl; [done|].
  unfold key_le in Hy. by rewrite (proj2 (Z.leb_le _ _) Hy).
Qed.

(** Sorting a sorted list changes nothing. *)
Lemma sorted_id (l : list A) : StronglySorted (key_le key) l → sorted key l = l.
Proof.
  induction 1 as [|x l Hl IH Hx]; simpl; [done|].
  rewrite IH. by apply insert_sorted_least.
Qed.

Lemma sorted_idemp (l : list A) : sorted key (sorted key l) = sorted key l.
Proof. apply sorted_id, sorted_StronglySorted. Qed.

Lemma filter_insert_sorted (p : A → bool) (x : A) (l : list A) :
  StronglySorted (key_le key) l →
  List.filter p (insert_sorted key x l) =
  if p x then insert_sorted key x (List.filter p l) else List.filter p l.
Proof.
  induction 1 as [|y l Hl IH Hy]; simpl.
  - by destruct (p x).
  - destruct (Z.leb_spec (key x) (key y)) as [Hxy|Hxy]; simpl.
    + destruct (p x) eqn:Hpx; [|done].
      destruct (p y); simpl.
      * by rewrite (proj2 (Z.leb_le _ _) Hxy).
      * symmetry. apply insert_sorted_least.
        apply Forall_forall. intros z Hz.
        apply list_elem_of_In, filter_In in Hz as [Hz _].
        rewrite Forall_forall in Hy. apply list_elem_of_In, Hy in Hz.
        unfold key_le in *. lia.
    + rewrite IH. destruct (p y), (p x); simpl; try done.
      by rewrite (proj2 (Z.leb_gt _ _) Hxy).
Qed.

(** A stable sort commutes with a filter. *)
Lemma sorted_filter (p : A → bool) (l : list A) :
  sorted key (List.filter p l) = List.filter p (sorted key l).
Proof.
  induction l as [|x l IH]; simpl; [done|].
  rewrite filter_insert_sorted by apply sorted_StronglySorted.
  destruct (p x); simpl; by rewrite IH.
Qed.

Lemma StronglySorted_key_lt (l : list A) :
  StronglySorted (key_le key) l → NoDup (map key l) → StronglySorted (key_lt key) l.
Proof.
  induction 1 as [|x l Hl IH Hx]; simpl; intros Hnd; [constructor|].
  apply NoDup_cons in Hnd as [Hnotin Hnd].
  constructor; [by apply IH|].
  apply Forall_forall. intros y Hy.
  rewrite Forall_forall in Hx. specialize (Hx y Hy).
  assert (key x ≠ key y).
  { intros Heq. apply Hnotin. rewrite Heq. by apply list_elem_of_fmap_2. }
  unfold key_le, key_lt in *. lia.
Qed.

(** When the key is injective on the list, the sorted list does not depend
    on the order in which the elements are given. *)
Lemma sorted_unique (l1 l2 : list A) :
  l1 ≡ₚ l2 → NoDup (map key l1) → sorted key l1 = sorted key l2.
Proof.
  intros Hperm Hnd.
  assert (AntiSymm eq (key_lt key)) as Hanti.
  { intros x y. unfold key_lt. lia. }
  apply (StronglySorted_unique (key_lt key)).
  - apply StronglySorted_key_lt; [apply sorted_StronglySorted|].
    by rewrite sorted_perm.
  - apply StronglySorted_key_lt; [apply sorted_StronglySorted|].
    by rewrite sorted_perm, <- Hperm.
  - by rewrite !sorted_perm.
Qed.

End sorted.
End SortedFacts.

(** ** Grouping *)

Module GroupFacts.
Import Lang.

Section group_by.
Context {K A : Type} `{EqDecision K} (fn : A → K).

Lemma get_elem_of (k : K) (s : list A) (groups : list (K * list A)) :
  get k groups = Some s → (k, s) ∈ groups.
Proof.
  induction groups as [|[k' s'] groups IH]; simpl; [done|].
  destruct (decide (k = k')) as [->|Hne].
  - intros [= ->]. left.
  - intros Hget. right. by apply IH.
Qed.

Lemma get_None (k : K) (groups : list (K * list A)) :
  get k groups = None ↔ k ∉ map fst groups.
Proof.
  induction groups as [|[k' s'] groups IH]; simpl.
  - split; [intros _; apply not_elem_of_nil|done].
  - rewrite not_elem_of_cons. destruct (decide (k = k')) as [->|Hne]; simpl.
    + split; [done|]. by intros [? _].
    + rewrite IH. tauto.
Qed.

Lemma elem_of_get (k : K) (s : list A) (groups : list (K * list A)) :
  NoDup (map fst groups) → (k, s) ∈ groups → get k groups = Some s.
Proof.
  induction groups as [|[k' s'] groups IH]; simpl; intros Hnd Hin.
  - by apply elem_of_nil in Hin.
  - apply NoDup_cons in Hnd as [Hk' Hnd].
    apply elem_of_cons in Hin as [[= <- <-]|Hin].
    + by rewrite decide_True.
    + destruct (decide (k = k')) as [->|Hne]; [|by apply IH].
      exfalso. apply Hk'.
      change k' with (fst (k', s)). by apply list_elem_of_fmap_2.
Qed.

Lemma get_group_add (k k' : K) (e : A) (groups : list (K * list A)) :
  get k' (group_add k e groups) =
  if decide (k' = k) then Some (default [] (get k groups) ++ [e]) else get k' groups.
Proof.
  induction groups as [|[k0 s0] groups IH]; simpl.
  - by destruct (decide (k' = k)).
  - destruct (decide (k = k0)) as [->|Hne]; simpl.
    + by destruct (decide (k' = k0)).
    + destruct (decide (k' = k0)) as [->|Hne'].
      * by rewrite decide_False by done.
      * apply IH.
Qed.

Lemma keys_group_add (k : K) (e : A) (groups : list (K * list A)) :
  map fst (group_add k e groups) =
  if decide (k ∈ map fst groups) then map fst groups else map fst groups ++ [k].
Proof.
  induction groups as [|[k0 s0] groups IH]; simpl.
  - destruct (decide (k ∈ [])) as [Hin|_]; [|done]. by apply elem_of_nil in Hin.
  - destruct (decide (k = k0)) as [->|Hne]; simpl.
    + rewrite decide_True; [done|left].
    + rewrite IH. destruct (decide (k ∈ map fst groups)) as [Hin|Hnotin].
      * rewrite decide_True; [done|by right].
      * rewrite decide_False; [done|].
        rewrite not_elem_of_cons. done.
Qed.

Lemma NoDup_keys_group_add (k : K) (e : A) (groups : list (K * list A)) :
  NoDup (map fst groups) → NoDup (map fst (group_add k e groups)).
Proof.
  intros Hnd. rewrite keys_group_add. case_decide; [done|].
  apply NoDup_app. split_and!; [done| |apply NoDup_singleton].
  intros x Hx ->%list_elem_of_singleton. done.
Qed.

Lemma NoDup_keys_group_into (groups : list (K * list A)) (col : list A) :
  NoDup (map fst groups) → NoDup (map fst (group_into fn groups col)).
Proof.
  revert groups. induction col as [|e col IH]; intros groups Hnd; simpl; [done|].
  apply IH. by apply NoDup_keys_group_add.
Qed.

Lemma get_group_into (k : K) (groups : list (K * list A)) (col : list A) :
  get k (group_into fn groups col) =
  match get k groups, members fn k col with
  | None, [] => None
  | o, m => Some (default [] o ++ m)
  end.
Proof.
  revert groups. induction col as [|e col IH]; intros groups; simpl.
  - destruct (get k groups); simpl; [by rewrite app_nil_r|done].
  - fold (group_into fn (group_add (fn e) e groups) col).
    rewrite IH, get_group_add. unfold members. simpl.
    destruct (decide (k = fn e)) as [->|Hne].
    + rewrite bool_decide_eq_true_2 by done. simpl.
      rewrite <- app_assoc. simpl. by destruct (get (fn e) groups).
    + rewrite bool_decide_eq_false_2 by done. done.
Qed.

Lemma NoDup_keys_group_by (col : list A) : NoDup (map fst (group_by fn col)).
Proof. apply NoDup_keys_group_into. constructor. Qed.

Lemma get_group_by (k : K) (col : list A) :
  get k (group_by fn col) =
  match members fn k col with
  | [] => None
  | m => Some m
  end.
Proof. unfold group_by. rewrite get_group_into. simpl. by destruct (members fn k col). Qed.

(** A group holds the members of its key, in the order of the collection,
    and it is never empty. *)
Lemma elem_of_group_by (k : K) (s : list A) (col : list A) :
  (k, s) ∈ group_by fn col ↔ s = members fn k col ∧ s ≠ [].
Proof.
  split.
  - intros Hin. apply elem_of_get in Hin; [|apply NoDup_keys_group_by].
    rewrite get_group_by in Hin. destruct (members fn k col); [done|].
    by injection Hin as <-.
  - intros [-> Hne]. apply get_elem_of. rewrite get_group_by.
    by destruct (members fn k col).
Qed.

Lemma elem_of_members (k : K) (e : A) (col : list A) :
  e ∈ members fn k col ↔ e ∈ col ∧ fn e = k.
Proof.
  unfold members. rewrite !list_elem_of_In, filter_In, bool_decide_eq_true. done.
Qed.

Lemma group_by_nonempty (col : list A) :
  Forall (λ s, s ≠ []) (itervalues (group_by fn col)).
Proof.
  apply Forall_forall. intros s Hs.
  apply list_elem_of_fmap in Hs as ([k s'] & -> & Hin).
  by apply elem_of_group_by in Hin as [_ ?].
Qed.

Lemma concat_group_add (k : K) (e : A) (groups : list (K * list A)) :
  concat (itervalues (group_add k e groups)) ≡ₚ e :: concat (itervalues groups).
Proof.
  induction groups as [|[k0 s0] groups IH]; simpl; [done|].
  destruct (decide (k = k0)) as [->|Hne]; simpl.
  - rewrite <- app_assoc. simpl.
    by rewrite <- Permutation_middle.
  - unfold itervalues in IH. rewrite IH.
    by rewrite <- Permutation_middle.
Qed.

Lemma concat_group_into (groups : list (K * list A)) (col : list A) :
  concat (itervalues (group_into fn groups col)) ≡ₚ concat (itervalues groups) ++ col.
Proof.
  revert groups. induction col as [|e col IH]; intros groups; simpl.
  - by rewrite app_nil_r.
  - fold (group_into fn (group_add (fn e) e groups) col).
    rewrite IH, concat_group_add.
    by rewrite <- Permutation_middle.
Qed.

(** The groups partition the collection. *)
Lemma concat_group_by (col : list A) : concat (itervalues (group_by fn col)) ≡ₚ col.
Proof. unfold group_by. by rewrite concat_group_into. Qed.

Lemma group_into_distinct (groups : list (K * list A)) (col : list A) :
  NoDup (map fst groups ++ map fn col) →
  group_into fn groups col = groups ++ map (λ e, (fn e, [e])) col.
Proof.
  revert groups. induction col as [|e col IH]; intros groups Hnd; simpl.
  - by rewrite app_nil_r.
  - assert (group_add (fn e) e groups = groups ++ [(fn e, [e])]) as ->.
    { apply NoDup_app in Hnd as (_ & Hdisj & _).
      assert (fn e ∉ map fst groups) as Hnotin.
      { intros Hin. apply (Hdisj _ Hin). simpl. left. }
      clear -Hnotin. induction groups as [|[k0 s0] groups IH]; simpl; [done|].
      simpl in Hnotin. apply not_elem_of_cons in Hnotin as [Hne Hnotin].
      rewrite decide_False by done. by rewrite IH. }
    fold (group_into fn (groups ++ [(fn e, [e])]) col). rewrite IH.
    + by rewrite <- app_assoc.
    + rewrite map_app. simpl. rewrite <- app_assoc. done.
Qed.

(** When no two elements share a key, every group is a singleton, in the
    order of the collection. *)
Lemma group_by_distinct (col : list A) :
  NoDup (map fn col) → group_by fn col = map (λ e, (fn e, [e])) col.
Proof. intros Hnd. unfold group_by. by rewrite group_into_distinct. Qed.

Lemma group_into_single (k : K) (s col : list A) :
  (∀ e, e ∈ col → fn e = k) → group_into fn [(k, s)] col = [(k, s ++ col)].
Proof.
  revert s. induction col as [|e col IH]; intros s Hall; simpl.
  - by rewrite app_nil_r.
  - rewrite decide_True by (apply Hall; left).
    fold (group_into fn [(k, s ++ [e])] col). rewrite IH.
    + by rewrite <- app_assoc.
    + intros e' He'. apply Hall. by right.
Qed.

(** A collection with a single key forms a single group. *)
Lemma group_by_single (k : K) (col : list A) :
  col ≠ [] → (∀ e, e ∈ col → fn e = k) → group_by fn col = [(k, col)].
Proof.
  destruct col as [|e col]; [done|]. intros _ Hall.
  unfold group_by. simpl. fold (group_into fn [(fn e, [e])] col).
  rewrite (Hall e) by left. apply group_into_single.
  intros e' He'. apply Hall. by right.
Qed.

End group_by.
End GroupFacts.

(** ** Commands and list ends *)

Module CommandFacts.
Import Lang Models Compression.

Lemma andmap_all_updates (seq : list Operation) :
  andmap (is_command Update) seq = true ↔ all_updates seq.
Proof.
  unfold andmap, all_updates, is_command.
  rewrite forallb_forall, Forall_forall.
  split; intros H op Hop.
  - apply list_elem_of_In, H in Hop. by apply bool_decide_eq_true in Hop.
  - apply bool_decide_eq_true. by apply H, list_elem_of_In.
Qed.

Lemma is_command_eq (c : Command) (op : Operation) :
  command op = c → is_command c op = true.
Proof. intros. by apply bool_decide_eq_true_2. Qed.

Lemma is_command_ne (c : Command) (op : Operation) :
  command op ≠ c → is_command c op = false.
Proof. intros. by apply bool_decide_eq_false_2. Qed.

Ltac commands :=
  repeat first [rewrite is_command_eq by congruence | rewrite is_command_ne by congruence].

Lemma last_cons_is_Some {A : Type} (x : A) (l : list A) : is_Some (last (x :: l)).
Proof. rewrite last_cons. destruct (last l); eauto. Qed.

Lemma filter_keep_all {A : Type} (p : A → bool) (l : list A) :
  (∀ x, x ∈ l → p x = true) → List.filter p l = l.
Proof.
  induction l as [|x l IH]; simpl; intros Hall; [done|].
  rewrite Hall by left. f_equal. apply IH. intros y Hy. apply Hall. by right.
Qed.

Lemma filter_drop_all {A : Type} (p : A → bool) (l : list A) :
  (∀ x, x ∈ l → p x = false) → List.filter p l = [].
Proof.
  induction l as [|x l IH]; simpl; intros Hall; [done|].
  rewrite Hall by left. apply IH. intros y Hy. apply Hall. by right.
Qed.

(** Removing the elements of one half of a list without duplicates leaves
    the other half. *)
Lemma filter_out_l {A : Type} `{EqDecision A} (l1 l2 : list A) :
  NoDup (l1 ++ l2) → List.filter (λ x, negb (bool_decide (x ∈ l1))) (l1 ++ l2) = l2.
Proof.
  intros (_ & Hdisj & _)%NoDup_app. rewrite List.filter_app.
  rewrite filter_drop_all, filter_keep_all; [done| |].
  - intros x Hx. rewrite bool_decide_eq_false_2; [done|].
    intros Hx'. by apply (Hdisj x).
  - intros x Hx. by rewrite bool_decide_eq_true_2.
Qed.

Lemma filter_out_r {A : Type} `{EqDecision A} (l1 l2 : list A) :
  NoDup (l1 ++ l2) → List.filter (λ x, negb (bool_decide (x ∈ l2))) (l1 ++ l2) = l1.
Proof.
  intros (_ & Hdisj & _)%NoDup_app. rewrite List.filter_app.
  rewrite filter_keep_all, filter_drop_all; [by rewrite app_nil_r| |].
  - intros x Hx. by rewrite bool_decide_eq_true_2.
  - intros x Hx. rewrite bool_decide_eq_false_2; [done|].
    intros Hx'. by apply (Hdisj x).
Qed.

End CommandFacts.

(** ** In-memory compression *)

Module PureFacts.
Import Lang Models Compression SortedFacts GroupFacts CommandFacts.

(** The loop body on a run that is not empty, as one expression. *)
Lemma compressed_step_cons (compressed rest : list Operation) (seq0 seq_1 : Operation) :
  last (seq0 :: rest) = Some seq_1 →
  compressed_step compressed (seq0 :: rest) =
  Return (compressed ++
    if is_command Insert seq0 && andmap (is_command Update) rest then [seq0]
    else if is_command Update seq0 then
      if andmap (is_command Update) rest then [seq0]
      else if is_command Delete seq_1 then [seq_1] else []
    else if bool_decide (length (seq0 :: rest) = 1%nat) then [seq0] else []).
Proof.
  intros Hlast. unfold compressed_step, first_item, last_item.
  rewrite Hlast. change (head (seq0 :: rest)) with (Some seq0).
  change (tail (seq0 :: rest)) with rest. cbn [mbind result_bind].
  destruct (is_command Insert seq0), (andmap (is_command Update) rest),
    (is_command Update seq0), (is_command Delete seq_1),
    (bool_decide (length (seq0 :: rest) = 1%nat));
    cbn [andb mbind result_bind]; by rewrite ?app_nil_r.
Qed.

Lemma contribution_cons (rest : list Operation) (seq0 seq_1 : Operation) :
  last (seq0 :: rest) = Some seq_1 →
  contribution (seq0 :: rest) =
    if is_command Insert seq0 && andmap (is_command Update) rest then [seq0]
    else if is_command Update seq0 then
      if andmap (is_command Update) rest then [seq0]
      else if is_command Delete seq_1 then [seq_1] else []
    else if bool_decide (length (seq0 :: rest) = 1%nat) then [seq0] else [].
Proof.
  intros Hlast. unfold contribution. by rewrite (compressed_step_cons _ _ _ _ Hlast).
Qed.

Lemma compressed_step_contribution (seq compressed : list Operation) :
  seq ≠ [] → compressed_step compressed seq = Return (compressed ++ contribution seq).
Proof.
  destruct seq as [|seq0 rest]; [done|]. intros _.
  destruct (last_cons_is_Some seq0 rest) as [seq_1 Hlast].
  by rewrite (compressed_step_cons _ _ _ _ Hlast), (contribution_cons _ _ _ Hlast).
Qed.

Lemma contribution_insert (i : Operation) (updates : list Operation) :
  command i = Insert → all_updates updates → contribution (i :: updates) = [i].
Proof.
  intros Hi Hu%andmap_all_updates.
  destruct (last_cons_is_Some i updates) as [seq_1 Hlast].
  rewrite (contribution_cons _ _ _ Hlast), Hu. by commands.
Qed.

Lemma contribution_updates (u : Operation) (updates : list Operation) :
  all_updates (u :: updates) → contribution (u :: updates) = [u].
Proof.
  intros [Hu Hus%andmap_all_updates]%Forall_cons.
  destruct (last_cons_is_Some u updates) as [seq_1 Hlast].
  rewrite (contribution_cons _ _ _ Hlast), Hus. by commands.
Qed.

Lemma contribution_delete (u d : Operation) (middle : list Operation) :
  command u = Update → command d = Delete → contribution (u :: middle ++ [d]) = [d].
Proof.
  intros Hu Hd.
  assert (andmap (is_command Update) (middle ++ [d]) = false) as Hnot.
  { apply not_true_is_false. rewrite andmap_all_updates. unfold all_updates.
    rewrite Forall_app, Forall_singleton. intros [_ Hd']. congruence. }
  rewrite (contribution_cons _ _ d), Hnot; [by commands|].
  by rewrite app_comm_cons, last_snoc.
Qed.

Lemma contribution_singleton (op : Operation) : contribution [op] = [op].
Proof.
  rewrite (contribution_cons _ _ op) by done. simpl.
  unfold is_command. by destruct (command op).
Qed.

(** A run that has none of the handled shapes adds nothing. *)
Lemma contribution_unhandled (run : list Operation) :
  ¬ handled run → contribution run = [].
Proof.
  intros Hnot. destruct run as [|seq0 rest]; [done|].
  destruct (last_cons_is_Some seq0 rest) as [seq_1 Hlast].
  rewrite (contribution_cons _ _ _ Hlast).
  assert (bool_decide (length (seq0 :: rest) = 1%nat) = false) as ->.
  { apply bool_decide_eq_false_2. intros Hlen. apply Hnot. by repeat right. }
  destruct (andmap (is_command Update) rest) eqn:Hrest.
  - apply andmap_all_updates in Hrest.
    destruct (command seq0) eqn:Hc; commands; try done; exfalso; apply Hnot.
    + left. by exists seq0, rest.
    + right. left. split; [done|]. by apply Forall_cons.
  - rewrite andb_false_r.
    destruct (command seq0) eqn:Hc; commands; try done.
    destruct (decide (command seq_1 = Delete)) as [Hd|Hd]; commands; [|done].
    exfalso. apply Hnot. right. right. left.
    apply last_Some in Hlast as [pre Hpre].
    destruct pre as [|u middle].
    + injection Hpre as -> ->. congruence.
    + injection Hpre as -> ->. by exists u, middle, seq_1.
Qed.

(** An operation that a run adds is the oldest or the newest of the run. *)
Lemma contribution_sublist (run : list Operation) : contribution run `sublist_of` run.
Proof.
  destruct run as [|seq0 rest]; [done|].
  destruct (last_cons_is_Some seq0 rest) as [seq_1 Hlast].
  rewrite (contribution_cons _ _ _ Hlast).
  assert ([seq0] `sublist_of` seq0 :: rest) as H0.
  { apply sublist_skip, sublist_nil_l. }
  assert ([seq_1] `sublist_of` seq0 :: rest) as H1.
  { apply last_Some in Hlast as [pre ->]. by apply sublist_inserts_l. }
  assert ([] `sublist_of` seq0 :: rest) as Hnil by apply sublist_nil_l.
  repeat case_match; done.
Qed.

Lemma contribution_length (run : list Operation) : (length (contribution run) ≤ 1)%nat.
Proof.
  destruct run as [|seq0 rest]; [simpl; lia|].
  destruct (last_cons_is_Some seq0 rest) as [seq_1 Hlast].
  rewrite (contribution_cons _ _ _ Hlast). repeat case_match; simpl; lia.
Qed.

Lemma contribution_elem_of (run : list Operation) (op : Operation) :
  op ∈ contribution run → op ∈ run.
Proof. intros Hop. eapply elem_of_sublist; [done|apply contribution_sublist]. Qed.

Lemma flat_map_contribution_sublist (seqs : list (list Operation)) :
  flat_map contribution seqs `sublist_of` concat seqs.
Proof.
  induction seqs as [|seq seqs IH]; simpl; [done|].
  apply sublist_app; [apply contribution_sublist|done].
Qed.

(** [compressed_operations] never raises: it returns the sorted
    contributions of the runs, whatever the iteration order. *)
Lemma compressed_operations_iter_eq
    (iteration : list (Z * Z * list Operation) → list (Z * Z * list Operation))
    (operations : list Operation) :
  (∀ groups, iteration groups ≡ₚ groups) →
  compressed_operations_iter iteration operations =
  Return (sorted order (flat_map contribution
            (itervalues (iteration (group_by subject (sorted order operations)))))).
Proof.
  intros Hperm. unfold compressed_operations_iter.
  rewrite (for_each_appends _ contribution); [done|].
  apply Forall_forall. intros seq Hseq acc.
  apply compressed_step_contribution.
  unfold itervalues in Hseq. rewrite Hperm in Hseq.
  pose proof (group_by_nonempty subject (sorted order operations)) as Hne.
  rewrite Forall_forall in Hne. by apply Hne.
Qed.

Lemma compressed_operations_eq (operations : list Operation) :
  compressed_operations operations =
  Return (sorted order (flat_map contribution (runs operations))).
Proof. unfold compressed_operations. by rewrite compressed_operations_iter_eq. Qed.

(** A run is the set of operations of one subject, oldest first. *)
Lemma elem_of_runs (operations run : list Operation) :
  run ∈ runs operations ↔
  run ≠ [] ∧ ∃ k, run = sorted order (members subject k operations).
Proof.
  unfold runs, itervalues. rewrite list_elem_of_fmap. split.
  - intros ([k s] & -> & [Hs Hne]%elem_of_group_by). split; [done|].
    exists k. simpl. rewrite Hs. unfold members. by rewrite sorted_filter.
  - intros (Hne & k & ->). exists (k, sorted order (members subject k operations)).
    split; [done|]. apply elem_of_group_by. split; [|done].
    unfold members. by rewrite sorted_filter.
Qed.

Lemma runs_partition (operations : list Operation) : concat (runs operations) ≡ₚ operations.
Proof. unfold runs. by rewrite concat_group_by, sorted_perm. Qed.

Lemma run_subject (operations run : list Operation) (op op' : Operation) :
  run ∈ runs operations → op ∈ run → op' ∈ run → subject op = subject op'.
Proof.
  intros (_ & k & ->)%elem_of_runs Hop Hop'.
  rewrite sorted_perm in Hop, Hop'.
  apply elem_of_members in Hop as [_ ->]. by apply elem_of_members in Hop' as [_ ->].
Qed.

(** Two runs that share a subject are the same run. *)
Lemma runs_disjoint (operations run run' : list Operation) (op op' : Operation) :
  run ∈ runs operations → run' ∈ runs operations →
  op ∈ run → op' ∈ run' → subject op = subject op' → run = run'.
Proof.
  intros (_ & k & ->)%elem_of_runs (_ & k' & ->)%elem_of_runs Hop Hop' Heq.
  rewrite sorted_perm in Hop, Hop'.
  apply elem_of_members in Hop as [_ <-]. apply elem_of_members in Hop' as [_ <-].
  by rewrite Heq.
Qed.

Lemma elem_of_flat_map_contribution (seqs : list (list Operation)) (op : Operation) :
  op ∈ flat_map contribution seqs ↔ ∃ run, run ∈ seqs ∧ op ∈ contribution run.
Proof.
  rewrite list_elem_of_In, in_flat_map. setoid_rewrite list_elem_of_In. done.
Qed.

(** The compressed list holds at most one operation per subject. *)
Lemma NoDup_subject_contributions (groups : list (Z * Z * list Operation)) :
  NoDup (map fst groups) →
  (∀ k s op, (k, s) ∈ groups → op ∈ s → subject op = k) →
  NoDup (map subject (flat_map contribution (itervalues groups))).
Proof.
  induction groups as [|[k s] groups IH]; simpl; intros Hnd Hsub; [constructor|].
  apply NoDup_cons in Hnd as [Hk Hnd].
  rewrite map_app. apply NoDup_app. split_and!.
  - pose proof (contribution_length s) as Hlen.
    destruct (contribution s) as [|x [|y c]]; simpl in *; try lia.
    + constructor.
    + apply NoDup_singleton.
  - intros x Hx Hx'.
    apply list_elem_of_fmap in Hx as (op & -> & Hop%contribution_elem_of).
    apply list_elem_of_fmap in Hx' as (op' & Heq & Hop').
    apply elem_of_flat_map_contribution in Hop' as (run & Hrun & Hop'%contribution_elem_of).
    apply list_elem_of_fmap in Hrun as ([k' s'] & -> & Hin).
    apply Hk. rewrite <- (Hsub k s op) by (done || left).
    rewrite Heq, (Hsub k' s' op') by (done || by right).
    change k' with (fst (k', s')). by apply list_elem_of_fmap_2.
  - apply IH; [done|]. intros k' s' op Hin. apply Hsub. by right.
Qed.

Lemma NoDup_subject_compressed (operations : list Operation) :
  NoDup (map subject (flat_map contribution (runs operations))).
Proof.
  apply NoDup_subject_contributions; [apply NoDup_keys_group_by|].
  intros k s op [-> _]%elem_of_group_by Hop. by apply elem_of_members in Hop as [_ ?].
Qed.

(** The result does not depend on the order in which the dictionary of runs
    is iterated, as long as no two operations share their [order]. *)
Lemma compressed_operations_any_iteration_order
    (iteration : list (Z * Z * list Operation) → list (Z * Z * list Operation))
    (operations : list Operation) :
  (∀ groups, iteration groups ≡ₚ groups) →
  NoDup (map order operations) →
  compressed_operations_iter iteration operations = compressed_operations operations.
Proof.
  intros Hperm Hnd.
  rewrite compressed_operations_eq, compressed_operations_iter_eq by done.
  f_equal. apply sorted_unique.
  - apply Permutation_flat_map. unfold runs, itervalues. by rewrite Hperm.
  - unfold itervalues. rewrite Hperm.
    apply (sublist_NoDup _ (map order (concat (runs operations)))).
    + by rewrite runs_partition.
    + apply fmap_sublist, flat_map_contribution_sublist.
Qed.

(** Compressing a compressed list gives it back. *)
Lemma compressed_operations_idempotent (operations compressed : list Operation) :
  compressed_operations operations = Return compressed →
  compressed_operations compressed = Return compressed.
Proof.
  rewrite compressed_operations_eq. intros [= <-].
  set (kept := flat_map contribution (runs operations)).
  rewrite compressed_operations_eq. f_equal.
  assert (runs (sorted order kept) = map (λ op, [op]) (sorted order kept)) as ->.
  { unfold runs. rewrite sorted_idemp, group_by_distinct.
    - unfold itervalues. rewrite map_map. done.
    - rewrite sorted_perm. apply NoDup_subject_compressed. }
  assert (∀ l, flat_map contribution (map (λ op, [op]) l) = l) as ->.
  { induction l as [|op l IH]; simpl; [done|].
    by rewrite contribution_singleton, IH. }
  apply sorted_idemp.
Qed.

(** C4: [compressed_operations] returns, in ascending [order], what the runs
    contribute.  The runs partition the operations by subject, each in
    ascending [order]; a run made of an Insert followed by Updates only
    contributes the Insert, a run of Updates only contributes one Update,
    a run that leads with an Update and ends in a Delete contributes the
    Delete, and a run of one operation contributes that operation. *)
Theorem compressed_operations_runs (operations : list Operation) :
  ∃ compressed,
    compressed_operations operations = Return compressed ∧
    StronglySorted (key_le order) compressed ∧
    compressed ≡ₚ flat_map contribution (runs operations) ∧
    concat (runs operations) ≡ₚ operations ∧
    Forall (λ run,
      run ≠ [] ∧
      (∃ k, run = sorted order (members subject k operations)) ∧
      (∀ i updates, run = i :: updates → command i = Insert → all_updates updates →
         contribution run = [i]) ∧
      (∀ u updates, run = u :: updates → all_updates run → contribution run = [u]) ∧
      (∀ u middle d, run = u :: middle ++ [d] → command u = Update → command d = Delete →
         contribution run = [d]) ∧
      (∀ op, run = [op] → contribution run = [op])) (runs operations).
Proof.
  exists (sorted order (flat_map contribution (runs operations))). split_and!.
  - apply compressed_operations_eq.
  - apply sorted_StronglySorted.
  - apply sorted_perm.
  - apply runs_partition.
  - apply Forall_forall. intros run [Hne Hk]%elem_of_runs. split_and!; try done.
    + intros i updates -> Hi Hu. by apply contribution_insert.
    + intros u updates -> Hu. by apply contribution_updates.
    + intros u middle d -> Hu Hd. by apply contribution_delete.
    + intros op ->. apply contribution_singleton.
Qed.

(** C10: [compressed_operations] validates nothing and never raises.  A run
    of more than one operation that has none of the handled shapes, in
    particular any run whose oldest operation is a Delete, adds nothing and
    leaves no operation of its subject in the returned list. *)
Theorem compressed_operations_omits_unhandled (operations : list Operation) :
  ∃ compressed,
    compressed_operations operations = Return compressed ∧
    ∀ run, run ∈ runs operations → (1 < length run)%nat →
      (¬ handled run ∨ ∃ d rest, run = d :: rest ∧ command d = Delete) →
      contribution run = [] ∧
      ∀ op op', op ∈ run → op' ∈ compressed → subject op' ≠ subject op.
Proof.
  exists (sorted order (flat_map contribution (runs operations))).
  split; [apply compressed_operations_eq|].
  intros run Hrun Hlen Hshape.
  assert (contribution run = []) as Hnone.
  { apply contribution_unhandled. destruct Hshape as [Hnot|(d & rest & -> & Hd)]; [done|].
    intros [(i & us & [= <- <-] & Hi & _)|[[_ [Hu _]%Forall_cons]|
             [(u & middle & d' & [= <- _] & Hu & _)|Hone]]];
      try congruence. simpl in *. lia. }
  split; [done|]. intros op op' Hop Hop' Heq.
  rewrite sorted_perm in Hop'.
  apply elem_of_flat_map_contribution in Hop' as (run' & Hrun' & Hin).
  assert (run' = run) as ->.
  { eapply runs_disjoint; [exact Hrun'|exact Hrun| |exact Hop|exact Heq].
    by apply contribution_elem_of. }
  rewrite Hnone in Hin. by apply elem_of_nil in Hin.
Qed.

End PureFacts.

(** ** Compression of the operations table *)

Module TableFacts.
Import Lang Models Compression SortedFacts GroupFacts CommandFacts.

(** The loop body of [compress] on a sequence that is not empty, as one
    expression. *)
Lemma compress_step_cons (deleted rest : list Operation) (seq0 seq_1 : Operation) :
  last (seq0 :: rest) = Some seq_1 →
  compress_step deleted (seq0 :: rest) =
  Return (deleted ++
    if is_command Insert seq_1 then
      if andmap (is_command Update) (removelast (seq0 :: rest)) then
        removelast (seq0 :: rest)
      else if is_command Delete seq0 then seq0 :: rest else []
    else if is_command Update seq_1 then
      if andmap (is_command Update) (removelast (seq0 :: rest)) then rest
      else if is_command Delete seq0 then rest else []
    else []).
Proof.
  intros Hlast. unfold compress_step, first_item, last_item.
  rewrite Hlast. change (head (seq0 :: rest)) with (Some seq0).
  change (tail (seq0 :: rest)) with rest. cbn [mbind result_bind].
  destruct (is_command Insert seq_1), (is_command Update seq_1),
    (andmap (is_command Update) (removelast (seq0 :: rest))),
    (is_command Delete seq0);
    cbn [mbind result_bind]; by rewrite ?app_nil_r.
Qed.

Lemma superfluous_cons (rest : list Operation) (seq0 seq_1 : Operation) :
  last (seq0 :: rest) = Some seq_1 →
  superfluous (seq0 :: rest) =
    if is_command Insert seq_1 then
      if andmap (is_command Update) (removelast (seq0 :: rest)) then
        removelast (seq0 :: rest)
      else if is_command Delete seq0 then seq0 :: rest else []
    else if is_command Update seq_1 then
      if andmap (is_command Update) (removelast (seq0 :: rest)) then rest
      else if is_command Delete seq0 then rest else []
    else [].
Proof.
  intros Hlast. unfold superfluous. by rewrite (compress_step_cons _ _ _ _ Hlast).
Qed.

Lemma compress_step_superfluous (seq deleted : list Operation) :
  seq ≠ [] → compress_step deleted seq = Return (deleted ++ superfluous seq).
Proof.
  destruct seq as [|seq0 rest]; [done|]. intros _.
  destruct (last_cons_is_Some seq0 rest) as [seq_1 Hlast].
  by rewrite (compress_step_cons _ _ _ _ Hlast), (superfluous_cons _ _ _ Hlast).
Qed.

Lemma superfluous_singleton (op : Operation) : superfluous [op] = [].
Proof.
  rewrite (superfluous_cons _ _ op) by done. simpl. by repeat case_match.
Qed.

Lemma not_all_updates_delete (d : Operation) (l : list Operation) :
  command d = Delete → andmap (is_command Update) (d :: l) = false.
Proof.
  intros Hd. apply not_true_is_false. rewrite andmap_all_updates.
  intros [Hu _]%Forall_cons. congruence.
Qed.

Lemma superfluous_insert_updates (newer : list Operation) (i : Operation) :
  newer ≠ [] → command i = Insert → all_updates newer →
  superfluous (newer ++ [i]) = newer.
Proof.
  intros Hne Hi Hu%andmap_all_updates.
  destruct newer as [|seq0 rest]; [done|].
  rewrite <- app_comm_cons, (superfluous_cons _ _ i) by (by rewrite app_comm_cons, last_snoc).
  rewrite app_comm_cons, removelast_last, Hu. by commands.
Qed.

Lemma superfluous_insert_delete (d i : Operation) (middle : list Operation) :
  command i = Insert → command d = Delete →
  superfluous (d :: middle ++ [i]) = d :: middle ++ [i].
Proof.
  intros Hi Hd.
  rewrite (superfluous_cons _ _ i) by (by rewrite app_comm_cons, last_snoc).
  rewrite app_comm_cons, removelast_last, not_all_updates_delete by done. by commands.
Qed.

Lemma superfluous_updates_only (u : Operation) (older : list Operation) :
  all_updates (u :: older) → superfluous (u :: older) = older.
Proof.
  intros Hall.
  destruct (last_cons_is_Some u older) as [seq_1 Hlast].
  rewrite (superfluous_cons _ _ _ Hlast).
  pose proof Hlast as [newer Heq]%last_Some.
  assert (command seq_1 = Update) as Hlast_u.
  { unfold all_updates in Hall. rewrite Heq, Forall_app, Forall_singleton in Hall. tauto. }
  assert (andmap (is_command Update) (removelast (u :: older)) = true) as ->.
  { apply andmap_all_updates. rewrite Heq, removelast_last.
    unfold all_updates in *. rewrite Heq, Forall_app in Hall. tauto. }
  by commands.
Qed.

Lemma superfluous_update_delete (d u : Operation) (middle : list Operation) :
  command u = Update → command d = Delete →
  superfluous (d :: middle ++ [u]) = middle ++ [u].
Proof.
  intros Hu Hd.
  rewrite (superfluous_cons _ _ u) by (by rewrite app_comm_cons, last_snoc).
  rewrite app_comm_cons, removelast_last, not_all_updates_delete by done. by commands.
Qed.

(** A sequence that has none of the four shapes loses nothing. *)
Lemma superfluous_unshaped (seq : list Operation) : ¬ shape seq → superfluous seq = [].
Proof.
  intros Hnot. destruct seq as [|seq0 rest]; [done|].
  destruct (last_cons_is_Some seq0 rest) as [seq_1 Hlast].
  rewrite (superfluous_cons _ _ _ Hlast).
  destruct rest as [|seq1 rest]; [simpl; by repeat case_match|].
  pose proof Hlast as [newer Heq]%last_Some.
  destruct newer as [|d middle]; [done|]. injection Heq as <- Hrest.
  rewrite Hrest in *. rewrite app_comm_cons, removelast_last.
  destruct (command seq_1) eqn:Hc; commands; [| |done].
  - destruct (andmap (is_command Update) (seq0 :: middle)) eqn:Hu.
    + exfalso. apply Hnot. rewrite app_comm_cons.
      apply insert_updates; [done|done|by apply andmap_all_updates].
    + destruct (decide (command seq0 = Delete)) as [Hd|Hd]; commands; [|done].
      exfalso. apply Hnot. by apply insert_delete.
  - destruct (andmap (is_command Update) (seq0 :: middle)) eqn:Hu.
    + exfalso. apply Hnot. rewrite <- Hrest. apply updates_only; [done|].
      rewrite Hrest, app_comm_cons. apply Forall_app. split.
      * by apply andmap_all_updates.
      * by apply Forall_singleton.
    + destruct (decide (command seq0 = Delete)) as [Hd|Hd]; commands; [|done].
      exfalso. apply Hnot. by apply update_delete.
Qed.

Lemma superfluous_sublist (seq : list Operation) : superfluous seq `sublist_of` seq.
Proof.
  destruct seq as [|seq0 rest]; [done|].
  destruct (last_cons_is_Some seq0 rest) as [seq_1 Hlast].
  rewrite (superfluous_cons _ _ _ Hlast).
  assert (removelast (seq0 :: rest) `sublist_of` seq0 :: rest) as H1.
  { apply last_Some in Hlast as [newer ->]. rewrite removelast_last.
    by apply sublist_inserts_r. }
  assert (rest `sublist_of` seq0 :: rest) as H2 by by apply sublist_cons.
  assert ([] `sublist_of` seq0 :: rest) as H3 by apply sublist_nil_l.
  repeat case_match; done.
Qed.

(** What is left of a sequence of each shape. *)
Lemma remaining_insert_updates (newer : list Operation) (i : Operation) :
  NoDup (newer ++ [i]) → newer ≠ [] → command i = Insert → all_updates newer →
  remaining (newer ++ [i]) = [i].
Proof.
  intros Hnd Hne Hi Hu. unfold remaining.
  rewrite superfluous_insert_updates by done. by apply filter_out_l.
Qed.

Lemma remaining_insert_delete (d i : Operation) (middle : list Operation) :
  command i = Insert → command d = Delete → remaining (d :: middle ++ [i]) = [].
Proof.
  intros Hi Hd. unfold remaining. rewrite superfluous_insert_delete by done.
  apply filter_drop_all. intros x Hx. by rewrite bool_decide_eq_true_2.
Qed.

Lemma remaining_updates_only (u : Operation) (older : list Operation) :
  NoDup (u :: older) → all_updates (u :: older) → remaining (u :: older) = [u].
Proof.
  intros Hnd Hu. unfold remaining. rewrite superfluous_updates_only by done.
  by apply (filter_out_r [u] older).
Qed.

Lemma remaining_update_delete (d u : Operation) (middle : list Operation) :
  NoDup (d :: middle ++ [u]) → command u = Update → command d = Delete →
  remaining (d :: middle ++ [u]) = [d].
Proof.
  intros Hnd Hu Hd. unfold remaining. rewrite superfluous_update_delete by done.
  by apply (filter_out_r [d] (middle ++ [u])).
Qed.

Lemma remaining_unshaped (seq : list Operation) : ¬ shape seq → remaining seq = seq.
Proof.
  intros Hnot. unfold remaining. rewrite superfluous_unshaped by done.
  apply filter_keep_all. intros x _. rewrite bool_decide_eq_false_2; [done|].
  apply not_elem_of_nil.
Qed.

(** Either nothing is deleted or at most one operation is left. *)
Lemma remaining_cases (seq : list Operation) :
  NoDup seq →
  (superfluous seq = [] ∧ remaining seq = seq) ∨ (length (remaining seq) ≤ 1)%nat.
Proof.
  intros Hnd. destruct seq as [|seq0 rest]; [right; simpl; lia|].
  destruct (last_cons_is_Some seq0 rest) as [seq_1 Hlast].
  pose proof Hlast as [newer Heq]%last_Some.
  assert (superfluous (seq0 :: rest) = [] →
          superfluous (seq0 :: rest) = [] ∧ remaining (seq0 :: rest) = seq0 :: rest) as Hnone.
  { intros Hs. split; [done|]. unfold remaining. rewrite Hs.
    apply filter_keep_all. intros x _. rewrite bool_decide_eq_false_2; [done|].
    apply not_elem_of_nil. }
  assert (superfluous (seq0 :: rest) = removelast (seq0 :: rest) →
          (length (remaining (seq0 :: rest)) ≤ 1)%nat) as Hinit.
  { intros Hs. unfold remaining. rewrite Hs, Heq, removelast_last.
    rewrite filter_out_l by (by rewrite <- Heq). simpl. lia. }
  assert (superfluous (seq0 :: rest) = seq0 :: rest →
          (length (remaining (seq0 :: rest)) ≤ 1)%nat) as Hall.
  { intros Hs. unfold remaining. rewrite Hs, filter_drop_all; [simpl; lia|].
    intros x Hx. by rewrite bool_decide_eq_true_2. }
  assert (superfluous (seq0 :: rest) = rest →
          (length (remaining (seq0 :: rest)) ≤ 1)%nat) as Htail.
  { intros Hs. unfold remaining. rewrite Hs.
    rewrite (filter_out_r [seq0] rest) by done. simpl. lia. }
  pose proof (superfluous_cons _ _ _ Hlast) as Hs.
  repeat case_match; auto.
Qed.

(** *** The validator *)

(** What [_assert_operation_sequence] checks: the operations between the
    two ends.  Both comparisons of an end with a string hold whatever the
    command of the operation. *)
Lemma assert_operation_sequence_cons (seq0 : Operation) (rest : list Operation) :
  _assert_operation_sequence (seq0 :: rest) =
  if forallb (is_command Update) (removelast rest) then Return ()
  else Raise (AssertionError (row_id seq0) (content_type_id seq0)
                (rev (map command (seq0 :: rest)))).
Proof.
  unfold _assert_operation_sequence, first_item, last_item, assert.
  change (head (seq0 :: rest)) with (Some seq0).
  change (tail (seq0 :: rest)) with rest. cbn [mbind result_bind].
  destruct (forallb (is_command Update) (removelast rest)); cbn [mbind result_bind]; [|done].
  destruct (last_cons_is_Some seq0 rest) as [seq_1 ->].
  by case_bool_decide.
Qed.

Lemma assert_operation_sequence_Return (seq : list Operation) :
  _assert_operation_sequence seq = Return () ↔
  seq ≠ [] ∧ all_updates (removelast (tail seq)).
Proof.
  destruct seq as [|seq0 rest]; [by split; [|intros [? _]]|].
  rewrite assert_operation_sequence_cons. simpl tail.
  rewrite <- andmap_all_updates. unfold andmap.
  destruct (forallb (is_command Update) (removelast rest)); split; try done.
  by intros [_ ?].
Qed.

Lemma assert_operation_sequence_short (seq : list Operation) :
  seq ≠ [] → (length seq ≤ 1)%nat → _assert_operation_sequence seq = Return ().
Proof.
  intros Hne Hlen. apply assert_operation_sequence_Return. split; [done|].
  destruct seq as [|seq0 [|seq1 rest]]; simpl in *; [done|constructor|lia].
Qed.

Lemma for_each_assert (seqs : list (list Operation)) :
  for_each (λ _ seq, _assert_operation_sequence seq) () seqs = Return () ↔
  Forall (λ seq, _assert_operation_sequence seq = Return ()) seqs.
Proof.
  induction seqs as [|seq seqs IH]; simpl; [by split|].
  rewrite Forall_cons, <- IH.
  destruct (_assert_operation_sequence seq) as [[]|e]; cbn [mbind result_bind].
  - tauto.
  - split; [done|]. by intros [? _].
Qed.

(** *** The table after [compress] *)

Lemma flat_map_superfluous_longer (seqs : list (list Operation)) :
  Forall (λ seq, seq ≠ []) seqs →
  flat_map superfluous (List.filter (λ seq, bool_decide (1 < length seq)%nat) seqs) =
  flat_map superfluous seqs.
Proof.
  induction 1 as [|seq seqs Hne _ IH]; simpl; [done|].
  case_bool_decide; simpl; rewrite IH; [done|].
  destruct seq as [|op [|op' seq]]; simpl in *; try done; try lia.
  by rewrite superfluous_singleton.
Qed.

(** [compress] returns exactly when every sequence passes the validator,
    and then the table has lost the superfluous rows of every sequence. *)
Lemma compress_Return (table table' : list Operation) :
  compress table = Return table' ↔
  Forall (λ seq, _assert_operation_sequence seq = Return ()) (sequences table) ∧
  table' = commit table (flat_map superfluous (sequences table)).
Proof.
  unfold compress. fold (sequences table).
  pose proof (group_by_nonempty subject (unversioned table)) as Hne.
  fold (sequences table) in Hne.
  rewrite (for_each_appends _ superfluous).
  2: { apply Forall_forall. intros seq Hseq acc. apply compress_step_superfluous.
       apply list_elem_of_In, filter_In in Hseq as [Hseq _].
       rewrite Forall_forall in Hne. by apply Hne, list_elem_of_In. }
  rewrite flat_map_superfluous_longer by done. simpl app.
  rewrite <- for_each_assert.
  destruct (for_each _ () (sequences table)) as [[]|e]; cbn [mbind result_bind].
  - split; [by intros [= <-]|by intros [_ ->]].
  - split; [done|by intros [? _]].
Qed.

Lemma filter_filter_comm {A : Type} (p q : A → bool) (l : list A) :
  List.filter p (List.filter q l) = List.filter q (List.filter p l).
Proof.
  induction l as [|x l IH]; simpl; [done|].
  destruct (p x) eqn:Hp, (q x) eqn:Hq; simpl; rewrite ?Hp, ?Hq, IH; done.
Qed.

Lemma elem_of_unversioned (table : list Operation) (op : Operation) :
  op ∈ unversioned table ↔ op ∈ table ∧ version_id op = None.
Proof.
  unfold unversioned. rewrite <- Permutation_rev, sorted_perm.
  by rewrite !list_elem_of_In, filter_In, bool_decide_eq_true.
Qed.

Lemma elem_of_sequence_of (k : Z * Z) (table : list Operation) (op : Operation) :
  op ∈ sequence_of k table ↔ op ∈ table ∧ version_id op = None ∧ subject op = k.
Proof.
  unfold sequence_of. rewrite elem_of_members, elem_of_unversioned. tauto.
Qed.

Lemma elem_of_sequences (table seq : list Operation) :
  seq ∈ sequences table ↔ seq ≠ [] ∧ ∃ k, seq = sequence_of k table.
Proof.
  unfold sequences, itervalues. rewrite list_elem_of_fmap. split.
  - intros ([k s] & -> & [Hs Hne]%elem_of_group_by). split; [done|]. by exists k.
  - intros (Hne & k & ->). exists (k, sequence_of k table). split; [done|].
    by apply elem_of_group_by.
Qed.

Lemma sequence_of_self (table seq : list Operation) (op : Operation) :
  seq ∈ sequences table → op ∈ seq → seq = sequence_of (subject op) table.
Proof.
  intros (_ & k & ->)%elem_of_sequences Hop.
  by apply elem_of_sequence_of in Hop as (_ & _ & ->).
Qed.

(** [order] is the primary key of the table. *)
Lemma order_is_key (table : list Operation) (x y : Operation) :
  NoDup (map order table) → x ∈ table → y ∈ table → order x = order y → x = y.
Proof.
  induction table as [|z table IH]; simpl; intros Hnd Hx Hy Heq.
  - by apply elem_of_nil in Hx.
  - apply NoDup_cons in Hnd as [Hz Hnd].
    apply elem_of_cons in Hx as [->|Hx]; apply elem_of_cons in Hy as [->|Hy].
    + done.
    + exfalso. apply Hz. rewrite Heq. by apply list_elem_of_fmap_2.
    + exfalso. apply Hz. rewrite <- Heq. by apply list_elem_of_fmap_2.
    + by apply IH.
Qed.

Lemma NoDup_sequence_of (k : Z * Z) (table : list Operation) :
  NoDup (map order table) → NoDup (sequence_of k table).
Proof.
  intros Hnd. apply NoDup_fmap_1 in Hnd.
  unfold sequence_of, members, unversioned.
  apply NoDup_ListNoDup, List.NoDup_filter, NoDup_ListNoDup.
  rewrite <- Permutation_rev, sorted_perm.
  by apply NoDup_ListNoDup, List.NoDup_filter, NoDup_ListNoDup.
Qed.

Lemma unversioned_commit (table deleted : list Operation) :
  unversioned (commit table deleted) =
  List.filter (λ row, negb (bool_decide (order row ∈ map order deleted))) (unversioned table).
Proof.
  unfold unversioned, commit.
  by rewrite filter_filter_comm, sorted_filter, filter_rev.
Qed.

Lemma sequence_of_commit (k : Z * Z) (table deleted : list Operation) :
  sequence_of k (commit table deleted) =
  List.filter (λ row, negb (bool_decide (order row ∈ map order deleted)))
    (sequence_of k table).
Proof.
  unfold sequence_of, members. by rewrite unversioned_commit, filter_filter_comm.
Qed.

(** A row of a sequence is deleted exactly when it is superfluous in its own
    sequence. *)
Lemma deleted_iff_superfluous (table : list Operation) (k : Z * Z) (row : Operation) :
  NoDup (map order table) →
  row ∈ sequence_of k table →
  order row ∈ map order (flat_map superfluous (sequences table)) ↔
  row ∈ superfluous (sequence_of k table).
Proof.
  intros Hnd Hrow.
  assert (sequence_of k table ∈ sequences table) as Hseq.
  { apply elem_of_sequences. split; [|by exists k]. intros Hnil.
    rewrite Hnil in Hrow. by apply elem_of_nil in Hrow. }
  split.
  - intros (d & Heq & Hd)%list_elem_of_fmap.
    apply list_elem_of_In, in_flat_map in Hd as (seq' & Hseq'%list_elem_of_In & Hd%list_elem_of_In).
    assert (d ∈ seq') as Hd' by (eapply elem_of_sublist; [done|apply superfluous_sublist]).
    assert (d = row) as ->.
    { apply (order_is_key table); [done| | |done].
      - pose proof Hseq' as (_ & k' & ->)%elem_of_sequences.
        by apply elem_of_sequence_of in Hd' as [? _].
      - by apply elem_of_sequence_of in Hrow as [? _]. }
    rewrite (sequence_of_self _ _ _ Hseq' Hd') in Hd.
    by apply elem_of_sequence_of in Hrow as (_ & _ & <-).
  - intros Hsup. apply list_elem_of_fmap. exists row. split; [done|].
    apply list_elem_of_In, in_flat_map. exists (sequence_of k table).
    by rewrite <- !list_elem_of_In.
Qed.

(** The sequence of a subject after [compress] is what remains of its
    sequence before. *)
Lemma sequence_of_compress (table table' : list Operation) (k : Z * Z) :
  NoDup (map order table) →
  compress table = Return table' →
  sequence_of k table' = remaining (sequence_of k table).
Proof.
  intros Hnd [_ ->]%compress_Return.
  rewrite sequence_of_commit. unfold remaining.
  apply filter_ext_in. intros row Hrow%list_elem_of_In. f_equal.
  apply bool_decide_ext. by apply deleted_iff_superfluous.
Qed.

(** The rows that belong to a version are not touched. *)
Lemma versioned_compress (table table' : list Operation) :
  NoDup (map order table) →
  compress table = Return table' →
  List.filter (λ op, negb (bool_decide (version_id op = None))) table' =
  List.filter (λ op, negb (bool_decide (version_id op = None))) table.
Proof.
  intros Hnd [_ ->]%compress_Return. unfold commit.
  rewrite filter_filter_comm. apply filter_keep_all.
  intros row [Hrow Hver]%list_elem_of_In%filter_In.
  apply negb_true_iff, bool_decide_eq_false in Hver.
  rewrite bool_decide_eq_false_2; [done|].
  intros (d & Heq & Hd)%list_elem_of_fmap.
  apply list_elem_of_In, in_flat_map in Hd as (seq & Hseq%list_elem_of_In & Hd%list_elem_of_In).
  assert (d ∈ seq) as Hd' by (eapply elem_of_sublist; [done|apply superfluous_sublist]).
  apply elem_of_sequences in Hseq as (_ & k & ->).
  apply elem_of_sequence_of in Hd' as (Hd' & Hnone & _).
  assert (d = row) as ->; [|done].
  apply (order_is_key table); [done|done|by apply list_elem_of_In|done].
Qed.

Lemma remaining_singleton (op : Operation) : remaining [op] = [op].
Proof.
  unfold remaining. rewrite superfluous_singleton.
  apply filter_keep_all. intros x _.
  rewrite bool_decide_eq_false_2; [done|apply not_elem_of_nil].
Qed.

Lemma superfluous_remaining (seq : list Operation) :
  NoDup seq → superfluous (remaining seq) = [].
Proof.
  intros [[Hs ->]|Hlen]%remaining_cases; [done|].
  destruct (remaining seq) as [|op [|op' l]]; simpl in *; try lia; [done|].
  apply superfluous_singleton.
Qed.

Lemma assert_remaining (seq : list Operation) :
  NoDup seq → remaining seq ≠ [] →
  _assert_operation_sequence seq = Return () →
  _assert_operation_sequence (remaining seq) = Return ().
Proof.
  intros [[_ ->]|Hlen]%remaining_cases Hne Hok; [done|].
  by apply assert_operation_sequence_short.
Qed.

(** Running [compress] on the table it returned changes nothing. *)
Lemma compress_idempotent (table table' : list Operation) :
  NoDup (map order table) →
  compress table = Return table' →
  compress table' = Return table'.
Proof.
  intros Hnd Hret. pose proof Hret as [Hok _]%compress_Return.
  rewrite Forall_forall in Hok.
  assert (∀ seq', seq' ∈ sequences table' →
            ∃ k, seq' = remaining (sequence_of k table) ∧ seq' ≠ []) as Hseqs.
  { intros seq' (Hne & k & ->)%elem_of_sequences. exists k.
    by rewrite <- (sequence_of_compress table table' k). }
  apply compress_Return. split.
  - apply Forall_forall. intros seq' (k & -> & Hne)%Hseqs.
    apply assert_remaining; [by apply NoDup_sequence_of|done|].
    apply Hok, elem_of_sequences. split; [|by exists k].
    intros Hnil. by rewrite Hnil in Hne.
  - assert (flat_map superfluous (sequences table') = []) as ->.
    { assert (∀ seqs, (∀ seq', seq' ∈ seqs → seq' ∈ sequences table') →
                flat_map superfluous seqs = []) as Hnone; [|by apply Hnone].
      induction seqs as [|seq' seqs IH]; simpl; intros Hsub; [done|].
      destruct (Hseqs seq') as (k & -> & _); [apply Hsub; left|].
      rewrite superfluous_remaining by by apply NoDup_sequence_of.
      apply IH. intros seq'' Hin. apply Hsub. by right. }
    unfold commit. symmetry. apply filter_keep_all. intros row _.
    rewrite bool_decide_eq_false_2; [done|apply not_elem_of_nil].
Qed.

(** C3: for a table whose [order] column is a key and on which [compress]
    returns, hence whose sequences all pass the validator, the sequence of
    every subject, from newest to oldest, is left as follows.  An oldest
    Insert with Updates only after it: the Insert alone.  An oldest Insert
    and a newest Delete: nothing.  Updates only: the newest Update alone.
    An oldest Update and a newest Delete: the Delete alone.  A sequence of
    one operation, or of none of these shapes: the sequence unchanged. *)
Theorem compress_sequences (table table' : list Operation) (k : Z * Z) :
  NoDup (map order table) →
  compress table = Return table' →
  let seq := sequence_of k table in
  let seq' := sequence_of k table' in
  (∀ newer i, seq = newer ++ [i] → command i = Insert → all_updates newer → seq' = [i]) ∧
  (∀ d middle i, seq = d :: middle ++ [i] → command i = Insert → command d = Delete →
     seq' = []) ∧
  (∀ u older, seq = u :: older → all_updates seq → seq' = [u]) ∧
  (∀ d middle u, seq = d :: middle ++ [u] → command u = Update → command d = Delete →
     seq' = [d]) ∧
  (length seq = 1%nat ∨ ¬ shape seq → seq' = seq).
Proof.
  intros Hnd Hret seq seq'.
  assert (seq' = remaining seq) as -> by by apply sequence_of_compress.
  assert (NoDup seq) as Hseq by by apply NoDup_sequence_of.
  split_and!.
  - intros newer i Heq Hi Hu. rewrite Heq in *.
    destruct newer as [|op newer]; [apply remaining_singleton|].
    by apply remaining_insert_updates.
  - intros d middle i Heq Hi Hd. rewrite Heq. by apply remaining_insert_delete.
  - intros u older Heq Hu. rewrite Heq in *. by apply remaining_updates_only.
  - intros d middle u Heq Hu Hd. rewrite Heq in *. by apply remaining_update_delete.
  - intros [Hlen|Hnot]; [|by apply remaining_unshaped].
    destruct seq as [|op [|op' l]]; simpl in Hlen; try lia.
    apply remaining_singleton.
Qed.

End TableFacts.

(** ** Both compactions *)

Module CompactionFacts.
Import Lang Models Compression SortedFacts GroupFacts CommandFacts PureFacts TableFacts Replay.

(** C2: the validator is meant to reject a sequence of several operations
    whose oldest is a Delete or whose newest is an Insert.  It compares the
    [Operation] instances themselves, not their [command], with ['d'] and
    ['i'], so both assertions always hold: a Delete followed by an Update,
    and an Update followed by an Insert, break the contract and are accepted
    all the same. *)
Theorem assert_operation_sequence_accepts_illegal_ends :
  let delete_first := [mkOperation 2 7 1 Update None; mkOperation 1 7 1 Delete None] in
  let insert_last := [mkOperation 2 7 1 Insert None; mkOperation 1 7 1 Update None] in
  legal delete_first = false ∧
  _assert_operation_sequence delete_first = Return () ∧
  legal insert_last = false ∧
  _assert_operation_sequence insert_last = Return ().
Proof. by vm_compute. Qed.

(** What a pass of [compressed_operations] keeps has at most one operation
    for each subject, whatever the iteration order. *)
Lemma NoDup_subject_kept
    (iteration : list (Z * Z * list Operation) → list (Z * Z * list Operation))
    (operations : list Operation) :
  (∀ groups, iteration groups ≡ₚ groups) →
  NoDup (map subject
           (flat_map contribution
              (itervalues (iteration (group_by subject (sorted order operations)))))).
Proof.
  intros Hperm. apply NoDup_subject_contributions.
  - rewrite Hperm. apply NoDup_keys_group_by.
  - intros k s op Hin Hop. rewrite Hperm in Hin.
    apply elem_of_group_by in Hin as [-> _]. by apply elem_of_members in Hop as [_ ?].
Qed.

Lemma flat_map_contribution_singletons (l : list Operation) :
  flat_map contribution (itervalues (map (λ op, (subject op, [op])) l)) = l.
Proof.
  induction l as [|op l IH]; simpl; [done|].
  by rewrite contribution_singleton, IH.
Qed.

(** A second pass keeps the operations that the first pass kept; the two
    lists are equal when no two operations share their [order], and
    otherwise up to the position of the operations that do. *)
Lemma compressed_operations_iter_twice
    (iteration iteration' : list (Z * Z * list Operation) → list (Z * Z * list Operation))
    (operations : list Operation) :
  (∀ groups, iteration groups ≡ₚ groups) →
  (∀ groups, iteration' groups ≡ₚ groups) →
  ∃ once twice,
    compressed_operations_iter iteration operations = Return once ∧
    compressed_operations_iter iteration' once = Return twice ∧
    twice ≡ₚ once ∧
    (NoDup (map order operations) → twice = once).
Proof.
  intros Hperm Hperm'.
  set (kept := flat_map contribution
                 (itervalues (iteration (group_by subject (sorted order operations))))).
  set (again := flat_map contribution
                  (itervalues
                     (iteration' (group_by subject (sorted order (sorted order kept)))))).
  exists (sorted order kept), (sorted order again).
  assert (again ≡ₚ sorted order kept) as Hagain.
  { unfold again. rewrite sorted_idemp, group_by_distinct.
    - transitivity (flat_map contribution
                      (itervalues (map (λ op, (subject op, [op])) (sorted order kept)))).
      + apply Permutation_flat_map. unfold itervalues. by rewrite Hperm'.
      + by rewrite flat_map_contribution_singletons.
    - rewrite sorted_perm. by apply NoDup_subject_kept. }
  split_and!.
  - by apply compressed_operations_iter_eq.
  - by apply compressed_operations_iter_eq.
  - by rewrite sorted_perm.
  - intros Hnd. transitivity (sorted order (sorted order kept)); [|apply sorted_idemp].
    apply sorted_unique; [done|].
    rewrite Hagain, sorted_perm.
    apply (sublist_NoDup _
             (map order
                (concat (itervalues
                           (iteration (group_by subject (sorted order operations))))))).
    + unfold itervalues. rewrite Hperm.
      fold (itervalues (group_by subject (sorted order operations))).
      fold (runs operations). by rewrite runs_partition.
    + apply fmap_sublist, flat_map_contribution_sublist.
Qed.

(** C5: compressing a compressed list of operations gives a list of the
    same operations, whatever the order in which the dictionary of
    sequences is iterated in each pass, and the same list when no two
    operations share their [order]; and running [compress] on the table
    that [compress] returned, where [order] is the primary key, gives the
    same table. *)
Theorem compaction_idempotent
    (iteration iteration' : list (Z * Z * list Operation) → list (Z * Z * list Operation))
    (operations table : list Operation) :
  (∀ groups, iteration groups ≡ₚ groups) →
  (∀ groups, iteration' groups ≡ₚ groups) →
  NoDup (map order table) →
  (∃ once twice,
     compressed_operations_iter iteration operations = Return once ∧
     compressed_operations_iter iteration' once = Return twice ∧
     twice ≡ₚ once ∧
     (NoDup (map order operations) → twice = once)) ∧
  (∀ table', compress table = Return table' → compress table' = Return table').
Proof.
  intros Hperm Hperm' Hnd. split.
  - by apply compressed_operations_iter_twice.
  - intros table'. by apply compress_idempotent.
Qed.

Section replay.
Context {Row : Type} (live : Row).

Lemma replay_app (state : option Row) (ops1 ops2 : list Operation) :
  replay live state (ops1 ++ ops2) =
  state' ← replay live state ops1; replay live state' ops2.
Proof.
  revert state. induction ops1 as [|op ops1 IH]; intros state; simpl; [done|].
  destruct (apply_command live state (command op)); simpl; [apply IH|done].
Qed.

(** Updates leave a present row present. *)
Lemma replay_updates (row : Row) (updates : list Operation) :
  all_updates updates → ∃ row', replay live (Some row) updates = Some (Some row').
Proof.
  revert row. induction updates as [|u updates IH]; intros row Hu; simpl; [by eexists|].
  apply Forall_cons in Hu as [-> Hu]. simpl. by apply IH.
Qed.

Lemma replay_snoc (state : option Row) (ops : list Operation) (op : Operation) :
  replay live state (ops ++ [op]) =
  state' ← replay live state ops; apply_command live state' (command op).
Proof.
  rewrite replay_app. destruct (replay live state ops) as [state'|]; simpl; [|done].
  by destruct (apply_command live state' (command op)).
Qed.

(** The four legal combinations of an oldest and a newest operation with
    Updates between them, and a compacted sequence for each. *)
Lemma same_effect_ends (oldest newest : Operation) (middle compacted : list Operation) :
  all_updates middle →
  (command oldest = Insert ∧ command newest = Update ∧ compacted = [oldest]) ∨
  (command oldest = Insert ∧ command newest = Delete ∧ compacted = []) ∨
  (command oldest = Update ∧ command newest = Update ∧
     ∃ u, compacted = [u] ∧ command u = Update) ∨
  (command oldest = Update ∧ command newest = Delete ∧ compacted = [newest]) →
  same_effect live (oldest :: middle ++ [newest]) compacted.
Proof.
  intros Hmid Hcases.
  assert (∀ state, replay live state (oldest :: middle ++ [newest]) =
     state1 ← apply_command live state (command oldest);
     state2 ← replay live state1 middle;
     apply_command live state2 (command newest)) as Heq.
  { intros state. rewrite app_comm_cons, replay_snoc. simpl.
    by destruct (apply_command live state (command oldest)). }
  split.
  - rewrite Heq.
      destruct Hcases as [(Ho & Hn & ->)|[(Ho & Hn & ->)|[(Ho & Hn & u & -> & Hu)|(Ho & Hn & ->)]]];
      simpl; rewrite ?Ho, ?Hn, ?Hu; simpl; try done;
      destruct (replay_updates live _ Hmid) as [row2 ->]; simpl; done.
  - intros state final. rewrite Heq.
    destruct Hcases as [(Ho & Hn & ->)|[(Ho & Hn & ->)|[(Ho & Hn & u & -> & Hu)|(Ho & Hn & ->)]]];
      simpl; rewrite ?Ho, ?Hn, ?Hu; destruct state as [row|]; simpl; try done;
      destruct (replay_updates live _ Hmid) as [row2 ->]; simpl; done.
Qed.

Lemma same_effect_refl (ops : list Operation) : same_effect live ops ops.
Proof. by split. Qed.

End replay.

(** The contract of the validator on a sequence of several operations. *)
Lemma legal_ends (newest oldest : Operation) (middle : list Operation) :
  legal (newest :: middle ++ [oldest]) = true →
  all_updates middle ∧ command oldest ≠ Delete ∧ command newest ≠ Insert.
Proof.
  unfold legal. change (tail (newest :: middle ++ [oldest])) with (middle ++ [oldest]).
  change (head (newest :: middle ++ [oldest])) with (Some newest).
  rewrite removelast_last. rewrite (app_comm_cons middle), last_snoc.
  intros [Hmid Hends]%andb_true_iff.
  apply orb_true_iff in Hends as [Hlen|Hends].
  { apply bool_decide_eq_true in Hlen. rewrite <- app_comm_cons in Hlen.
    rewrite length_cons, length_app in Hlen. simpl in Hlen. lia. }
  apply andb_true_iff in Hends as [Ho Hn].
  split_and!.
  - by apply andmap_all_updates.
  - intros Hd. by rewrite (is_command_eq _ _ Hd) in Ho.
  - intros Hi. by rewrite (is_command_eq _ _ Hi) in Hn.
Qed.

Lemma contribution_insert_delete (i d : Operation) (middle : list Operation) :
  command i = Insert → command d = Delete → contribution (i :: middle ++ [d]) = [].
Proof.
  intros Hi Hd.
  rewrite (contribution_cons _ _ d) by (by rewrite app_comm_cons, last_snoc).
  assert (andmap (is_command Update) (middle ++ [d]) = false) as ->.
  { apply not_true_is_false. rewrite andmap_all_updates. unfold all_updates.
    rewrite Forall_app, Forall_singleton. intros [_ Hd']. congruence. }
  commands. rewrite andb_false_r, bool_decide_eq_false_2; [done|].
  rewrite length_cons, length_app. simpl. lia.
Qed.

(** The operations of a single row form a single run. *)
Lemma compressed_operations_single_row (operations : list Operation) (k : Z * Z) :
  (∀ op, op ∈ operations → subject op = k) →
  compressed_operations operations = Return (contribution (sorted order operations)).
Proof.
  intros Hk. rewrite compressed_operations_eq. f_equal.
  destruct (decide (operations = [])) as [->|Hne]; [done|].
  unfold runs. rewrite (group_by_single _ k).
  - simpl. rewrite app_nil_r. apply sorted_id.
    pose proof (contribution_length (sorted order operations)) as Hlen.
    destruct (contribution (sorted order operations)) as [|x [|y l]]; simpl in *;
      try lia; repeat constructor.
  - intros Hnil. apply Hne. apply Permutation_nil_r. by rewrite <- (sorted_perm order), Hnil.
  - intros op Hop. apply Hk. by rewrite sorted_perm in Hop.
Qed.

Lemma list_ends {A : Type} (l : list A) :
  l = [] ∨ (∃ x, l = [x]) ∨ ∃ x middle y, l = x :: middle ++ [y].
Proof.
  destruct l as [|x l]; [by left|]. right.
  destruct (last l) as [y|] eqn:Hlast.
  - right. apply last_Some in Hlast as [middle ->]. by exists x, middle, y.
  - left. apply last_None in Hlast as ->. by exists x.
Qed.

Lemma rev_ends {A : Type} (x y : A) (middle : list A) :
  rev (x :: middle ++ [y]) = y :: rev middle ++ [x].
Proof. simpl. by rewrite rev_app_distr. Qed.

Lemma all_updates_rev (seq : list Operation) : all_updates (rev seq) ↔ all_updates seq.
Proof. unfold all_updates. by rewrite <- Permutation_rev. Qed.

(** In-memory compression of the operations of one row keeps their net
    effect. *)
Lemma compressed_operations_same_effect {Row : Type} (live : Row)
    (operations : list Operation) (k : Z * Z) :
  (∀ op, op ∈ operations → subject op = k) →
  legal (rev (sorted order operations)) = true →
  same_effect live (sorted order operations) (contribution (sorted order operations)).
Proof.
  intros _ Hlegal.
  destruct (list_ends (sorted order operations))
    as [->|[[x ->]|(oldest & middle & newest & Heq)]].
  - apply same_effect_refl.
  - rewrite contribution_singleton. apply same_effect_refl.
  - rewrite Heq in *. rewrite rev_ends in Hlegal.
    apply legal_ends in Hlegal as (Hmid & Ho & Hn).
    apply (proj1 (all_updates_rev _)) in Hmid.
    apply same_effect_ends; [done|].
    destruct (command oldest) eqn:Hoc, (command newest) eqn:Hnc; try done.
    + left. split_and!; try done. apply contribution_insert; [done|].
      apply Forall_app. split; [done|]. by apply Forall_singleton.
    + right. left. split_and!; try done. by apply contribution_insert_delete.
    + right. right. left. split_and!; try done. exists oldest. split; [|done].
      apply contribution_updates. apply Forall_cons. split; [done|].
      apply Forall_app. split; [done|]. by apply Forall_singleton.
    + repeat right. split_and!; try done. by apply contribution_delete.
Qed.

(** What [compress] leaves of a legal sequence keeps its net effect. *)
Lemma remaining_same_effect {Row : Type} (live : Row) (seq : list Operation) :
  NoDup seq → legal seq = true → same_effect live (rev seq) (rev (remaining seq)).
Proof.
  intros Hnd Hlegal.
  destruct (list_ends seq) as [->|[[x ->]|(newest & middle & oldest & ->)]].
  - apply same_effect_refl.
  - rewrite remaining_singleton. apply same_effect_refl.
  - rewrite rev_ends.
    apply legal_ends in Hlegal as (Hmid & Ho & Hn).
    apply same_effect_ends; [by apply (proj2 (all_updates_rev _))|].
    destruct (command oldest) eqn:Hoc, (command newest) eqn:Hnc; try done.
    + left. split_and!; try done.
      rewrite app_comm_cons in *. rewrite remaining_insert_updates; try done.
      by apply Forall_cons.
    + right. left. split_and!; try done. by rewrite remaining_insert_delete.
    + right. right. left. split_and!; try done. exists newest. split; [|done].
      rewrite remaining_updates_only; [done|done|].
      apply Forall_cons. split; [done|].
      apply Forall_app. split; [done|]. by apply Forall_singleton.
    + repeat right. split_and!; try done. by rewrite remaining_update_delete.
Qed.

(** C6: net-effect preservation, against the replay modelled from the spec.
    For the operations of one row that form a legal sequence, the list that
    [compressed_operations] returns has the net effect of the operations in
    ascending [order]; and for the legal sequence of a row in a table on
    which [compress] returns, the sequence left in the table has the net
    effect of the sequence before. *)
Theorem compaction_preserves_net_effect {Row : Type} (live : Row)
    (operations table table' : list Operation) (k k' : Z * Z) :
  Forall (λ op, subject op = k) operations →
  legal (rev (sorted order operations)) = true →
  NoDup (map order table) →
  compress table = Return table' →
  legal (sequence_of k' table) = true →
  (∃ compressed,
     compressed_operations operations = Return compressed ∧
     same_effect live (sorted order operations) compressed) ∧
  same_effect live (rev (sequence_of k' table)) (rev (sequence_of k' table')).
Proof.
  intros Hk Hlegal Hnd Hret Hlegal'. rewrite Forall_forall in Hk. split.
  - exists (contribution (sorted order operations)).
    split; [by apply (compressed_operations_single_row _ k)|].
    by apply (compressed_operations_same_effect live _ k).
  - rewrite (sequence_of_compress table table' k') by done.
    apply remaining_same_effect; [by apply NoDup_sequence_of|done].
Qed.

End CompactionFacts.

(** ** The handlers *)

Module HandlerFacts.
Import Lang Models Handlers SortedFacts CommandFacts.

Lemma max_key_snoc (keys : list Z) (k : Z) :
  max_key (keys ++ [k]) =
  Some (match max_key keys with Some m => Z.max m k | None => k end).
Proof.
  induction keys as [|k' keys IH]; simpl; [done|].
  fold (max_key (keys ++ [k])). fold (max_key keys). rewrite IH. f_equal.
  destruct (max_key keys); lia.
Qed.

Lemma max_key_upper (keys : list Z) (m k : Z) :
  max_key keys = Some m → k ∈ keys → k ≤ m.
Proof.
  revert m. induction keys as [|k' keys IH]; simpl; intros m Hm Hk.
  - by apply elem_of_nil in Hk.
  - fold (max_key keys) in Hm. injection Hm as <-.
    apply elem_of_cons in Hk as [->|Hk].
    + destruct (max_key keys); lia.
    + destruct (max_key keys) as [m'|] eqn:Hmax.
      * specialize (IH m' eq_refl Hk). lia.
      * destruct keys; [by apply elem_of_nil in Hk|done].
Qed.

(** A new key is larger than every key of the table. *)
Lemma next_key_fresh (keys : list Z) (k : Z) : k ∈ keys → k < next_key keys.
Proof.
  intros Hk. unfold next_key. destruct (max_key keys) as [m|] eqn:Hmax.
  - pose proof (max_key_upper _ _ _ Hmax Hk). lia.
  - destruct keys; [by apply elem_of_nil in Hk|done].
Qed.

(** Keys are given out one after the other. *)
Lemma next_key_snoc (keys : list Z) : next_key (keys ++ [next_key keys]) = next_key keys + 1.
Proof.
  unfold next_key at 1. rewrite max_key_snoc. unfold next_key.
  destruct (max_key keys); lia.
Qed.

(** *** Push *)

Section handlers.
Context {Data Row Arg : Type}.
Variable parse_push : Data → option (PushMessage.t Row).
Variable islegit : PushMessage.t Row → Database.t Row → bool.
Variable perform :
  Operation → list ContentType.t → PushMessage.t Row → gmap (Z * Z) Row →
  list (string * list string) * result (list Arg) (gmap (Z * Z) Row).
Variable repr : Arg → string.
Variable now : Z.

(** The rows that the last loop of [handle_push] adds for [ops], which come
    in ascending order of the [order] the client gave them: the columns of
    the incoming operations, the new version, and consecutive new keys. *)
Lemma fold_add_operation (version : Version.t) (ops : list Operation) (db : Database.t Row) :
  fold_left (add_operation version) ops db =
  Database.mk (Database.versions db)
    (Database.operations db ++
       imap (λ i op,
               mkOperation (next_key (map order (Database.operations db)) + Z.of_nat i)
                 (row_id op) (content_type_id op) (command op)
                 (Some (Version.version_id version))) ops)
    (Database.nodes db) (Database.content_types db) (Database.objects db).
Proof.
  revert db. induction ops as [|op ops IH]; intros db; simpl.
  - rewrite app_nil_r. by destruct db.
  - rewrite IH. unfold add_operation. simpl. f_equal.
    rewrite <- app_assoc. simpl. do 2 f_equal.
    + f_equal. lia.
    + apply imap_ext. intros i op' _. simpl. f_equal.
      rewrite map_app. simpl. rewrite next_key_snoc. lia.
Qed.

(** The loop over the operations fails exactly at the first operation that
    cannot be performed. *)
Lemma perform_all_app (message : PushMessage.t Row) (cts : list ContentType.t)
    (ops1 ops2 : list Operation) (objects : gmap (Z * Z) Row) :
  perform_all perform message cts (ops1 ++ ops2) objects =
  match perform_all perform message cts ops1 objects with
  | (calls, Raise args) => (calls, Raise args)
  | (calls, Return objects') =>
      let '(calls', r) := perform_all perform message cts ops2 objects' in
      (calls ++ calls', r)
  end.
Proof.
  revert objects. induction ops1 as [|op ops1 IH]; intros objects; simpl.
  - by destruct (perform_all perform message cts ops2 objects).
  - destruct (perform op cts message objects) as [calls [objects'|args]]; [|done].
    rewrite IH.
    destruct (perform_all perform message cts ops1 objects') as [calls1 [objects1|args]];
      [|done].
    destruct (perform_all perform message cts ops2 objects1) as [calls2 r].
    by rewrite app_assoc.
Qed.

(** [handle_push] on a push that passes the four checks. *)
Lemma handle_push_admitted (data : Data) (db : Database.t Row) (log : list LogEntry)
    (message : PushMessage.t Row) :
  parse_push data = Some message →
  get_latest_version_id db = PushMessage.latest_version_id message →
  PushMessage.operations message ≠ [] →
  islegit message db = true →
  handle_push parse_push islegit perform repr now data db log =
  match perform_all perform message (Database.content_types db)
          (PushMessage.operations message) (Database.objects db) with
  | (calls, Raise args) =>
      (Raise (PushRejected (OperationFailed args)), db,
       (log ++ logged message calls) ++
         [("handlers.push.OperationError"%string, PushMessage.node_id message,
           map repr args)])
  | (calls, Return objects) =>
      let version :=
        Version.mk (next_key (map Version.version_id (Database.versions db))) now
          (PushMessage.node_id message) in
      (Return (Version.version_id version),
       fold_left (add_operation version) (sorted order (PushMessage.operations message))
         (Database.mk (Database.versions db ++ [version]) (Database.operations db)
            (Database.nodes db) (Database.content_types db) objects),
       log ++ logged message calls)
  end.
Proof.
  intros Hparse Hlatest Hops Hlegit.
  unfold handle_push, with_transaction, handle_push_proc.
  rewrite Hparse, Hlatest, Hlegit.
  rewrite bool_decide_eq_true_2 by done.
  rewrite bool_decide_eq_false_2 by done. simpl negb. cbv iota.
  destruct (perform_all perform message (Database.content_types db)
              (PushMessage.operations message) (Database.objects db))
    as [calls [objects|args]]; done.
Qed.

(** C9: when an operation of an admitted push cannot be performed, after
    the operations before it were, the push is rejected with the arguments
    of the operation error, the database is the one before the push, and
    the log has gained an entry with the node id and these arguments. *)
Theorem handle_push_operation_error (data : Data) (db : Database.t Row)
    (log : list LogEntry) (message : PushMessage.t Row)
    (before after : list Operation) (op : Operation)
    (calls1 calls2 : list (string * list string)) (objects1 : gmap (Z * Z) Row)
    (args : list Arg) :
  parse_push data = Some message →
  get_latest_version_id db = PushMessage.latest_version_id message →
  islegit message db = true →
  PushMessage.operations message = before ++ op :: after →
  perform_all perform message (Database.content_types db) before (Database.objects db) =
    (calls1, Return objects1) →
  perform op (Database.content_types db) message objects1 = (calls2, Raise args) →
  handle_push parse_push islegit perform repr now data db log =
  (Raise (PushRejected (OperationFailed args)), db,
   (log ++ logged message (calls1 ++ calls2)) ++
     [("handlers.push.OperationError"%string, PushMessage.node_id message, map repr args)]).
Proof.
  intros Hparse Hlatest Hlegit Hops Hbefore Hop.
  rewrite (handle_push_admitted _ _ _ message); try done.
  2: { rewrite Hops. by destruct before. }
  rewrite Hops, perform_all_app, Hbefore. simpl. by rewrite Hop.
Qed.

(** C8: an admitted push whose operations are all performed returns the
    new version id.  The versions table gains exactly one row, with that id
    and the node of the message; the operations table gains one row per
    incoming operation, taken in ascending order of the client's [order],
    with the columns of the operation, the new version id, and a key given
    by the server: the first free key, then the following ones. *)
Theorem handle_push_success (data : Data) (db : Database.t Row) (log : list LogEntry)
    (message : PushMessage.t Row) (calls : list (string * list string))
    (objects : gmap (Z * Z) Row) :
  parse_push data = Some message →
  get_latest_version_id db = PushMessage.latest_version_id message →
  PushMessage.operations message ≠ [] →
  islegit message db = true →
  perform_all perform message (Database.content_types db)
    (PushMessage.operations message) (Database.objects db) = (calls, Return objects) →
  let new_version_id := next_key (map Version.version_id (Database.versions db)) in
  let first_order := next_key (map order (Database.operations db)) in
  handle_push parse_push islegit perform repr now data db log =
  (Return new_version_id,
   Database.mk
     (Database.versions db ++ [Version.mk new_version_id now (PushMessage.node_id message)])
     (Database.operations db ++
        imap (λ i op,
                mkOperation (first_order + Z.of_nat i) (row_id op) (content_type_id op)
                  (command op) (Some new_version_id))
          (sorted order (PushMessage.operations message)))
     (Database.nodes db) (Database.content_types db) objects,
   log ++ logged message calls).
Proof.
  intros Hparse Hlatest Hops Hlegit Hperform. simpl.
  rewrite (handle_push_admitted _ _ _ message) by done.
  rewrite Hperform. simpl. by rewrite fold_add_operation.
Qed.

(** [handle_push] on a push that fails one of the four checks, in the order
    of the checks. *)
Lemma handle_push_not_parsed (data : Data) (db : Database.t Row) (log : list LogEntry) :
  parse_push data = None →
  handle_push parse_push islegit perform repr now data db log =
  (Raise (PushRejected (NotAPushMessage data)), db, log).
Proof.
  intros Hparse. unfold handle_push, with_transaction, handle_push_proc.
  by rewrite Hparse.
Qed.

Lemma handle_push_not_latest (data : Data) (db : Database.t Row) (log : list LogEntry)
    (message : PushMessage.t Row) (given : Z) :
  parse_push data = Some message →
  PushMessage.latest_version_id message = Some given →
  get_latest_version_id db ≠ Some given →
  handle_push parse_push islegit perform repr now data db log =
  (Raise (PushRejected (NotLatestVersion given)), db, log).
Proof.
  intros Hparse Hgiven Hlatest. unfold handle_push, with_transaction, handle_push_proc.
  rewrite Hparse, Hgiven. by rewrite bool_decide_eq_false_2.
Qed.

Lemma handle_push_no_operations (data : Data) (db : Database.t Row) (log : list LogEntry)
    (message : PushMessage.t Row) :
  parse_push data = Some message →
  get_latest_version_id db = PushMessage.latest_version_id message →
  PushMessage.operations message = [] →
  handle_push parse_push islegit perform repr now data db log =
  (Raise (PushRejected NoOperations), db, log).
Proof.
  intros Hparse Hlatest Hops. unfold handle_push, with_transaction, handle_push_proc.
  rewrite Hparse, Hlatest, Hops. by rewrite bool_decide_eq_true_2.
Qed.

Lemma handle_push_not_signed (data : Data) (db : Database.t Row) (log : list LogEntry)
    (message : PushMessage.t Row) :
  parse_push data = Some message →
  get_latest_version_id db = PushMessage.latest_version_id message →
  PushMessage.operations message ≠ [] →
  islegit message db = false →
  handle_push parse_push islegit perform repr now data db log =
  (Raise (PushRejected NotProperlySigned), db, log).
Proof.
  intros Hparse Hlatest Hops Hlegit. unfold handle_push, with_transaction, handle_push_proc.
  rewrite Hparse, Hlatest, Hlegit. rewrite bool_decide_eq_true_2 by done.
  by rewrite bool_decide_eq_false_2.
Qed.

(** The ledger stays in ascending order of version id: a push adds at most
    one version, whose id is larger than all the others. *)
Lemma handle_push_ledger_ascending (data : Data) (db : Database.t Row)
    (log : list LogEntry) :
  StronglySorted Z.lt (map Version.version_id (Database.versions db)) →
  StronglySorted Z.lt
    (map Version.version_id
       (Database.versions
          (handle_push parse_push islegit perform repr now data db log).1.2)).
Proof.
  intros Hsorted.
  destruct (parse_push data) as [message|] eqn:Hparse.
  2: { by rewrite handle_push_not_parsed. }
  destruct (decide (get_latest_version_id db = PushMessage.latest_version_id message))
    as [Hlatest|Hlatest].
  2: { unfold handle_push, with_transaction, handle_push_proc.
       rewrite Hparse, bool_decide_eq_false_2 by done. simpl.
       by destruct (PushMessage.latest_version_id message). }
  destruct (decide (PushMessage.operations message = [])) as [Hops|Hops].
  { by rewrite (handle_push_no_operations _ _ _ message). }
  destruct (islegit message db) eqn:Hlegit.
  2: { by rewrite (handle_push_not_signed _ _ _ message). }
  rewrite (handle_push_admitted _ _ _ message) by done.
  destruct (perform_all perform message (Database.content_types db)
              (PushMessage.operations message) (Database.objects db))
    as [calls [objects|args]]; [|done].
  simpl. rewrite fold_add_operation. simpl. rewrite map_app. simpl.
  apply StronglySorted_app_2; [|done|repeat constructor].
  intros k k' Hk ->%list_elem_of_singleton. by apply next_key_fresh.
Qed.

(** C1, as amended: for a push whose message carries a version id, or that
    meets an empty ledger, [handle_push] raises [PushRejected] exactly when
    one of the four checks fails or an operation cannot be performed.  The
    checks are made in this order, each with its own reason and before any
    operation is performed: the input parses, the version id of the message
    equals the latest one of the ledger, there are operations, the
    signature is right.  No rejection changes the database, and a failed
    check leaves the log as it was. *)
Theorem handle_push_rejected_iff (data : Data) (db : Database.t Row) (log : list LogEntry) :
  (∀ message, parse_push data = Some message →
     PushMessage.latest_version_id message = None → get_latest_version_id db = None) →
  let outcome := handle_push parse_push islegit perform repr now data db log in
  ((∃ reason, outcome.1.1 = Raise (PushRejected reason)) ↔
     admission_failure parse_push islegit data db ∨
     operation_failure parse_push perform data db) ∧
  (parse_push data = None →
     outcome = (Raise (PushRejected (NotAPushMessage data)), db, log)) ∧
  (∀ message, parse_push data = Some message →
     (get_latest_version_id db ≠ PushMessage.latest_version_id message →
        ∃ given, PushMessage.latest_version_id message = Some given ∧
          outcome = (Raise (PushRejected (NotLatestVersion given)), db, log)) ∧
     (get_latest_version_id db = PushMessage.latest_version_id message →
        PushMessage.operations message = [] →
        outcome = (Raise (PushRejected NoOperations), db, log)) ∧
     (get_latest_version_id db = PushMessage.latest_version_id message →
        PushMessage.operations message ≠ [] →
        islegit message db = false →
        outcome = (Raise (PushRejected NotProperlySigned), db, log))) ∧
  (∀ reason, outcome.1.1 = Raise (PushRejected reason) → outcome.1.2 = db).
Proof.
  intros Hgiven outcome.
  assert (∀ message, parse_push data = Some message →
            get_latest_version_id db ≠ PushMessage.latest_version_id message →
            ∃ given, PushMessage.latest_version_id message = Some given ∧
              outcome = (Raise (PushRejected (NotLatestVersion given)), db, log)) as Hstale.
  { intros message Hparse Hne.
    destruct (PushMessage.latest_version_id message) as [given|] eqn:Hlatest.
    - exists given. split; [done|]. by apply (handle_push_not_latest _ _ _ message).
    - exfalso. apply Hne. by apply (Hgiven message). }
  split_and!.
  - unfold admission_failure, operation_failure. subst outcome.
    destruct (parse_push data) as [message|] eqn:Hparse.
    2: { rewrite handle_push_not_parsed by done. split; [by left; left|eauto]. }
    destruct (decide (get_latest_version_id db = PushMessage.latest_version_id message))
      as [Hlatest|Hlatest].
    2: { destruct (Hstale message eq_refl Hlatest) as (given & _ & ->).
         split; [intros _|eauto]. left. right. exists message. eauto. }
    destruct (decide (PushMessage.operations message = [])) as [Hops|Hops].
    { rewrite (handle_push_no_operations _ _ _ message) by done.
      split; [intros _|eauto]. left. right. exists message. eauto. }
    destruct (islegit message db) eqn:Hlegit.
    2: { rewrite (handle_push_not_signed _ _ _ message) by done.
         split; [intros _|eauto]. left. right. exists message. eauto 6. }
    rewrite (handle_push_admitted _ _ _ message) by done.
    destruct (perform_all perform message (Database.content_types db)
                (PushMessage.operations message) (Database.objects db))
      as [calls [objects|args]] eqn:Hperform; simpl.
    + split; [by intros [reason ?]|].
      intros [[?|(m & [= <-] & [?|[?|?]])]|(m & args & [= <-] & Hfail)];
        rewrite ?Hperform in *; simpl in *; congruence.
    + split; [intros _|eauto]. right. exists message, args. by rewrite Hperform.
  - intros Hparse. by apply handle_push_not_parsed.
  - intros message Hparse. split_and!.
    + by apply Hstale.
    + intros. by apply (handle_push_no_operations _ _ _ message).
    + intros. by apply (handle_push_not_signed _ _ _ message).
  - intros reason. subst outcome.
    unfold handle_push, with_transaction.
    destruct (handle_push_proc _ _ _ _ _ _ _ _) as [[[v db']|e] log']; simpl; done.
Qed.

End handlers.

(** *** Pull *)

Section pull.
Context {Data Value Row Arg : Type}.
Variable py_int : Value → option Z.

Lemma fold_add_version (swell : bool) (db : Database.t Row) (versions : list Version.t)
    (message : PullMessage.t Row Value) :
  fold_left (add_version swell db) versions message =
  PullMessage.mk (PullMessage.versions message ++ versions)
    (PullMessage.operations message ++ flat_map (operations_of db) versions)
    (if swell then
       fold_left (add_object db) (flat_map (operations_of db) versions)
         (PullMessage.payload message)
     else PullMessage.payload message)
    (PullMessage.extra message).
Proof.
  revert message. induction versions as [|v versions IH]; intros message; simpl.
  - rewrite !app_nil_r. by destruct message, swell.
  - rewrite IH. unfold add_version. simpl. rewrite <- !app_assoc. simpl.
    destruct swell; [|done]. by rewrite fold_left_app.
Qed.

(** The payload holds the current rows of the subjects of the operations. *)
Lemma lookup_fold_add_object (db : Database.t Row) (ops : list Operation)
    (payload : gmap (Z * Z) Row) (k : Z * Z) :
  fold_left (add_object db) ops payload !! k =
  if bool_decide (k ∈ map subject ops) then
    match Database.objects db !! k with
    | Some row => Some row
    | None => payload !! k
    end
  else payload !! k.
Proof.
  revert payload. induction ops as [|op ops IH]; intros payload; cbn [fold_left map].
  - case_bool_decide as Hin; [by apply elem_of_nil in Hin|done].
  - rewrite IH. unfold add_object.
    destruct (decide (k = subject op)) as [->|Hne].
    + rewrite (bool_decide_eq_true_2 (subject op ∈ subject op :: _)) by left.
      destruct (Database.objects db !! subject op) as [row|] eqn:Hrow.
      * rewrite lookup_insert_eq. by case_bool_decide.
      * by case_bool_decide.
    + assert ((match Database.objects db !! subject op with
               | Some row => <[subject op:=row]> payload
               | None => payload
               end) !! k = payload !! k) as ->.
      { destruct (Database.objects db !! subject op); [|done].
        by rewrite lookup_insert_ne. }
      rewrite (bool_decide_ext (k ∈ subject op :: map subject ops) (k ∈ map subject ops));
        [done|].
      rewrite elem_of_cons. tauto.
Qed.

Lemma StronglySorted_map_filter {A : Type} (f : A → Z) (p : A → bool) (l : list A) :
  StronglySorted Z.lt (map f l) → StronglySorted Z.lt (map f (List.filter p l)).
Proof.
  induction l as [|x l IH]; simpl; intros Hs; [done|].
  apply StronglySorted_inv in Hs as [Hs Hx].
  destruct (p x); simpl; [|by apply IH].
  constructor; [by apply IH|].
  rewrite Forall_forall in *. intros y (z & -> & Hz)%list_elem_of_fmap.
  apply Hx, list_elem_of_fmap_2.
  by apply list_elem_of_In, filter_In in Hz as [?%list_elem_of_In _].
Qed.

(** C7: [handle_pull] always returns a message.  Without a
    [latest_version_id] in the request, or with one that [int] does not
    accept, the message holds all the versions; otherwise it holds exactly
    the versions whose id is strictly greater than the given one, none when
    the given one is the latest.  The versions come in table order, which is
    ascending for a ledger whose rows are in ascending order.  The
    operations are those of the versions of the message; the payload holds
    the current rows of their subjects when the request has no
    [fast_forward] key and is empty when it has one. *)
Theorem handle_pull_versions (data : gmap string Value)
    (extra_data : option (gmap string Value)) (db : Database.t Row) :
  StronglySorted Z.lt (map Version.version_id (Database.versions db)) →
  let requested := data !! "latest_version_id"%string ≫= py_int in
  ∃ message,
    handle_pull (Data:=Data) (Arg:=Arg) py_int data extra_data db = Return message ∧
    (requested = None → PullMessage.versions message = Database.versions db) ∧
    (∀ given, requested = Some given →
       PullMessage.versions message =
         List.filter (λ v, given <? Version.version_id v) (Database.versions db) ∧
       ∀ v, v ∈ PullMessage.versions message ↔
            v ∈ Database.versions db ∧ given < Version.version_id v) ∧
    StronglySorted Z.lt (map Version.version_id (PullMessage.versions message)) ∧
    (requested ≠ None → requested = get_latest_version_id db →
       PullMessage.versions message = []) ∧
    PullMessage.operations message =
      flat_map (operations_of db) (PullMessage.versions message) ∧
    (data !! "fast_forward"%string = None →
       ∀ k row, PullMessage.payload message !! k = Some row ↔
                Database.objects db !! k = Some row ∧
                ∃ op, op ∈ PullMessage.operations message ∧ subject op = k) ∧
    (is_Some (data !! "fast_forward"%string) → PullMessage.payload message = ∅).
Proof.
  intros Hsorted requested. eexists. split; [reflexivity|].
  rewrite fold_add_version. simpl.
  change (match data !! "latest_version_id"%string with
          | Some value => py_int value
          | None => None
          end) with requested.
  split_and!.
  - by intros ->.
  - intros given ->. split; [done|]. intros v.
    rewrite !list_elem_of_In, filter_In, Z.ltb_lt. done.
  - destruct requested; [by apply StronglySorted_map_filter|done].
  - intros Hsome Hlatest. destruct requested as [given|]; [|done].
    apply filter_drop_all. intros v Hv. apply Z.ltb_ge.
    apply (max_key_upper (map Version.version_id (Database.versions db))); [done|].
    by apply list_elem_of_fmap_2.
  - done.
  - intros Hff k row. rewrite Hff. simpl.
    rewrite lookup_fold_add_object, lookup_empty.
    case_bool_decide as Hk.
    + apply list_elem_of_fmap in Hk as (op & -> & Hop).
      destruct (Database.objects db !! subject op); split; try done.
      * intros [= <-]. eauto.
      * by intros [? _].
      * by intros [? _].
    + split; [done|]. intros (_ & op & Hop & <-). exfalso. apply Hk.
      by apply list_elem_of_fmap_2.
  - intros [value Hff]. rewrite Hff. simpl. done.
Qed.

End pull.
End HandlerFacts.

(** ** The theorems on the sample data *)

Module Witnesses.
Import Lang Models Compression Handlers Replay Examples.
Import SortedFacts PureFacts TableFacts CompactionFacts HandlerFacts.

Lemma NoDup_order_table : NoDup (map order table).
Proof. apply (bool_decide_unpack _). by vm_compute. Defined.

Lemma compress_table : compress table = Return compressed_table.
Proof. by vm_compute. Defined.

(** Row 1 of the sample table keeps its Insert alone. *)
Lemma compress_sequences_witness :
  NoDup (map order table) ∧
  compress table = Return compressed_table ∧
  sequence_of (1, 1) compressed_table = [op 1 1 Insert].
Proof.
  split; [exact NoDup_order_table|]. split; [exact compress_table|].
  destruct (compress_sequences table compressed_table (1, 1)
              NoDup_order_table compress_table) as [Hinsert _].
  apply (Hinsert [op 5 1 Update; op 2 1 Update] (op 1 1 Insert)).
  - by vm_compute.
  - reflexivity.
  - repeat constructor.
Defined.

Lemma rev_groups (groups : list (Z * Z * list Operation)) : rev groups ≡ₚ groups.
Proof. symmetry. apply Permutation_rev. Defined.

(** The sample table, with the dictionary read backwards in the first pass
    and forwards in the second. *)
Lemma compaction_idempotent_witness :
  (∀ groups : list (Z * Z * list Operation), rev groups ≡ₚ groups) ∧
  (∀ groups : list (Z * Z * list Operation), id groups ≡ₚ groups) ∧
  NoDup (map order table) ∧
  (∃ once twice,
     compressed_operations_iter (@rev _) table = Return once ∧
     compressed_operations_iter id once = Return twice ∧
     twice ≡ₚ once ∧
     (NoDup (map order table) → twice = once)) ∧
  (∀ table', compress table = Return table' → compress table' = Return table').
Proof.
  assert (∀ groups : list (Z * Z * list Operation), id groups ≡ₚ groups) as Hid
    by (intros groups; reflexivity).
  split; [exact rev_groups|]. split; [exact Hid|]. split; [exact NoDup_order_table|].
  exact (compaction_idempotent (@rev _) id table table rev_groups Hid NoDup_order_table).
Defined.

(** Two operations that share their [order], in the iteration order of
    CPython 2.7.  Six rows make the dictionary of the first pass grow to 32
    slots, where row 2 comes before row 1; the two rows that are left fit
    the 8 slots of the second pass, where row 1 comes before row 2. *)
Example scenario_tied_orders :
  PyDict.compressed_operations_cpython Samples.tied =
    Return [op 5 2 Update; op 5 1 Update] ∧
  PyDict.compressed_operations_cpython [op 5 2 Update; op 5 1 Update] =
    Return [op 5 1 Update; op 5 2 Update].
Proof. by vm_compute. Qed.

(** Compressing the compressed list does not give the same list when two
    operations of different rows share their [order]. *)
Lemma compressed_operations_twice_differs :
  ¬ ∃ compressed,
      PyDict.compressed_operations_cpython Samples.tied = Return compressed ∧
      PyDict.compressed_operations_cpython compressed = Return compressed.
Proof.
  intros (compressed & Honce & Htwice).
  assert (compressed = [op 5 2 Update; op 5 1 Update]) as ->.
  { vm_compute in Honce. by injection Honce as <-. }
  vm_compute in Htwice. discriminate Htwice.
Qed.

(** The history of the row that is inserted, updated and deleted, and the
    sequence of row 3 of the sample table, which has the same shape. *)
Lemma compaction_preserves_net_effect_witness :
  Forall (λ o, subject o = (1, 1)) history ∧
  legal (rev (sorted order history)) = true ∧
  NoDup (map order table) ∧
  compress table = Return compressed_table ∧
  legal (sequence_of (3, 1) table) = true ∧
  (∃ compressed,
     compressed_operations history = Return compressed ∧
     same_effect 0 (sorted order history) compressed) ∧
  same_effect 0 (rev (sequence_of (3, 1) table)) (rev (sequence_of (3, 1) compressed_table)).
Proof.
  assert (Forall (λ o, subject o = (1, 1)) history) as Hrow by repeat constructor.
  assert (legal (rev (sorted order history)) = true) as Hlegal by by vm_compute.
  assert (legal (sequence_of (3, 1) table) = true) as Hlegal' by by vm_compute.
  split_and!; try done; try exact NoDup_order_table; try exact compress_table;
    apply (compaction_preserves_net_effect 0 history table compressed_table (1, 1) (3, 1)
             Hrow Hlegal NoDup_order_table compress_table Hlegal').
Defined.

(** *** The scenarios of the spec *)

Example scenario_insert_then_updates :
  compressed_operations [op 1 1 Insert; op 2 1 Update; op 3 1 Update] =
    Return [op 1 1 Insert] ∧
  compress [op 1 1 Insert; op 2 1 Update; op 3 1 Update] = Return [op 1 1 Insert].
Proof. by vm_compute. Qed.

Example scenario_insert_then_delete :
  compressed_operations [op 1 1 Insert; op 2 1 Update; op 3 1 Delete] = Return [] ∧
  compress [op 1 1 Insert; op 2 1 Update; op 3 1 Delete] = Return [].
Proof. by vm_compute. Qed.

(** The two compactions keep a different Update: the oldest in memory, the
    newest in the table. *)
Example scenario_updates_only :
  compressed_operations [op 5 1 Update; op 6 1 Update] = Return [op 5 1 Update] ∧
  compress [op 5 1 Update; op 6 1 Update] = Return [op 6 1 Update].
Proof. by vm_compute. Qed.

(** A history that starts with a Delete vanishes from the compressed list
    and stays in the table. *)
Example scenario_delete_first :
  compressed_operations [op 1 1 Delete; op 2 1 Insert] = Return [] ∧
  compress [op 1 1 Delete; op 2 1 Insert] = Return [op 1 1 Delete; op 2 1 Insert].
Proof. by vm_compute. Qed.

(** An interior operation that is not an Update stops [compress]. *)
Example scenario_inconsistent :
  compress [op 1 1 Insert; op 2 1 Delete; op 3 1 Update] =
    Raise (AssertionError 1 1 [Insert; Delete; Update]).
Proof. by vm_compute. Qed.

Example scenario_stale_push :
  push (Some (PushMessage.mk 2 (Some 1) [op 5 2 Update] {[ (2, 1) := 52 ]} "signed")) =
    (Raise (PushRejected (NotLatestVersion 1)), server, []).
Proof. reflexivity. Qed.

(** *** Push *)

(** The push that updates a row the server does not have passes the four
    checks and is rejected all the same: rejection is not confined to the
    four checks. *)
Lemma handle_push_rejects_admitted_push :
  ¬ ((∃ reason, (push (Some bad_push)).1.1 = Raise (PushRejected reason)) ↔
     admission_failure parse_push islegit (Some bad_push) server).
Proof.
  intros [Hfails _].
  destruct Hfails as [Hparse|(message & Hparse & Hcheck)].
  - eexists. by vm_compute.
  - discriminate Hparse.
  - injection Hparse as <-.
    destruct Hcheck as [Hlatest|[Hops|Hlegit]].
    + by apply Hlatest.
    + discriminate Hops.
    + discriminate Hlegit.
Qed.

(** A message without a version id against a ledger that has versions: the
    formatting of the reason with [%d] raises [TypeError], and the push is
    not reported as rejected. *)
Lemma handle_push_without_version_raises_type_error :
  push (Some (PushMessage.mk 2 None [op 5 2 Update] ∅ "signed by two")) =
  (Raise TypeError, server, []).
Proof. reflexivity. Qed.

Lemma bad_push_has_version (message : PushMessage.t Z) :
  parse_push (Some bad_push) = Some message →
  PushMessage.latest_version_id message = None →
  get_latest_version_id server = None.
Proof. intros [= <-]. discriminate. Defined.

Lemma handle_push_rejected_iff_witness :
  (∀ message, parse_push (Some bad_push) = Some message →
     PushMessage.latest_version_id message = None →
     get_latest_version_id server = None) ∧
  ((∃ reason, (push (Some bad_push)).1.1 = Raise (PushRejected reason)) ↔
     admission_failure parse_push islegit (Some bad_push) server ∨
     operation_failure parse_push perform_spec (Some bad_push) server).
Proof.
  split; [exact bad_push_has_version|].
  exact (proj1 (handle_push_rejected_iff parse_push islegit perform_spec repr now
                  (Some bad_push) server [] bad_push_has_version)).
Defined.

(** The update of row 2 is performed, the update of row 9 is not: nothing
    of the push is kept, and the log names node 2. *)
Lemma handle_push_operation_error_witness :
  push (Some bad_push) =
  (Raise (PushRejected (OperationFailed [op 6 9 Update])), server,
   [("handlers.push.OperationError"%string, 2, ["<Operation>"%string])]).
Proof.
  apply (handle_push_operation_error parse_push islegit perform_spec repr now
           (Some bad_push) server [] bad_push [op 5 2 Update] [] (op 6 9 Update) [] []
           (<[(2, 1) := 52]> (Database.objects server)) [op 6 9 Update]).
  - reflexivity.
  - reflexivity.
  - reflexivity.
  - reflexivity.
  - by vm_compute.
  - by vm_compute.
Defined.

(** The good push creates version 4 for node 2 and files its operations
    under the keys 4 and 5, the update that the client numbered 5 before the
    insert that it numbered 8. *)
Lemma handle_push_success_witness :
  push (Some good_push) =
  (Return 4,
   Database.mk
     (Database.versions server ++ [Version.mk 4 now 2])
     (Database.operations server ++
        [mkOperation 4 2 1 Update (Some 4); mkOperation 5 3 1 Insert (Some 4)])
     (Database.nodes server) (Database.content_types server)
     (<[(3, 1) := 53]> (<[(2, 1) := 52]> (Database.objects server))),
   []).
Proof.
  apply (handle_push_success parse_push islegit perform_spec repr now
           (Some good_push) server [] good_push []
           (<[(3, 1) := 53]> (<[(2, 1) := 52]> (Database.objects server)))).
  - reflexivity.
  - reflexivity.
  - discriminate.
  - reflexivity.
  - by vm_compute.
Defined.

(** *** Pull *)

(** A pull from version 1 returns the versions 2 and 3. *)
Lemma handle_pull_versions_witness :
  StronglySorted Z.lt (map Version.version_id (Database.versions server)) ∧
  ∃ message,
    handle_pull (Data:=unit) (Arg:=unit) py_int {[ "latest_version_id"%string := 1 ]}
      None server = Return message ∧
    map Version.version_id (PullMessage.versions message) = [2; 3].
Proof.
  assert (StronglySorted Z.lt (map Version.version_id (Database.versions server)))
    as Hsorted.
  { simpl. repeat constructor; lia. }
  split; [exact Hsorted|].
  destruct (handle_pull_versions (Data:=unit) (Arg:=unit) py_int
              {[ "latest_version_id"%string := 1 ]} None server Hsorted)
    as (message & Hpull & _ & Hgiven & _).
  exists message. split; [exact Hpull|].
  destruct (Hgiven 1) as [-> _]; reflexivity.
Defined.

End Witnesses.

(** * Further facts *)

(** ** The validator and the two compactions *)

Module CompressionMore.
Import Lang Models Compression Maintenance.
Import SortedFacts GroupFacts CommandFacts PureFacts TableFacts CompactionFacts.

Lemma assert_operation_sequence_Raise (seq : list Operation) (e : exn) :
  _assert_operation_sequence seq = Raise e →
  (seq = [] ∧ e = IndexError) ∨
  ∃ newest, head seq = Some newest ∧ ¬ all_updates (removelast (tail seq)) ∧
    e = AssertionError (row_id newest) (content_type_id newest) (rev (map command seq)).
Proof.
  destruct seq as [|seq0 rest]; [intros [= <-]; by left|].
  rewrite assert_operation_sequence_cons.
  destruct (forallb (is_command Update) (removelast rest)) eqn:Hmid; [done|].
  intros [= <-]. right. exists seq0. split_and!; [done| |done].
  intros Hu%andmap_all_updates. unfold andmap in Hu. simpl in Hu. congruence.
Qed.

(** X1: what the validator does.  On an empty sequence it raises
    [IndexError].  Otherwise it raises the consistency error exactly when an
    operation strictly between the two ends is not an Update, whatever the
    ends are; the error carries the row and the content type of the newest
    operation and the commands from oldest to newest. *)
Theorem assert_operation_sequence_outcome (seq : list Operation) :
  match _assert_operation_sequence seq with
  | Return _ => seq ≠ [] ∧ all_updates (removelast (tail seq))
  | Raise IndexError => seq = []
  | Raise (AssertionError row content_type old_to_new) =>
      ¬ all_updates (removelast (tail seq)) ∧
      (∃ newest, head seq = Some newest ∧
         row = row_id newest ∧ content_type = content_type_id newest) ∧
      old_to_new = rev (map command seq)
  end.
Proof.
  destruct seq as [|seq0 rest]; [done|].
  rewrite assert_operation_sequence_cons.
  destruct (forallb (is_command Update) (removelast rest)) eqn:Hmid.
  - split; [done|]. by apply andmap_all_updates.
  - split_and!; [|by exists seq0|done].
    intros Hu%andmap_all_updates. unfold andmap in Hu. simpl in Hu. congruence.
Qed.

Lemma for_each_assert_Raise (seqs : list (list Operation)) (e : exn) :
  for_each (λ _ seq, _assert_operation_sequence seq) () seqs = Raise e →
  ∃ seq, seq ∈ seqs ∧ _assert_operation_sequence seq = Raise e.
Proof.
  induction seqs as [|seq seqs IH]; simpl; [done|].
  destruct (_assert_operation_sequence seq) as [[]|e'] eqn:Hseq; cbn [mbind result_bind].
  - intros (seq' & Hin & Hraise)%IH. exists seq'. split; [by right|done].
  - intros [= ->]. exists seq. split; [left|done].
Qed.

(** X2: when [compress] stops.  It returns exactly when, in every per-row
    sequence of operations without a version, the operations strictly
    between the two ends are Updates.  Otherwise it raises the consistency
    error of one such sequence, never an [IndexError]. *)
Theorem compress_outcome (table : list Operation) :
  match compress table with
  | Return _ => Forall (λ seq, all_updates (removelast (tail seq))) (sequences table)
  | Raise e =>
      ∃ seq newest, seq ∈ sequences table ∧ head seq = Some newest ∧
        ¬ all_updates (removelast (tail seq)) ∧
        e = AssertionError (row_id newest) (content_type_id newest) (rev (map command seq))
  end.
Proof.
  destruct (compress table) as [table'|e] eqn:Hcompress.
  - apply compress_Return in Hcompress as [Hok _].
    eapply Forall_impl; [exact Hok|]. simpl. intros seq Hseq.
    by apply assert_operation_sequence_Return in Hseq as [_ ?].
  - unfold compress in Hcompress. fold (sequences table) in Hcompress.
    destruct (for_each (λ _ seq, _assert_operation_sequence seq) () (sequences table))
      as [[]|e'] eqn:Hassert; cbn [mbind result_bind] in Hcompress.
    + exfalso.
      rewrite (for_each_appends _ superfluous) in Hcompress; [done|].
      apply Forall_forall. intros seq Hseq acc. apply compress_step_superfluous.
      apply list_elem_of_In, filter_In in Hseq as [Hseq%list_elem_of_In _].
      by apply elem_of_sequences in Hseq as [? _].
    + injection Hcompress as <-.
      apply for_each_assert_Raise in Hassert as (seq & Hin & Hraise).
      apply assert_operation_sequence_Raise in Hraise
        as [[-> _]|(newest & Hhead & Hnot & ->)].
      * by apply elem_of_sequences in Hin as [? _].
      * by exists seq, newest.
Qed.

Lemma filter_sublist {A : Type} (p : A → bool) (l : list A) : List.filter p l `sublist_of` l.
Proof.
  induction l as [|x l IH]; simpl; [done|].
  destruct (p x); [by apply sublist_skip|by apply sublist_cons].
Qed.

Lemma compress_sublist (table table' : list Operation) :
  compress table = Return table' → table' `sublist_of` table.
Proof. intros [_ ->]%compress_Return. apply filter_sublist. Qed.

Lemma compress_NoDup_order (table table' : list Operation) :
  NoDup (map order table) → compress table = Return table' → NoDup (map order table').
Proof.
  intros Hnd Hcompress. eapply sublist_NoDup; [exact Hnd|].
  by apply fmap_sublist, compress_sublist.
Qed.

(** X3: what [compress] keeps.  The table it returns is the old table with
    some rows left out, in the same order; [order] is still a key; and no
    row that belongs to a version is left out. *)
Theorem compress_keeps (table table' : list Operation) :
  NoDup (map order table) →
  compress table = Return table' →
  table' `sublist_of` table ∧
  NoDup (map order table') ∧
  ∀ op, op ∈ table → version_id op ≠ None → op ∈ table'.
Proof.
  intros Hnd Hcompress.
  split_and!; [by apply compress_sublist|by apply (compress_NoDup_order table)|].
  intros op Hop Hver.
  assert (op ∈ List.filter (λ op, negb (bool_decide (version_id op = None))) table')
    as Hin.
  { rewrite (versioned_compress table table') by done.
    apply list_elem_of_In, filter_In. split; [by apply list_elem_of_In|].
    by rewrite bool_decide_eq_false_2. }
  by apply list_elem_of_In, filter_In in Hin as [?%list_elem_of_In _].
Qed.

Lemma remaining_nil (seq : list Operation) :
  NoDup seq → seq ≠ [] → remaining seq = [] →
  ∃ d middle i, seq = d :: middle ++ [i] ∧ command i = Insert ∧ command d = Delete.
Proof.
  intros Hnd Hne Hnil.
  destruct (list_ends seq) as [->|[[x ->]|(d & middle & i & ->)]]; [done| |].
  { by rewrite remaining_singleton in Hnil. }
  exists d, middle, i. split; [done|].
  pose proof (superfluous_cons (middle ++ [i]) d i) as Hs.
  rewrite app_comm_cons, last_snoc in Hs. specialize (Hs eq_refl).
  rewrite removelast_last, <- app_comm_cons in Hs.
  assert (superfluous (d :: middle ++ [i]) = d :: middle → False) as Hinit.
  { intros Heq. unfold remaining in Hnil. rewrite Heq in Hnil.
    rewrite app_comm_cons, filter_out_l in Hnil; [done|].
    by rewrite <- app_comm_cons. }
  assert (superfluous (d :: middle ++ [i]) = middle ++ [i] → False) as Htail.
  { intros Heq. unfold remaining in Hnil. rewrite Heq in Hnil.
    by rewrite (filter_out_r [d] (middle ++ [i])) in Hnil. }
  assert (superfluous (d :: middle ++ [i]) = [] → False) as Hnone.
  { intros Heq. unfold remaining in Hnil. rewrite Heq in Hnil.
    rewrite filter_keep_all in Hnil; [done|].
    intros x _. rewrite bool_decide_eq_false_2; [done|apply not_elem_of_nil]. }
  destruct (is_command Insert i) eqn:Hci, (is_command Update i) eqn:Hcu,
    (andmap (is_command Update) (d :: middle)) eqn:Hu,
    (is_command Delete d) eqn:Hcd; try (by exfalso; auto).
  all: by apply bool_decide_eq_true in Hci, Hcd.
Qed.

(** X4: a row loses all its operations only when it was inserted and
    deleted.  If a row has operations without a version before [compress]
    and none after, the oldest of them is an Insert and the newest a
    Delete. *)
Theorem compress_forgets_only_insert_delete (table table' : list Operation) (k : Z * Z) :
  NoDup (map order table) →
  compress table = Return table' →
  sequence_of k table ≠ [] →
  sequence_of k table' = [] →
  ∃ d middle i,
    sequence_of k table = d :: middle ++ [i] ∧ command i = Insert ∧ command d = Delete.
Proof.
  intros Hnd Hcompress Hne Hnil.
  rewrite (sequence_of_compress table table' k) in Hnil by done.
  apply remaining_nil; [by apply NoDup_sequence_of|done|done].
Qed.

(** X5: [compressed_operations] only selects.  Every operation it returns
    is one of those it was given, none is returned twice, and no two of
    them are about the same row. *)
Theorem compressed_operations_selects (operations : list Operation) :
  ∃ compressed,
    compressed_operations operations = Return compressed ∧
    compressed ⊆+ operations ∧
    NoDup (map subject compressed).
Proof.
  exists (sorted order (flat_map contribution (runs operations))).
  split; [apply compressed_operations_eq|]. split.
  - rewrite sorted_perm.
    etransitivity; [apply sublist_submseteq, flat_map_contribution_sublist|].
    by rewrite runs_partition.
  - rewrite sorted_perm. apply NoDup_subject_compressed.
Qed.

Lemma members_contributions (k : Z * Z) (groups : list (Z * Z * list Operation)) :
  NoDup (map fst groups) →
  (∀ k' s op, (k', s) ∈ groups → op ∈ s → subject op = k') →
  members subject k (flat_map contribution (itervalues groups)) =
  contribution (default [] (get k groups)).
Proof.
  induction groups as [|[k0 s0] groups IH]; simpl; intros Hnd Hsub; [done|].
  apply NoDup_cons in Hnd as [Hk0 Hnd].
  unfold members in *. rewrite List.filter_app.
  assert (∀ k' s op, (k', s) ∈ groups → op ∈ s → subject op = k') as Hsub'.
  { intros k' s op Hin. apply Hsub. by right. }
  rewrite (IH Hnd Hsub').
  destruct (decide (k = k0)) as [->|Hne]; simpl.
  - rewrite filter_keep_all.
    2: { intros op Hop%contribution_elem_of. apply bool_decide_eq_true.
         apply (Hsub k0 s0); [left|done]. }
    apply get_None in Hk0. rewrite Hk0. simpl. by rewrite app_nil_r.
  - rewrite filter_drop_all; [done|].
    intros op Hop%contribution_elem_of. apply bool_decide_eq_false.
    rewrite (Hsub k0 s0 op) by (done || left). done.
Qed.

(** What the compressed list holds for one row. *)
Lemma members_compressed (operations : list Operation) (k : Z * Z) :
  members subject k (sorted order (flat_map contribution (runs operations))) =
  contribution (sorted order (members subject k operations)).
Proof.
  assert (members subject k (flat_map contribution (runs operations)) =
          contribution (members subject k (sorted order operations))) as Hrow.
  { unfold runs. rewrite members_contributions.
    - rewrite get_group_by. by destruct (members subject k (sorted order operations)).
    - apply NoDup_keys_group_by.
    - intros k' s op [-> _]%elem_of_group_by Hop.
      by apply elem_of_members in Hop as [_ ?]. }
  unfold members in *. rewrite <- sorted_filter, Hrow, <- sorted_filter.
  apply sorted_id. clear Hrow.
  pose proof (contribution_length
                (sorted order (List.filter (λ e, bool_decide (subject e = k)) operations)))
    as Hlen.
  revert Hlen.
  generalize (contribution
                (sorted order (List.filter (λ e, bool_decide (subject e = k)) operations))).
  intros [|x [|y l]] Hlen; simpl in *; try lia; repeat constructor.
Qed.

(** X6: rows are compressed independently.  What [compressed_operations]
    returns for a row is what it returns when it is given the operations of
    that row alone. *)
Theorem compressed_operations_per_row (operations compressed : list Operation) (k : Z * Z) :
  compressed_operations operations = Return compressed →
  compressed_operations (members subject k operations) =
  Return (members subject k compressed).
Proof.
  rewrite compressed_operations_eq. intros [= <-].
  rewrite members_compressed.
  apply (compressed_operations_single_row _ k).
  intros op Hop. by apply elem_of_members in Hop as [_ ?].
Qed.

(** X7: the result does not depend on the order of the operations given, nor
    on the order in which the dictionary of runs is iterated, as long as no
    two operations share their [order]. *)
Theorem compressed_operations_order_independent
    (iteration : list (Z * Z * list Operation) → list (Z * Z * list Operation))
    (operations operations' : list Operation) :
  (∀ groups, iteration groups ≡ₚ groups) →
  operations ≡ₚ operations' →
  NoDup (map order operations) →
  compressed_operations_iter iteration operations' = compressed_operations operations.
Proof.
  intros Hiter Hperm Hnd.
  rewrite compressed_operations_any_iteration_order; [|done|by rewrite <- Hperm].
  unfold compressed_operations, compressed_operations_iter.
  by rewrite (sorted_unique order operations operations').
Qed.

(** *** The command that sums up a legal sequence *)

Lemma net_command_ends (newest oldest : Operation) (middle : list Operation) :
  net_command (newest :: middle ++ [oldest]) =
  if is_command Insert oldest then
    if is_command Delete newest then None else Some Insert
  else Some (command newest).
Proof.
  unfold net_command. change (head (newest :: middle ++ [oldest])) with (Some newest).
  rewrite (app_comm_cons middle), last_snoc.
  rewrite bool_decide_eq_true_2; [done|].
  rewrite length_app, length_cons. simpl. lia.
Qed.

Lemma net_command_singleton (op : Operation) : net_command [op] = Some (command op).
Proof.
  unfold net_command, is_command. simpl.
  case_bool_decide as Hc; [by rewrite Hc|done].
Qed.

(** What [compress] leaves of a legal sequence is the operation that sums
    it up, if any. *)
Lemma remaining_net (seq : list Operation) :
  NoDup seq → legal seq = true →
  map command (remaining seq) = option_list (net_command seq).
Proof.
  intros Hnd Hlegal.
  destruct (list_ends seq) as [->|[[x ->]|(newest & middle & oldest & ->)]].
  - done.
  - by rewrite remaining_singleton, net_command_singleton.
  - rewrite net_command_ends.
    apply legal_ends in Hlegal as (Hmid & Ho & Hn).
    destruct (command oldest) eqn:Hoc, (command newest) eqn:Hnc; try done; commands.
    + rewrite app_comm_cons in *. rewrite remaining_insert_updates; try done.
      * simpl. by rewrite Hoc.
      * by apply Forall_cons.
    + by rewrite remaining_insert_delete.
    + rewrite remaining_updates_only; [simpl; by rewrite Hnc|done|].
      apply Forall_cons. split; [done|].
      apply Forall_app. split; [done|]. by apply Forall_singleton.
    + rewrite remaining_update_delete by done. simpl. by rewrite Hnc.
Qed.

(** So is what [compressed_operations] keeps of it. *)
Lemma contribution_net (seq : list Operation) :
  legal seq = true →
  map command (contribution (rev seq)) = option_list (net_command seq).
Proof.
  intros Hlegal.
  destruct (list_ends seq) as [->|[[x ->]|(newest & middle & oldest & ->)]].
  - done.
  - simpl. by rewrite contribution_singleton, net_command_singleton.
  - rewrite net_command_ends, rev_ends.
    apply legal_ends in Hlegal as (Hmid & Ho & Hn).
    apply (proj2 (all_updates_rev _)) in Hmid.
    destruct (command oldest) eqn:Hoc, (command newest) eqn:Hnc; try done; commands.
    + rewrite contribution_insert; [simpl; by rewrite Hoc|done|].
      apply Forall_app. split; [done|]. by apply Forall_singleton.
    + by rewrite contribution_insert_delete.
    + rewrite contribution_updates; [simpl; by rewrite Hoc|].
      apply Forall_cons. split; [done|].
      apply Forall_app. split; [done|]. by apply Forall_singleton.
    + rewrite contribution_delete by done. simpl. by rewrite Hnc.
Qed.

Lemma sequence_of_rev_sorted (k : Z * Z) (table : list Operation) :
  sequence_of k table =
  rev (sorted order
         (members subject k (List.filter (λ op, bool_decide (version_id op = None)) table))).
Proof.
  unfold sequence_of, unversioned, members. rewrite filter_rev. f_equal.
  symmetry. apply sorted_filter.
Qed.

(** X8: the two compactions agree on legal histories.  For a row whose
    operations without a version form a legal sequence, the commands that
    [compress] leaves in the table for that row are the commands that
    [compressed_operations] returns for it when it is given the operations
    without a version of the table; the operation kept may differ. *)
Theorem compactions_agree (table table' compressed : list Operation) (k : Z * Z) :
  NoDup (map order table) →
  compress table = Return table' →
  compressed_operations (List.filter (λ op, bool_decide (version_id op = None)) table) =
    Return compressed →
  legal (sequence_of k table) = true →
  map command (sequence_of k table') = map command (members subject k compressed).
Proof.
  intros Hnd Hcompress Hpure Hlegal.
  rewrite compressed_operations_eq in Hpure. injection Hpure as <-.
  rewrite members_compressed, (sequence_of_compress table table' k) by done.
  rewrite remaining_net; [|by apply NoDup_sequence_of|done].
  rewrite <- contribution_net by done.
  by rewrite sequence_of_rev_sorted, rev_involutive.
Qed.

End CompressionMore.

(** ** Trimming and the unsynchronized objects *)

Module MaintenanceFacts.
Import Lang Models Compression Handlers Maintenance.
Import SortedFacts GroupFacts CommandFacts PureFacts TableFacts CompactionFacts.
Import HandlerFacts CompressionMore.

Lemma max_key_elem_of (keys : list Z) (m : Z) : max_key keys = Some m → m ∈ keys.
Proof.
  revert m. induction keys as [|k keys IH]; simpl; intros m; [done|].
  fold (max_key keys). destruct (max_key keys) as [m'|]; intros [= <-].
  - destruct (Z.max_spec k m') as [[_ ->]|[_ ->]]; [right; by apply IH|left].
  - left.
Qed.

Lemma max_key_constant (keys : list Z) (m : Z) :
  keys ≠ [] → Forall (λ k, k = m) keys → max_key keys = Some m.
Proof.
  induction keys as [|k keys IH]; simpl; intros Hne Hall; [done|].
  apply Forall_cons in Hall as [-> Hall]. fold (max_key keys).
  destruct keys as [|k' keys]; [done|].
  rewrite IH by done. f_equal. lia.
Qed.

Section trim.
Context {Row : Type}.

Lemma trim_latest (db : Database.t Row) :
  get_latest_version_id (trim db) = get_latest_version_id db.
Proof.
  unfold get_latest_version_id at 1. simpl.
  destruct (get_latest_version_id db) as [m|] eqn:Hlatest.
  - apply max_key_constant.
    + pose proof (max_key_elem_of _ _ Hlatest) as (v & Hm & Hv)%list_elem_of_fmap.
      intros Hnil. apply fmap_nil_inv in Hnil.
      assert (v ∈ List.filter (λ v, bool_decide (Some (Version.version_id v) = Some m))
                    (Database.versions db)) as Hin.
      { apply list_elem_of_In, filter_In. split; [by apply list_elem_of_In|].
        apply bool_decide_eq_true. by rewrite Hm. }
      rewrite Hnil in Hin. by apply elem_of_nil in Hin.
    + apply Forall_forall. intros k (v & -> & Hv)%list_elem_of_fmap.
      apply list_elem_of_In, filter_In in Hv as [_ Hv].
      apply bool_decide_eq_true in Hv. by injection Hv.
  - unfold get_latest_version_id in Hlatest.
    destruct (Database.versions db); [done|discriminate].
Qed.

(** X9: what [trim] leaves.  The latest version id is the same before and
    after; every version left carries it, and one is left if there was any;
    no operation left belongs to a version, so that no version keeps its
    operations; and the operations without a version are all kept, in
    order. *)
Theorem trim_keeps_latest (db : Database.t Row) :
  get_latest_version_id (trim db) = get_latest_version_id db ∧
  Forall (λ v, Some (Version.version_id v) = get_latest_version_id db)
    (Database.versions (trim db)) ∧
  (Database.versions db ≠ [] → Database.versions (trim db) ≠ []) ∧
  (∀ v, operations_of (trim db) v = []) ∧
  List.filter (λ op, bool_decide (version_id op = None)) (Database.operations (trim db)) =
  List.filter (λ op, bool_decide (version_id op = None)) (Database.operations db).
Proof.
  split_and!.
  - apply trim_latest.
  - apply Forall_forall. intros v Hv. simpl in Hv.
    apply list_elem_of_In, filter_In in Hv as [_ Hv]. by apply bool_decide_eq_true in Hv.
  - intros Hne Hnil.
    pose proof (trim_latest db) as Hlatest.
    unfold get_latest_version_id at 1 in Hlatest. rewrite Hnil in Hlatest.
    unfold get_latest_version_id in Hlatest.
    destruct (Database.versions db); [done|discriminate].
  - intros v. unfold operations_of. simpl. rewrite filter_filter_comm.
    apply filter_drop_all. intros op Hop.
    apply list_elem_of_In, filter_In in Hop as [_ Hop].
    apply bool_decide_eq_true in Hop. apply bool_decide_eq_false. by rewrite Hop.
  - simpl. apply filter_keep_all. intros op Hop.
    by apply list_elem_of_In, filter_In in Hop as [_ ?].
Qed.

(** X10: trimming twice is trimming once. *)
Theorem trim_idempotent (db : Database.t Row) : trim (trim db) = trim db.
Proof.
  unfold trim at 1. rewrite trim_latest. unfold trim. simpl. f_equal.
  - apply filter_keep_all. intros v Hv.
    by apply list_elem_of_In, filter_In in Hv as [_ ?].
  - apply filter_keep_all. intros op Hop.
    by apply list_elem_of_In, filter_In in Hop as [_ ?].
Qed.

End trim.

Lemma filter_idemp {A : Type} (p : A → bool) (l : list A) :
  List.filter p (List.filter p l) = List.filter p l.
Proof.
  apply filter_keep_all. intros x Hx.
  by apply list_elem_of_In, filter_In in Hx as [_ ?].
Qed.

(** [compress] on the operations without a version alone. *)
Lemma compress_unversioned (table : list Operation) :
  compress (List.filter (λ op, bool_decide (version_id op = None)) table) =
  match compress table with
  | Return table' => Return (List.filter (λ op, bool_decide (version_id op = None)) table')
  | Raise e => Raise e
  end.
Proof.
  unfold compress, unversioned. rewrite filter_idemp.
  destruct (for_each (λ _ seq, _assert_operation_sequence seq) () _) as [[]|e];
    cbn [mbind result_bind]; [|done].
  destruct (for_each compress_step [] _) as [deleted|e]; cbn [mbind result_bind]; [|done].
  unfold commit. by rewrite filter_filter_comm.
Qed.

Section unsynched.
Context {Row Class : Type}.
Variable synched_models : gmap string Class.

(** X11: [trim] is invisible to the compression.  Compressing the
    operations table of a trimmed database gives the trimmed compressed
    table, with the same exception if any, and [unsynched_objects] reports
    the same objects before and after a trim. *)
Theorem trim_invisible (cts : list ContentType.t) (db : Database.t Row) :
  compress (Database.operations (trim db)) =
    match compress (Database.operations db) with
    | Return table' =>
        Return (List.filter (λ op, bool_decide (version_id op = None)) table')
    | Raise e => Raise e
    end ∧
  unsynched_objects synched_models cts (Database.operations (trim db)) =
  unsynched_objects synched_models cts (Database.operations db).
Proof.
  split; [apply compress_unversioned|].
  unfold unsynched_objects. simpl. rewrite compress_unversioned.
  destruct (compress (Database.operations db)) as [table'|e]; cbn [mbind result_bind];
    [|done].
  by rewrite filter_idemp.
Qed.

Lemma elem_of_unversioned_rows (table : list Operation) (op : Operation) :
  op ∈ List.filter (λ op, bool_decide (version_id op = None)) table ↔
  op ∈ sequence_of (subject op) table.
Proof.
  rewrite elem_of_sequence_of, list_elem_of_In, filter_In, bool_decide_eq_true.
  rewrite <- list_elem_of_In. tauto.
Qed.

(** X12: what [unsynched_objects] reports for legal histories.  When
    [order] is a key and every per-row sequence is legal, a triad is
    reported exactly for the rows of a tracked class whose operations
    without a version sum up to a command, with that command: Insert for a
    row inserted, the newest command for a row that was there before, and
    nothing for a row inserted and deleted.  No row is reported twice. *)
Theorem unsynched_objects_net (cts : list ContentType.t) (table : list Operation)
    (triads : list (Class * Z * Command)) :
  NoDup (map order table) →
  Forall (λ seq, legal seq = true) (sequences table) →
  unsynched_objects synched_models cts table = Return triads →
  (∀ c row cmd,
     (c, row, cmd) ∈ triads ↔
     ∃ ct, getclass synched_models cts ct = Some c ∧
           net_command (sequence_of (row, ct) table) = Some cmd) ∧
  ∃ ops, triads = omap (triad synched_models cts) ops ∧ NoDup (map subject ops).
Proof.
  intros Hnd Hlegal Hret. unfold unsynched_objects in Hret.
  destruct (compress table) as [table'|e] eqn:Hcompress; cbn [mbind result_bind] in Hret;
    [|done].
  injection Hret as <-. rewrite Forall_forall in Hlegal.
  assert (∀ k, sequence_of k table ≠ [] → legal (sequence_of k table) = true) as Hlegal'.
  { intros k Hne. apply Hlegal, elem_of_sequences. split; [done|by exists k]. }
  assert (∀ k, map command (sequence_of k table') =
               option_list (net_command (sequence_of k table))) as Hnet.
  { intros k. rewrite (sequence_of_compress table table' k) by done.
    destruct (decide (sequence_of k table = [])) as [->|Hne]; [done|].
    apply remaining_net; [by apply NoDup_sequence_of|by apply Hlegal']. }
  split.
  - intros c row cmd. rewrite list_elem_of_omap. split.
    + intros (op & Hop & Htriad). unfold triad in Htriad.
      destruct (getclass synched_models cts (content_type_id op)) as [c'|] eqn:Hclass;
        [|done].
      simpl in Htriad. injection Htriad as -> <- <-.
      exists (content_type_id op). split; [done|].
      apply elem_of_unversioned_rows in Hop.
      assert (command op ∈ map command (sequence_of (subject op) table')) as Hcmd
        by by apply list_elem_of_fmap_2.
      rewrite Hnet in Hcmd. unfold subject in Hcmd.
      destruct (net_command _) as [cmd|]; simpl in Hcmd.
      * by apply list_elem_of_singleton in Hcmd as ->.
      * by apply elem_of_nil in Hcmd.
    + intros (ct & Hclass & Hcmd).
      assert (cmd ∈ map command (sequence_of (row, ct) table')) as Hin.
      { rewrite Hnet, Hcmd. simpl. left. }
      apply list_elem_of_fmap in Hin as (op & -> & Hop).
      pose proof Hop as (_ & _ & Hsubject)%elem_of_sequence_of.
      injection Hsubject as <- <-.
      exists op. split; [by apply elem_of_unversioned_rows|].
      unfold triad. by rewrite Hclass.
  - eexists. split; [done|].
    apply NoDup_fmap_2_strong.
    + intros op1 op2 Hop1%elem_of_unversioned_rows Hop2%elem_of_unversioned_rows Heq.
      rewrite <- Heq in Hop2.
      pose proof (Hnet (subject op1)) as Hlen%(f_equal length).
      rewrite length_map in Hlen.
      destruct (sequence_of (subject op1) table') as [|x [|y l]].
      * by apply elem_of_nil in Hop1.
      * apply list_elem_of_singleton in Hop1, Hop2. congruence.
      * destruct (net_command _); simpl in Hlen; lia.
    + apply NoDup_ListNoDup, List.NoDup_filter, NoDup_ListNoDup.
      apply NoDup_fmap_1 with order.
      by apply (compress_NoDup_order table table').
Qed.

End unsynched.
End MaintenanceFacts.

(** ** Pushes and pulls one after the other *)

Module HandlersMore.
Import Lang Models Handlers Ledger.
Import SortedFacts CommandFacts TableFacts HandlerFacts MaintenanceFacts.

Lemma max_key_None (keys : list Z) : max_key keys = None → keys = [].
Proof. by destruct keys. Qed.

(** The latest version id after a version with a new key was added. *)
Lemma max_key_next (keys : list Z) : max_key (keys ++ [next_key keys]) = Some (next_key keys).
Proof.
  rewrite max_key_snoc. unfold next_key. f_equal. destruct (max_key keys); lia.
Qed.

Lemma next_key_not_latest (keys : list Z) : max_key keys ≠ Some (next_key keys).
Proof.
  unfold next_key. destruct (max_key keys) as [m|]; [|done]. intros [= Hm]. lia.
Qed.

Section push.
Context {Data Value Row Arg : Type}.
Variable parse_push : Data → option (PushMessage.t Row).
Variable islegit : PushMessage.t Row → Database.t Row → bool.
Variable perform :
  Operation → list ContentType.t → PushMessage.t Row → gmap (Z * Z) Row →
  list (string * list string) * result (list Arg) (gmap (Z * Z) Row).
Variable repr : Arg → string.
Variable py_int : Value → option Z.
Variable now : Z.

(** What an accepted push was and did. *)
Lemma handle_push_Return_inv (data : Data) (db db' : Database.t Row)
    (log log' : list LogEntry) (v : Z) :
  handle_push parse_push islegit perform repr now data db log = (Return v, db', log') →
  ∃ message calls objects,
    parse_push data = Some message ∧
    get_latest_version_id db = PushMessage.latest_version_id message ∧
    PushMessage.operations message ≠ [] ∧
    islegit message db = true ∧
    perform_all perform message (Database.content_types db)
      (PushMessage.operations message) (Database.objects db) = (calls, Return objects) ∧
    v = next_key (map Version.version_id (Database.versions db)) ∧
    db' = Database.mk
            (Database.versions db ++ [Version.mk v now (PushMessage.node_id message)])
            (Database.operations db ++ filed db message v)
            (Database.nodes db) (Database.content_types db) objects ∧
    log' = log ++ logged message calls.
Proof.
  destruct (parse_push data) as [message|] eqn:Hparse.
  2: { by rewrite handle_push_not_parsed. }
  destruct (decide (get_latest_version_id db = PushMessage.latest_version_id message))
    as [Hlatest|Hlatest].
  2: { unfold handle_push, with_transaction, handle_push_proc.
       rewrite Hparse, bool_decide_eq_false_2 by done. simpl.
       by destruct (PushMessage.latest_version_id message). }
  destruct (decide (PushMessage.operations message = [])) as [Hops|Hops].
  { by rewrite (handle_push_no_operations _ _ _ _ _ _ _ _ message). }
  destruct (islegit message db) eqn:Hlegit.
  2: { by rewrite (handle_push_not_signed _ _ _ _ _ _ _ _ message). }
  rewrite (handle_push_admitted _ _ _ _ _ _ _ _ message) by done.
  destruct (perform_all perform message (Database.content_types db)
              (PushMessage.operations message) (Database.objects db))
    as [calls [objects|args]] eqn:Hperform; [|done].
  simpl. rewrite fold_add_operation. simpl. intros [= <- <- <-].
  by exists message, calls, objects.
Qed.

(** X13: the version check is a compare and swap.  After a push was
    accepted, the latest version id of the ledger is the id it returned, and
    a push made against the latest version id of before is not accepted: it
    is rejected as stale, or stops on the formatting of the reason when its
    message has no version id, and the database and the log stay the same. *)
Theorem push_then_stale (data data2 : Data) (db db' : Database.t Row)
    (log log' log2 : list LogEntry) (v : Z) (message2 : PushMessage.t Row) :
  handle_push parse_push islegit perform repr now data db log = (Return v, db', log') →
  parse_push data2 = Some message2 →
  PushMessage.latest_version_id message2 = get_latest_version_id db →
  get_latest_version_id db' = Some v ∧
  handle_push parse_push islegit perform repr now data2 db' log2 =
  (match PushMessage.latest_version_id message2 with
   | Some given => Raise (PushRejected (NotLatestVersion given))
   | None => Raise TypeError
   end, db', log2).
Proof.
  intros (message & calls & objects & _ & _ & _ & _ & _ & -> & -> & _)%handle_push_Return_inv
    Hparse Hlatest.
  assert (get_latest_version_id
            (Database.mk
               (Database.versions db ++
                  [Version.mk (next_key (map Version.version_id (Database.versions db)))
                     now (PushMessage.node_id message)])
               (Database.operations db ++
                  filed db message (next_key (map Version.version_id (Database.versions db))))
               (Database.nodes db) (Database.content_types db) objects) =
          Some (next_key (map Version.version_id (Database.versions db)))) as Hnew.
  { unfold get_latest_version_id. simpl. rewrite map_app. simpl. apply max_key_next. }
  split; [done|].
  unfold handle_push, with_transaction, handle_push_proc.
  rewrite Hparse, Hnew, Hlatest. rewrite bool_decide_eq_false_2.
  - simpl. by destruct (get_latest_version_id db).
  - intros Heq. symmetry in Heq. by apply next_key_not_latest in Heq.
Qed.

(** The keys of the rows that a push files are new and distinct. *)
Lemma filed_orders (db : Database.t Row) (message : PushMessage.t Row) (v : Z) :
  NoDup (map order (Database.operations db)) →
  NoDup (map order (Database.operations db ++ filed db message v)).
Proof.
  intros Hnd. unfold filed.
  generalize (sorted order (PushMessage.operations message)). intros ops.
  rewrite map_app. apply NoDup_app. split_and!; [done| |].
  - intros k Hk (op & -> & Hop)%list_elem_of_fmap.
    apply elem_of_lookup_imap in Hop as (i & op' & -> & _). simpl in Hk.
    apply next_key_fresh in Hk. lia.
  - generalize (next_key (map order (Database.operations db))). intros first.
    revert first. induction ops as [|op ops IH]; intros first; simpl; [constructor|].
    apply NoDup_cons. split.
    + intros (op' & Heq & Hop)%list_elem_of_fmap.
      apply elem_of_lookup_imap in Hop as (i & op'' & -> & _). simpl in Heq. lia.
    + rewrite (imap_ext _ (λ i op', mkOperation (first + 1 + Z.of_nat i) (row_id op')
                             (content_type_id op') (command op') (Some v))).
      * apply IH.
      * intros i op' _. simpl. f_equal. lia.
Qed.

(** X14: what [handle_push] keeps.  Whatever the request and its outcome,
    a consistent database stays consistent: the versions stay in ascending
    order of their id, [order] stays a key of the operations table, and
    every operation that has a version has one of the ledger.  The nodes
    and the content types are never changed. *)
Theorem handle_push_keeps_consistent (data : Data) (db : Database.t Row)
    (log : list LogEntry) :
  consistent db →
  let db' := (handle_push parse_push islegit perform repr now data db log).1.2 in
  consistent db' ∧
  Database.nodes db' = Database.nodes db ∧
  Database.content_types db' = Database.content_types db.
Proof.
  intros (Hsorted & Hnd & Href).
  destruct (handle_push parse_push islegit perform repr now data db log)
    as [[[v|e] db'] log'] eqn:Hpush; simpl.
  2: { unfold handle_push, with_transaction in Hpush.
       destruct (handle_push_proc _ _ _ _ _ _ _ _) as [[[v db'']|e'] log''];
         by simplify_eq. }
  apply handle_push_Return_inv in Hpush
    as (message & calls & objects & _ & _ & _ & _ & _ & -> & -> & _).
  simpl. split; [|done]. split_and!; simpl.
  - rewrite map_app. simpl.
    apply StronglySorted_app_2; [|done|repeat constructor].
    intros k k' Hk ->%list_elem_of_singleton. by apply next_key_fresh.
  - by apply filed_orders.
  - intros op v' [Hop|Hop]%elem_of_app Hv; rewrite map_app; apply elem_of_app.
    + left. by apply (Href op).
    + right. unfold filed in Hop.
      apply elem_of_lookup_imap in Hop as (i & op' & -> & _). simpl in Hv.
      injection Hv as <-. simpl. left.
Qed.

(** The versions that a pull returns for a request. *)
Lemma handle_pull_Return (data : gmap string Value) (extra_data : option (gmap string Value))
    (db : Database.t Row) (message : PullMessage.t Row Value) :
  handle_pull (Data:=Data) (Arg:=Arg) py_int data extra_data db = Return message →
  let requested := data !! "latest_version_id"%string ≫= py_int in
  let versions :=
    match requested with
    | Some given =>
        List.filter (λ v, given <? Version.version_id v) (Database.versions db)
    | None => Database.versions db
    end in
  PullMessage.versions message = versions ∧
  PullMessage.operations message = flat_map (operations_of db) versions ∧
  PullMessage.payload message =
    (if bool_decide (is_Some (data !! "fast_forward"%string)) then ∅
     else fold_left (add_object db) (flat_map (operations_of db) versions) ∅).
Proof.
  unfold handle_pull. rewrite fold_add_version. simpl. intros [= <-]. simpl.
  split_and!; try done. by case_bool_decide.
Qed.

(** X15: what one node pushes, another pulls.  After a push was accepted
    by a consistent database, a pull from the latest version id of before
    returns exactly the new version, attributed to the pushing node, and
    exactly the operations of the push, as they were filed. *)
Theorem push_then_pull (data : Data) (db db' : Database.t Row) (log log' : list LogEntry)
    (message : PushMessage.t Row) (v : Z)
    (data2 : gmap string Value) (extra_data : option (gmap string Value)) :
  consistent db →
  parse_push data = Some message →
  handle_push parse_push islegit perform repr now data db log = (Return v, db', log') →
  data2 !! "latest_version_id"%string ≫= py_int = get_latest_version_id db →
  ∃ pulled,
    handle_pull (Data:=Data) (Arg:=Arg) py_int data2 extra_data db' = Return pulled ∧
    PullMessage.versions pulled = [Version.mk v now (PushMessage.node_id message)] ∧
    PullMessage.operations pulled = filed db message v.
Proof.
  intros (Hsorted & Hnd & Href) Hparse Hpush Hrequested.
  apply handle_push_Return_inv in Hpush
    as (message' & calls & objects & Hparse' & _ & _ & _ & _ & Hv & -> & _).
  rewrite Hparse in Hparse'. injection Hparse' as <-.
  eexists. split; [reflexivity|].
  edestruct handle_pull_Return as (Hversions & Hoperations & _); [reflexivity|].
  rewrite Hoperations, Hversions, Hrequested. clear Hversions Hoperations. simpl.
  assert (match get_latest_version_id db with
          | Some given =>
              List.filter (λ v0, given <? Version.version_id v0)
                (Database.versions db ++ [Version.mk v now (PushMessage.node_id message)])
          | None => Database.versions db ++ [Version.mk v now (PushMessage.node_id message)]
          end = [Version.mk v now (PushMessage.node_id message)]) as ->.
  { unfold get_latest_version_id in *.
    destruct (max_key (map Version.version_id (Database.versions db))) as [m|] eqn:Hmax.
    - rewrite List.filter_app. simpl. rewrite filter_drop_all.
      + unfold next_key in Hv. rewrite Hmax in Hv.
        by rewrite (proj2 (Z.ltb_lt m v)) by lia.
      + intros v0 Hv0. apply Z.ltb_ge.
        apply (max_key_upper _ _ _ Hmax). by apply list_elem_of_fmap_2.
    - apply max_key_None, fmap_nil_inv in Hmax. by rewrite Hmax. }
  split; [done|]. simpl. rewrite app_nil_r. unfold operations_of. simpl.
  rewrite List.filter_app, filter_drop_all, filter_keep_all; [done| |].
  - intros op Hop. unfold filed in Hop.
    apply elem_of_lookup_imap in Hop as (i & op' & -> & _). simpl.
    by apply bool_decide_eq_true.
  - intros op Hop. apply bool_decide_eq_false. intros Hver.
    apply (Href op v Hop) in Hver. apply next_key_fresh in Hver. lia.
Qed.

(** X16: a node that pulled everything has nothing left to pull.  When a
    pull returned some versions, a pull from the largest id among them
    returns no version, no operation and no row. *)
Theorem pull_then_caught_up (data data2 : gmap string Value)
    (extra_data extra_data2 : option (gmap string Value)) (db : Database.t Row)
    (pulled : PullMessage.t Row Value) :
  handle_pull (Data:=Data) (Arg:=Arg) py_int data extra_data db = Return pulled →
  PullMessage.versions pulled ≠ [] →
  data2 !! "latest_version_id"%string ≫= py_int =
    max_key (map Version.version_id (PullMessage.versions pulled)) →
  ∃ pulled2,
    handle_pull (Data:=Data) (Arg:=Arg) py_int data2 extra_data2 db = Return pulled2 ∧
    PullMessage.versions pulled2 = [] ∧
    PullMessage.operations pulled2 = [] ∧
    PullMessage.payload pulled2 = ∅.
Proof.
  intros (Hversions & _ & _)%handle_pull_Return Hne Hrequested.
  eexists. split; [reflexivity|].
  edestruct handle_pull_Return as (Hversions2 & Hoperations2 & Hpayload2); [reflexivity|].
  rewrite Hpayload2, Hoperations2, Hversions2, Hrequested.
  clear Hversions2 Hoperations2 Hpayload2. simpl in *.
  destruct (max_key (map Version.version_id (PullMessage.versions pulled))) as [m|] eqn:Hmax.
  2: { by apply max_key_None, fmap_nil_inv in Hmax. }
  assert (List.filter (λ v, m <? Version.version_id v) (Database.versions db) = []) as ->.
  { apply filter_drop_all. intros v Hv. apply Z.ltb_ge.
    pose proof (max_key_upper _ _ (Version.version_id v) Hmax) as Hupper.
    rewrite Hversions in Hupper, Hmax.
    destruct (data !! "latest_version_id"%string ≫= py_int) as [given|].
    - destruct (Z.ltb_spec given (Version.version_id v)) as [Hlt|Hge].
      + apply Hupper, list_elem_of_fmap_2, list_elem_of_In, filter_In.
        split; [by apply list_elem_of_In|]. by apply Z.ltb_lt.
      + apply max_key_elem_of in Hmax as (v' & -> & Hv')%list_elem_of_fmap.
        apply list_elem_of_In, filter_In in Hv' as [_ Hv']. apply Z.ltb_lt in Hv'. lia.
    - by apply Hupper, list_elem_of_fmap_2. }
  simpl. split_and!; try done. by case_bool_decide.
Qed.


(** A list in ascending order of id splits at any id. *)
Lemma split_ascending (versions : list Version.t) (given : Z) :
  StronglySorted Z.lt (map Version.version_id versions) →
  versions =
  List.filter (λ v, Version.version_id v <=? given) versions ++
  List.filter (λ v, given <? Version.version_id v) versions.
Proof.
  induction versions as [|x versions IH]; simpl; intros Hsorted; [done|].
  apply StronglySorted_inv in Hsorted as [Hsorted Hx].
  destruct (Z.leb_spec (Version.version_id x) given) as [Hle|Hgt].
  - rewrite (proj2 (Z.ltb_ge _ _)) by done. simpl. f_equal. by apply IH.
  - rewrite (proj2 (Z.ltb_lt _ _)) by done.
    assert (∀ v, v ∈ versions → given < Version.version_id v) as Hall.
    { intros v Hv. rewrite Forall_forall in Hx.
      specialize (Hx (Version.version_id v) (list_elem_of_fmap_2 _ _ _ Hv)). lia. }
    rewrite filter_drop_all, filter_keep_all; [done| |].
    + intros v Hv. apply Z.ltb_lt. by apply Hall.
    + intros v Hv. apply Z.leb_gt. by apply Hall.
Qed.

(** X18: pulling in two steps loses nothing.  On a ledger in ascending
    order, the versions and the operations of a pull are those of its
    versions up to a later id, followed by those of a pull from that id. *)
Theorem pull_in_two_steps (data data2 : gmap string Value)
    (extra_data extra_data2 : option (gmap string Value)) (db : Database.t Row)
    (pulled pulled2 : PullMessage.t Row Value) (later : Z) :
  StronglySorted Z.lt (map Version.version_id (Database.versions db)) →
  handle_pull (Data:=Data) (Arg:=Arg) py_int data extra_data db = Return pulled →
  handle_pull (Data:=Data) (Arg:=Arg) py_int data2 extra_data2 db = Return pulled2 →
  data2 !! "latest_version_id"%string ≫= py_int = Some later →
  (∀ given, data !! "latest_version_id"%string ≫= py_int = Some given → given ≤ later) →
  let first :=
    List.filter (λ v, Version.version_id v <=? later) (PullMessage.versions pulled) in
  PullMessage.versions pulled = first ++ PullMessage.versions pulled2 ∧
  PullMessage.operations pulled =
    flat_map (operations_of db) first ++ PullMessage.operations pulled2.
Proof.
  intros Hsorted (Hversions & Hoperations & _)%handle_pull_Return
    (Hversions2 & Hoperations2 & _)%handle_pull_Return Hlater Hgiven. simpl in *.
  rewrite Hlater in *. rewrite Hoperations, Hoperations2, Hversions, Hversions2.
  rewrite <- flat_map_app.
  enough (match data !! "latest_version_id"%string ≫= py_int with
          | Some given =>
              List.filter (λ v, given <? Version.version_id v) (Database.versions db)
          | None => Database.versions db
          end =
          List.filter (λ v, Version.version_id v <=? later)
            match data !! "latest_version_id"%string ≫= py_int with
            | Some given =>
                List.filter (λ v, given <? Version.version_id v) (Database.versions db)
            | None => Database.versions db
            end ++
          List.filter (λ v, later <? Version.version_id v) (Database.versions db)) as Heq.
  { split; [done|]. by rewrite <- Heq. }
  destruct (data !! "latest_version_id"%string ≫= py_int) as [given|].
  - specialize (Hgiven given eq_refl).
    rewrite (split_ascending
               (List.filter (λ v, given <? Version.version_id v) (Database.versions db))
               later) at 1 by by apply StronglySorted_map_filter.
    f_equal. rewrite filter_filter_comm. apply filter_keep_all.
    intros v Hv. apply list_elem_of_In, filter_In in Hv as [_ Hv].
    apply Z.ltb_lt in Hv. apply Z.ltb_lt. lia.
  - by apply split_ascending.
Qed.

End push.
End HandlersMore.

(** ** Queries *)

Module QueryFacts.
Import Models Handlers Query.

Lemma app_String (a : Ascii.ascii) (s t : string) :
  String a s +:+ t = String a (s +:+ t).
Proof. reflexivity. Qed.

Lemma app_empty (t : string) : "" +:+ t = t.
Proof. reflexivity. Qed.

Lemma startswith_app (prefix rest : string) : startswith (prefix +:+ rest) prefix = true.
Proof.
  induction prefix as [|a prefix IH]; [by rewrite app_empty; destruct rest|].
  rewrite app_String. simpl. by rewrite bool_decide_eq_true_2.
Qed.

Lemma slice_from_app (prefix rest : string) :
  slice_from (String.length prefix) (prefix +:+ rest) = rest.
Proof.
  induction prefix as [|a prefix IH]; [by rewrite app_empty; destruct rest|].
  rewrite app_String. simpl. done.
Qed.

Lemma startswith_slice (s prefix : string) :
  startswith s prefix = true → s = prefix +:+ slice_from (String.length prefix) s.
Proof.
  revert s. induction prefix as [|a prefix IH]; intros s.
  - rewrite app_empty. by destruct s.
  - destruct s as [|b s]; [done|]. simpl.
    intros [->%bool_decide_eq_true Hs]%andb_true_iff.
    rewrite app_String. f_equal. by apply IH.
Qed.

Lemma length_prefix (mname : string) :
  String.length (mname +:+ "_") = (String.length mname + 1)%nat.
Proof.
  induction mname as [|a mname IH]; [done|].
  rewrite app_String. simpl. by rewrite IH.
Qed.

(** The key of the request parameter that filters on a column. *)
Definition parameter (model : Model) (column : string) : string :=
  (__name__ model +:+ "_") +:+ column.

(** A request parameter gives a filter exactly when its key is the name of
    the class, an underscore and the name of a column. *)
Lemma query_filter_Some (model : Model) (k v column value : string) :
  query_filter model (k, v) = Some (column, value) ↔
  value = v ∧ k = parameter model column ∧
  column ≠ ""%string ∧ column ∈ column_properties model.
Proof.
  unfold query_filter, parameter. split.
  - destruct (startswith k (__name__ model +:+ "_")) eqn:Hprefix; [|done].
    apply startswith_slice in Hprefix. rewrite length_prefix in Hprefix.
    destruct (negb _ && _) eqn:Hcolumn; [|done]. intros [= <- <-].
    apply andb_true_iff in Hcolumn as [Hne%negb_true_iff%bool_decide_eq_false
                                        Hin%bool_decide_eq_true].
    done.
  - intros (-> & -> & Hne & Hin).
    rewrite startswith_app, <- length_prefix, slice_from_app.
    rewrite bool_decide_eq_false_2 by done.
    by rewrite bool_decide_eq_true_2.
Qed.

Section query.
Context {Row Obj : Type}.
Variable synched_models : gmap string Model.
Variable query_model : Model → list Obj.
Variable filter_by : gmap string string → list Obj → list Obj.

Lemma query_filters_Some (model : Model) (data : gmap string string)
    (column value : string) :
  query_filters model data !! column = Some value ↔
  column ≠ ""%string ∧ column ∈ column_properties model ∧
  data !! parameter model column = Some value.
Proof.
  unfold query_filters.
  assert (∀ value', (column, value') ∈ omap (query_filter model) (map_to_list data) ↔
            column ≠ ""%string ∧ column ∈ column_properties model ∧
            data !! parameter model column = Some value') as Hin.
  { intros value'. rewrite list_elem_of_omap. split.
    - intros ([k v] & Hkv%elem_of_map_to_list & (-> & -> & Hne & Hcol)%query_filter_Some).
      done.
    - intros (Hne & Hcol & Hdata). exists (parameter model column, value').
      split; [by apply elem_of_map_to_list|]. by apply query_filter_Some. }
  rewrite <- Hin. symmetry. apply elem_of_list_to_map'.
  intros value' (_ & _ & H1)%Hin (_ & _ & H2)%Hin. congruence.
Qed.

(** X19: the filters of a query.  A column of the class whose name is not
    empty is filtered on the value of the request parameter named after the
    class and the column, when the request has it; nothing else is a
    filter, whatever the other parameters are. *)
Theorem query_filters_lookup (model : Model) (data : gmap string string) (column : string) :
  query_filters model data !! column =
  if bool_decide (column ≠ ""%string ∧ column ∈ column_properties model)
  then data !! parameter model column
  else None.
Proof.
  apply option_eq. intros value. rewrite query_filters_Some.
  case_bool_decide as Hcolumn; [tauto|]. split; [tauto|done].
Qed.

End query.
End QueryFacts.

Module QueryMore.
Import Models Handlers Query QueryFacts.

Section query.
Context {Row Obj : Type}.
Variable synched_models : gmap string Model.
Variable query_model : Model → list Obj.
Variable filter_by : gmap string string → list Obj → list Obj.

Lemma query_filters_ext (model : Model) (data data' : gmap string string) :
  (∀ column, column ≠ ""%string → column ∈ column_properties model →
     data' !! parameter model column = data !! parameter model column) →
  query_filters model data' = query_filters model data.
Proof.
  intros Hsame. apply map_eq. intros column. apply option_eq. intros value.
  rewrite !query_filters_Some.
  split; intros (Hne & Hcol & Hdata); split_and!; try done.
  - by rewrite <- Hsame.
  - by rewrite Hsame.
Qed.

(** X20: [handle_query] reads the model name and the parameters named after
    the class and one of its columns, and nothing else: two requests that
    agree on these get the same answer. *)
Theorem handle_query_parameters (data data' : gmap string string) (model : Model) :
  data !! "model"%string ≫= (synched_models !!.) = Some model →
  data' !! "model"%string = data !! "model"%string →
  (∀ column, column ≠ ""%string → column ∈ column_properties model →
     data' !! parameter model column = data !! parameter model column) →
  handle_query synched_models query_model filter_by data' =
  handle_query synched_models query_model filter_by data.
Proof.
  intros Hmodel Hname Hsame. unfold handle_query.
  rewrite Hname, Hmodel. by rewrite (query_filters_ext model data data').
Qed.

(** X21: a repair answers every query.  When [filter_by] only selects among
    the rows it is given, every object of the answer to a query is among the
    objects of the answer to a repair request. *)
Theorem handle_query_within_repair (data : gmap string string) (db : Database.t Row)
    (objs : list Obj) :
  (∀ filters q, filter_by filters q ⊆ q) →
  handle_query synched_models query_model filter_by data = Some objs →
  objs ⊆ (handle_repair synched_models query_model db).1.
Proof.
  intros Hselects. unfold handle_query, handle_repair. simpl.
  destruct (data !! "model"%string) as [name|]; simpl; [|done].
  destruct (synched_models !! name) as [model|] eqn:Hmodel; [|done].
  intros [= <-]. intros obj Hobj.
  apply list_elem_of_In, in_flat_map. exists model. split.
  - apply list_elem_of_In, list_elem_of_fmap. exists (name, model).
    split; [done|]. by apply elem_of_map_to_list.
  - apply list_elem_of_In. case_bool_decide; [done|]. by eapply Hselects.
Qed.

End query.
End QueryMore.

(** ** The new facts on the sample data *)

Module MoreWitnesses.
Import Lang Models Compression Handlers Maintenance Ledger Query Examples Samples.

Lemma NoDup_orders : NoDup (map order table).
Proof. apply (bool_decide_unpack _). by vm_compute. Defined.

Lemma compress_sample : compress table = Return compressed_table.
Proof. by vm_compute. Defined.

(** The compressed sample table is a part of the sample table, and keeps
    the operation of version 1. *)
Lemma compress_keeps_witness :
  NoDup (map order table) ∧
  compress table = Return compressed_table ∧
  compressed_table `sublist_of` table ∧
  NoDup (map order compressed_table) ∧
  ∀ op, op ∈ table → version_id op ≠ None → op ∈ compressed_table.
Proof.
  split; [exact NoDup_orders|]. split; [exact compress_sample|].
  exact (CompressionMore.compress_keeps table compressed_table NoDup_orders compress_sample).
Defined.

(** Row 3 of the sample table, inserted, updated and deleted, is forgotten. *)
Lemma compress_forgets_only_insert_delete_witness :
  NoDup (map order table) ∧
  compress table = Return compressed_table ∧
  sequence_of (3, 1) table ≠ [] ∧
  sequence_of (3, 1) compressed_table = [] ∧
  ∃ d middle i,
    sequence_of (3, 1) table = d :: middle ++ [i] ∧
    command i = Insert ∧ command d = Delete.
Proof.
  assert (sequence_of (3, 1) table ≠ []) as Hsome by by vm_compute.
  assert (sequence_of (3, 1) compressed_table = []) as Hnone by by vm_compute.
  split; [exact NoDup_orders|]. split; [exact compress_sample|].
  split; [exact Hsome|]. split; [exact Hnone|].
  exact (CompressionMore.compress_forgets_only_insert_delete table compressed_table (3, 1)
           NoDup_orders compress_sample Hsome Hnone).
Defined.

Lemma compressed_sample :
  compressed_operations table =
  Return compressed_list.
Proof. by vm_compute. Defined.

(** The operations on row 4 alone compress to what the whole list keeps
    of row 4. *)
Lemma compressed_operations_per_row_witness :
  compressed_operations table =
    Return compressed_list ∧
  compressed_operations (members subject (4, 1) table) =
    Return (members subject (4, 1) compressed_list).
Proof.
  split; [exact compressed_sample|].
  exact (CompressionMore.compressed_operations_per_row table _ (4, 1) compressed_sample).
Defined.

(** The sample table read backwards, with the groups visited backwards. *)
Lemma compressed_operations_order_independent_witness :
  (∀ groups : list (Z * Z * list Operation), rev groups ≡ₚ groups) ∧
  table ≡ₚ rev table ∧
  NoDup (map order table) ∧
  compressed_operations_iter (@rev _) (rev table) = compressed_operations table.
Proof.
  assert (∀ groups : list (Z * Z * list Operation), rev groups ≡ₚ groups) as Hiter.
  { intros groups. symmetry. apply Permutation_rev. }
  assert (table ≡ₚ rev table) as Hperm by apply Permutation_rev.
  split; [exact Hiter|]. split; [exact Hperm|]. split; [exact NoDup_orders|].
  exact (CompressionMore.compressed_operations_order_independent (@rev _) table (rev table)
           Hiter Hperm NoDup_orders).
Defined.

(** Row 1 of the sample table: both compactions keep an Insert. *)
Lemma compactions_agree_witness :
  NoDup (map order table) ∧
  compress table = Return compressed_table ∧
  compressed_operations (List.filter (λ op, bool_decide (version_id op = None)) table) =
    Return compressed_unversioned ∧
  legal (sequence_of (1, 1) table) = true ∧
  map command (sequence_of (1, 1) compressed_table) =
  map command (members subject (1, 1) compressed_unversioned).
Proof.
  assert (compressed_operations
            (List.filter (λ op, bool_decide (version_id op = None)) table) =
          Return compressed_unversioned) as Hmemory by by vm_compute.
  assert (legal (sequence_of (1, 1) table) = true) as Hlegal by by vm_compute.
  split; [exact NoDup_orders|]. split; [exact compress_sample|].
  split; [exact Hmemory|]. split; [exact Hlegal|].
  exact (CompressionMore.compactions_agree table compressed_table _ (1, 1)
           NoDup_orders compress_sample Hmemory Hlegal).
Defined.

(** *** Maintenance *)

Lemma legal_sample : Forall (λ seq, legal seq = true) (sequences table).
Proof. apply (bool_decide_unpack _). by vm_compute. Defined.

Lemma unsynched_sample :
  unsynched_objects classes (Database.content_types server) table =
  Return [("class A"%string, 1, Insert); ("class A"%string, 2, Delete);
          ("class A"%string, 4, Update); ("class A"%string, 5, Delete)].
Proof. by vm_compute. Defined.

(** The unsynched objects of the sample table: one triad for each of the
    rows 1, 2, 4 and 5. *)
Lemma unsynched_objects_net_witness :
  NoDup (map order table) ∧
  Forall (λ seq, legal seq = true) (sequences table) ∧
  ∃ triads,
    unsynched_objects classes (Database.content_types server) table = Return triads ∧
    (∀ c row cmd,
       (c, row, cmd) ∈ triads ↔
       ∃ ct, getclass classes (Database.content_types server) ct = Some c ∧
             net_command (sequence_of (row, ct) table) = Some cmd) ∧
    ∃ ops, triads = omap (triad classes (Database.content_types server)) ops ∧
           NoDup (map subject ops).
Proof.
  split; [exact NoDup_orders|]. split; [exact legal_sample|].
  eexists. split; [exact unsynched_sample|].
  exact (MaintenanceFacts.unsynched_objects_net classes (Database.content_types server)
           table _ NoDup_orders legal_sample unsynched_sample).
Defined.

(** *** Push and pull *)

Lemma consistent_server : consistent server.
Proof.
  split; [simpl; repeat constructor; lia|].
  split; [apply (bool_decide_unpack _); by vm_compute|].
  intros op v Hop Hv. simpl in Hop.
  repeat (apply elem_of_cons in Hop as [->|Hop];
          [injection Hv as <-; apply (bool_decide_unpack _); by vm_compute|]).
  by apply elem_of_nil in Hop.
Defined.

Lemma pushed :
  push (Some good_push) =
  (Return 4,
   Database.mk
     (Database.versions server ++ [Version.mk 4 now 2])
     (Database.operations server ++
        [mkOperation 4 2 1 Update (Some 4); mkOperation 5 3 1 Insert (Some 4)])
     (Database.nodes server) (Database.content_types server)
     (<[(3, 1) := 53]> (<[(2, 1) := 52]> (Database.objects server))),
   []).
Proof. by vm_compute. Defined.

(** After the good push, the bad push, made against version 3, is stale. *)
Lemma push_then_stale_witness :
  ∃ db',
    push (Some good_push) = (Return 4, db', []) ∧
    parse_push (Some bad_push) = Some bad_push ∧
    PushMessage.latest_version_id bad_push = get_latest_version_id server ∧
    get_latest_version_id db' = Some 4 ∧
    handle_push parse_push islegit perform_spec repr now (Some bad_push) db' [] =
      (Raise (PushRejected (NotLatestVersion 3)), db', []).
Proof.
  eexists. split; [exact pushed|]. split; [reflexivity|]. split; [reflexivity|].
  exact (HandlersMore.push_then_stale parse_push islegit perform_spec repr now
           (Some good_push) (Some bad_push) server _ [] [] [] 4 bad_push
           pushed eq_refl eq_refl).
Defined.

(** The sample server is consistent, and stays so after the good push. *)
Lemma handle_push_keeps_consistent_witness :
  consistent server ∧
  consistent (push (Some good_push)).1.2 ∧
  Database.nodes (push (Some good_push)).1.2 = Database.nodes server ∧
  Database.content_types (push (Some good_push)).1.2 = Database.content_types server.
Proof.
  split; [exact consistent_server|].
  exact (HandlersMore.handle_push_keeps_consistent parse_push islegit perform_spec repr now
           (Some good_push) server [] consistent_server).
Defined.

(** A pull from version 3 after the good push returns version 4 of node 2
    and its two operations, the update before the insert. *)
Lemma push_then_pull_witness :
  consistent server ∧
  ∃ db',
    push (Some good_push) = (Return 4, db', []) ∧
    ∃ pulled,
      handle_pull (Data:=option (PushMessage.t Z)) (Arg:=Operation) py_int
        {[ "latest_version_id"%string := 3 ]} None db' = Return pulled ∧
      PullMessage.versions pulled = [Version.mk 4 now 2] ∧
      PullMessage.operations pulled = filed server good_push 4.
Proof.
  split; [exact consistent_server|].
  eexists. split; [exact pushed|].
  exact (HandlersMore.push_then_pull (Value:=Z) parse_push islegit perform_spec repr py_int now
           (Some good_push) server _ [] [] good_push 4
           {[ "latest_version_id"%string := 3 ]} None
           consistent_server eq_refl pushed eq_refl).
Defined.

Lemma pull_from_1 :
  ∃ pulled : PullMessage.t Z Z,
    handle_pull (Data:=unit) (Arg:=unit) py_int {[ "latest_version_id"%string := 1 ]}
      None server = Return pulled ∧
    map Version.version_id (PullMessage.versions pulled) = [2; 3].
Proof. eexists. split; [reflexivity|by vm_compute]. Defined.

(** A pull from version 1 returns the versions 2 and 3; a pull from version
    3 returns nothing. *)
Lemma pull_then_caught_up_witness :
  ∃ pulled : PullMessage.t Z Z,
    handle_pull (Data:=unit) (Arg:=unit) py_int {[ "latest_version_id"%string := 1 ]}
      None server = Return pulled ∧
    PullMessage.versions pulled ≠ [] ∧
    ({[ "latest_version_id"%string := 3 ]} : gmap string Z) !! "latest_version_id"%string
      ≫= py_int = max_key (map Version.version_id (PullMessage.versions pulled)) ∧
    ∃ pulled2 : PullMessage.t Z Z,
      handle_pull (Data:=unit) (Arg:=unit) py_int {[ "latest_version_id"%string := 3 ]}
        None server = Return pulled2 ∧
      PullMessage.versions pulled2 = [] ∧
      PullMessage.operations pulled2 = [] ∧
      PullMessage.payload pulled2 = ∅.
Proof.
  destruct pull_from_1 as (pulled & Hpull & Hversions).
  assert (PullMessage.versions pulled ≠ []) as Hsome.
  { intros Hnone. by rewrite Hnone in Hversions. }
  assert (({[ "latest_version_id"%string := 3 ]} : gmap string Z) !! "latest_version_id"%string
            ≫= py_int = max_key (map Version.version_id (PullMessage.versions pulled)))
    as Hlatest.
  { rewrite Hversions. by vm_compute. }
  exists pulled. split; [exact Hpull|]. split; [exact Hsome|]. split; [exact Hlatest|].
  exact (HandlersMore.pull_then_caught_up (Data:=unit) (Arg:=unit) py_int
           {[ "latest_version_id"%string := 1 ]} {[ "latest_version_id"%string := 3 ]}
           None None server pulled Hpull Hsome Hlatest).
Defined.

Lemma sorted_server :
  StronglySorted Z.lt (map Version.version_id (Database.versions server)).
Proof. simpl. repeat constructor; lia. Defined.

Lemma pull_from_1_upto_2 (given : Z) :
  ({[ "latest_version_id"%string := 1 ]} : gmap string Z) !! "latest_version_id"%string
    ≫= py_int = Some given →
  given ≤ 2.
Proof. intros Hgiven. vm_compute in Hgiven. injection Hgiven as <-. lia. Defined.

(** The pull from version 1 is the version 2 with its operation, followed
    by the pull from version 2. *)
Lemma pull_in_two_steps_witness :
  StronglySorted Z.lt (map Version.version_id (Database.versions server)) ∧
  ∃ pulled pulled2 : PullMessage.t Z Z,
    handle_pull (Data:=unit) (Arg:=unit) py_int {[ "latest_version_id"%string := 1 ]}
      None server = Return pulled ∧
    handle_pull (Data:=unit) (Arg:=unit) py_int {[ "latest_version_id"%string := 2 ]}
      None server = Return pulled2 ∧
    PullMessage.versions pulled =
      List.filter (λ v, Version.version_id v <=? 2) (PullMessage.versions pulled) ++
      PullMessage.versions pulled2 ∧
    PullMessage.operations pulled =
      flat_map (operations_of server)
        (List.filter (λ v, Version.version_id v <=? 2) (PullMessage.versions pulled)) ++
      PullMessage.operations pulled2.
Proof.
  split; [exact sorted_server|].
  eexists. eexists. split; [reflexivity|]. split; [reflexivity|].
  exact (HandlersMore.pull_in_two_steps (Data:=unit) (Arg:=unit) py_int
           {[ "latest_version_id"%string := 1 ]} {[ "latest_version_id"%string := 2 ]}
           None None server _ _ 2 sorted_server eq_refl eq_refl eq_refl pull_from_1_upto_2).
Defined.

(** *** Queries *)

Lemma request_model :
  request !! "model"%string ≫= (registry !!.) = Some city.
Proof. by vm_compute. Defined.

Lemma request_parameters (column : string) :
  column ≠ ""%string → column ∈ column_properties city →
  plain_request !! QueryFacts.parameter city column =
  request !! QueryFacts.parameter city column.
Proof.
  intros _ Hcolumn. simpl in Hcolumn.
  repeat (apply elem_of_cons in Hcolumn as [->|Hcolumn]; [by vm_compute|]).
  by apply elem_of_nil in Hcolumn.
Defined.

(** The parameter [page] of the sample request makes no difference. *)
Lemma handle_query_parameters_witness :
  request !! "model"%string ≫= (registry !!.) = Some city ∧
  plain_request !! "model"%string = request !! "model"%string ∧
  (∀ column, column ≠ ""%string → column ∈ column_properties city →
     plain_request !! QueryFacts.parameter city column =
     request !! QueryFacts.parameter city column) ∧
  handle_query registry cities select plain_request =
  handle_query registry cities select request.
Proof.
  assert (plain_request !! "model"%string = request !! "model"%string) as Hname
    by by vm_compute.
  split; [exact request_model|]. split; [exact Hname|]. split; [exact request_parameters|].
  exact (QueryMore.handle_query_parameters registry cities select request plain_request city
           request_model Hname request_parameters).
Defined.

Lemma select_selects (filters : gmap string string) (q : list (string * string)) :
  select filters q ⊆ q.
Proof. intros obj Hobj. apply list_elem_of_In, filter_In in Hobj as [Hobj _].
  by apply list_elem_of_In. Defined.

Lemma request_answer :
  handle_query registry cities select request = Some [("2", "Rome"); ("3", "Rome")]%string.
Proof. by vm_compute. Defined.

(** The cities named Rome are among the objects of a repair. *)
Lemma handle_query_within_repair_witness :
  (∀ filters q, select filters q ⊆ q) ∧
  handle_query registry cities select request = Some [("2", "Rome"); ("3", "Rome")]%string ∧
  [("2", "Rome"); ("3", "Rome")]%string ⊆ (handle_repair registry cities server).1.
Proof.
  split; [exact select_selects|]. split; [exact request_answer|].
  exact (QueryMore.handle_query_within_repair registry cities select request server _
           select_selects request_answer).
Defined.

End MoreWitnesses.
